(** * Universal Interface AI: the section parser, the plain-text conversion,
      the history store, the tool component, the PDF export and the model
      fallback.

    A shallow embedding of the TypeScript sources

      - [WebUITool.tsx]        ([cleanMarkdown], [parseSections],
                                [saveToHistory], [handleRun], the speech and
                                the plain-text outputs)
      - [App.tsx]              (the remount of the tool on "New Chat")
      - [PdfPreviewModal.tsx]  ([generatePdf], [filteredSections])
      - [services/gemini.ts]   ([runUniversalInterface], [runFollowUpChat],
                                [fileToBase64])

    JavaScript strings are sequences of UTF-16 code units; they are modelled
    as lists of code units ([N]).  JavaScript numbers that occur in the page
    geometry are IEEE 754 binary64 values: a finite one is the rational it
    stands for, and every operation rounds its exact result to the nearest
    binary64 value, ties to even. *)

From Stdlib Require Import String Ascii DecimalString.
From Stdlib Require Import List Bool Arith NArith ZArith QArith Qminmax Lia Lqa.
From Stdlib Require Import Qround Qpower SpecFloat.
From Stdlib Require Import Sorted.
Import ListNotations.

Local Open Scope list_scope.
Local Open Scope nat_scope.

(* ================================================================== *)
(** * Part I: definitions                                              *)
(* ================================================================== *)

(** ** JavaScript strings *)

(** A UTF-16 code unit. *)
Definition char := N.

(** A JavaScript string value. *)
Definition str := list char.

(** A string literal of the source (ASCII only). *)
Definition lit (s : string) : str := map N_of_ascii (list_ascii_of_string s).
Arguments lit s%_string.

Definition LF : char := 10%N.

Definition char_eqb (a b : char) : bool := N.eqb a b.

Fixpoint str_eqb (a b : str) : bool :=
  match a, b with
  | [], [] => true
  | x :: a', y :: b' => char_eqb x y && str_eqb a' b'
  | _, _ => false
  end.

(** [s.startsWith(p)] *)
Fixpoint startsWith (p s : str) : bool :=
  match p, s with
  | [], _ => true
  | x :: p', y :: s' => char_eqb x y && startsWith p' s'
  | _ :: _, [] => false
  end.

(** [s.includes(p)] *)
Fixpoint includes (p s : str) : bool :=
  startsWith p s ||
  match s with
  | [] => false
  | _ :: s' => includes p s'
  end.

(** ECMAScript LineTerminator code points: LF, CR, LS, PS. *)
Definition isLineTerminator (c : char) : bool :=
  existsb (char_eqb c) [10; 13; 8232; 8233]%N.

(** ECMAScript WhiteSpace code points (TAB, VT, FF, SP, NBSP, ZWNBSP and the
    space separators), the ones [String.prototype.trim] strips together with
    the line terminators. *)
Definition isWhiteSpace (c : char) : bool :=
  existsb (char_eqb c)
    [9; 11; 12; 32; 160; 5760; 8239; 8287; 12288; 65279]%N
  || (N.leb 8192 c && N.leb c 8202).

Definition isTrimmed (c : char) : bool := isWhiteSpace c || isLineTerminator c.

Fixpoint dropWhile (f : char -> bool) (s : str) : str :=
  match s with
  | [] => []
  | c :: s' => if f c then dropWhile f s' else s
  end.

Definition trimStart (s : str) : str := dropWhile isTrimmed s.
Definition trimEnd (s : str) : str := rev (dropWhile isTrimmed (rev s)).

(** [s.trim()] *)
Definition trim (s : str) : str := trimEnd (trimStart s).

(** [s.split(sep)] for a one-character separator: never the empty array. *)
Fixpoint split (sep : char) (s : str) : list str :=
  match s with
  | [] => [[]]
  | c :: s' =>
      if char_eqb c sep then [] :: split sep s'
      else match split sep s' with
           | l :: ls => (c :: l) :: ls
           | [] => [[c]]
           end
  end.

(** [lines.join(sep)] *)
Fixpoint join (sep : char) (ls : list str) : str :=
  match ls with
  | [] => []
  | [l] => l
  | l :: ls' => l ++ sep :: join sep ls'
  end.

(** [s.replace(p, r)] for a string pattern [p]: the first occurrence only. *)
Fixpoint replaceFirst (p r s : str) : str :=
  if startsWith p s then r ++ skipn (length p) s
  else match s with
       | [] => []
       | c :: s' => c :: replaceFirst p r s'
       end.

(** ** The section parser ([parseSections]) *)

Record Section := mkSection { title : str; content : str }.

Definition Section_eqb (a b : Section) : bool :=
  str_eqb (title a) (title b) && str_eqb (content a) (content b).

Definition heading : str := lit "### ".
Definition Overview : str := lit "Overview".

(** [markdown.split(/(^|\n)### /g)[0]]: the text before the leftmost match of
    the regular expression; without the [m] flag [^] matches at index 0
    only.  When nothing matches, the whole input. *)
Fixpoint splitHead (atStart : bool) (s : str) : str :=
  if (atStart && startsWith heading s) || startsWith (LF :: heading) s then []
  else match s with
       | [] => []
       | c :: s' => c :: splitHead false s'
       end.

(** The state of the [forEach] loop: [sections], [currentTitle],
    [currentContent]. *)
Record ParseState := mkParse {
  sections : list Section;
  currentTitle : str;
  currentContent : list str
}.

(** The body of [lines.forEach(line => ...)]. *)
Definition parseLine (st : ParseState) (line : str) : ParseState :=
  if startsWith heading line then
    let pushed :=
      if (0 <? length (currentContent st))
         || negb (str_eqb (currentTitle st) Overview)
      then sections st
             ++ [mkSection (currentTitle st) (join LF (currentContent st))]
      else sections st in
    mkParse pushed (trim (replaceFirst heading [] line)) []
  else
    mkParse (sections st) (currentTitle st) (currentContent st ++ [line]).

(** The flush after the loop. *)
Definition parseFlush (st : ParseState) : list Section :=
  if 0 <? length (currentContent st)
  then sections st
         ++ [mkSection (currentTitle st) (join LF (currentContent st))]
  else sections st.

Definition parseSections (markdown : str) : list Section :=
  match markdown with
  | [] => []
  | _ :: _ =>
      let part0 := splitHead true markdown in
      let intro :=
        match part0 with
        | [] => false
        | _ :: _ => (0 <? length (trim part0))
                    && negb (startsWith (lit "###") markdown)
        end in
      let sections0 := if intro then [mkSection Overview part0] else [] in
      let lines := split LF markdown in
      parseFlush (fold_left parseLine lines (mkParse sections0 Overview []))
  end.

(** ** The plain-text conversion ([cleanMarkdown]) *)

(** One attempt of a regular expression at the current index: [prev] is the
    code unit before the index ([None] at index 0), the string is the input
    from the index on.  A match answers the replacement text and the number
    of code units it consumed, which is at least one for every expression of
    [cleanMarkdown]. *)
Definition Matcher := option char -> str -> option (str * nat).

(** [s.replace(re, ...)] for a global ([g]) expression: the matches are
    found left to right, each search resuming where the previous match
    ended; text between the matches is copied.  [skip] counts the code units
    of the current match that are still to be consumed. *)
Fixpoint replaceAll (m : Matcher) (skip : nat) (prev : option char) (s : str)
  : str :=
  match s with
  | [] => []
  | c :: s' =>
      match skip with
      | S k => replaceAll m k (Some c) s'
      | O =>
          match m prev s with
          | Some (r, n) => r ++ replaceAll m (pred n) (Some c) s'
          | None => c :: replaceAll m 0 (Some c) s'
          end
      end
  end.

(** [^] under the [m] flag: index 0, or just after a line terminator. *)
Definition atLineStart (prev : option char) : bool :=
  match prev with
  | None => true
  | Some c => isLineTerminator c
  end.

(** [/^### /gm], [/^## /gm], [/^# /gm] with replacement ['']. *)
Definition lineStartMarker (p : str) : Matcher :=
  fun prev s =>
    if atLineStart prev && startsWith p s then Some ([], length p) else None.

Definition markup : str := lit "*`>".

(** [/[*`>]/g] with replacement ['']. *)
Definition markupChar : Matcher :=
  fun _ s =>
    match s with
    | c :: _ => if existsb (char_eqb c) markup then Some ([], 1) else None
    | [] => None
    end.

(** [.*?] followed by the continuation [k]: the shortest run of code units
    other than line terminators after which [k] matches.  Answers the run
    and the number of code units consumed by the run and by [k]. *)
Fixpoint lazyDot (k : str -> option nat) (s : str) : option (str * nat) :=
  match k s with
  | Some n => Some ([], n)
  | None =>
      match s with
      | [] => None
      | c :: s' =>
          if isLineTerminator c then None
          else match lazyDot k s' with
               | Some (run, n) => Some (c :: run, S n)
               | None => None
               end
      end
  end.

Definition LBRACK : char := 91%N.
Definition RBRACK : char := 93%N.
Definition LPAREN : char := 40%N.
Definition RPAREN : char := 41%N.

(** [\)] *)
Definition closeParen (s : str) : option nat :=
  match s with
  | c :: _ => if char_eqb c RPAREN then Some 1 else None
  | [] => None
  end.

(** [\]\(.*?\)] *)
Definition linkTail (s : str) : option nat :=
  match s with
  | c1 :: c2 :: s' =>
      if char_eqb c1 RBRACK && char_eqb c2 LPAREN then
        match lazyDot closeParen s' with
        | Some (_, n) => Some (2 + n)
        | None => None
        end
      else None
  | _ => None
  end.

(** [/\[(.*?)\]\(.*?\)/g] with replacement ['$1']. *)
Definition link : Matcher :=
  fun _ s =>
    match s with
    | c :: s' =>
        if char_eqb c LBRACK then
          match lazyDot linkTail s' with
          | Some (label, n) => Some (label, S n)
          | None => None
          end
        else None
    | [] => None
    end.

Fixpoint countLF (s : str) : nat :=
  match s with
  | c :: s' => if char_eqb c LF then S (countLF s') else 0
  | [] => 0
  end.

(** [/\n{2,}/g] with replacement ['\n\n'] (the quantifier is greedy). *)
Definition newlineRun : Matcher :=
  fun _ s =>
    let n := countLF s in
    if 2 <=? n then Some ([LF; LF], n) else None.

Definition replace (m : Matcher) (s : str) : str := replaceAll m 0 None s.

Definition stripH3 : str -> str := replace (lineStartMarker (lit "### ")).
Definition stripH2 : str -> str := replace (lineStartMarker (lit "## ")).
Definition stripH1 : str -> str := replace (lineStartMarker (lit "# ")).
Definition removeMarkup : str -> str := replace markupChar.
Definition replaceLinks : str -> str := replace link.
Definition collapseNewlines : str -> str := replace newlineRun.

Definition cleanMarkdown (md : str) : str :=
  trim (collapseNewlines (replaceLinks (removeMarkup
         (stripH1 (stripH2 (stripH3 md)))))).

(** ** The history store ([saveToHistory], [deleteHistoryItem],
       [clearHistory]) *)

Record HistoryItem := mkItem {
  id : str;
  timestamp : N;
  task : str;
  result : str
}.

(** The component state [history] and the [localStorage] entry
    ['uia_history'] ([None] when the key is absent); the JSON text of the
    entry is modelled by the list it encodes. *)
Record HistoryStore := mkStore {
  history : list HistoryItem;
  uia_history : option (list HistoryItem)
}.

(** [n.toString()] for a non-negative integer. *)
Definition toString (n : N) : str :=
  lit (DecimalString.NilZero.string_of_uint (N.to_uint n)).

(** [h.task === taskPrompt && h.result === newResult] *)
Definition sameEntry (taskPrompt newResult : str) (h : HistoryItem) : bool :=
  str_eqb (task h) taskPrompt && str_eqb (result h) newResult.

(** [saveToHistory(newResult, taskPrompt)]; [now1] and [now2] are what the
    two calls of [Date.now()] answer. *)
Definition saveToHistory (now1 now2 : N) (newResult taskPrompt : str)
    (st : HistoryStore) : HistoryStore :=
  let newItem := mkItem (toString now1) now2 taskPrompt newResult in
  let isDuplicate := existsb (sameEntry taskPrompt newResult) (history st) in
  if isDuplicate then st
  else
    let updated := firstn 20 (newItem :: history st) in
    mkStore updated (Some updated).

(** [clearHistory()]; [confirmed] is the answer of [window.confirm]. *)
Definition clearHistory (confirmed : bool) (st : HistoryStore) : HistoryStore :=
  if confirmed then mkStore [] None else st.

(** [deleteHistoryItem(id, e)] *)
Definition deleteHistoryItem (i : str) (st : HistoryStore) : HistoryStore :=
  let updated := filter (fun item => negb (str_eqb (id item) i)) (history st) in
  mkStore updated (Some updated).

(** The events that change the history. *)
Inductive HistoryEvent :=
| Save (now1 now2 : N) (newResult taskPrompt : str)
| Clear (confirmed : bool)
| Delete (i : str).

Definition historyStep (st : HistoryStore) (e : HistoryEvent) : HistoryStore :=
  match e with
  | Save n1 n2 r t => saveToHistory n1 n2 r t st
  | Clear c => clearHistory c st
  | Delete i => deleteHistoryItem i st
  end.

(** The store of a fresh installation: [useState([])], nothing persisted. *)
Definition emptyStore : HistoryStore := mkStore [] None.

(** ** The export filter ([filteredSections]) *)

Section ExportFilter.

(** [String.prototype.toLowerCase]: the Unicode case mapping of the
    JavaScript engine, which is not part of the repository. *)
Variable toLowerCase : str -> str.

(** The callback of [data.sections.filter(...)]. *)
Definition keepSection (includeJson includeA11y : bool) (section : Section)
  : bool :=
  if negb includeJson
     && includes (lit "automation json") (toLowerCase (title section))
  then false
  else if negb includeA11y
          && includes (lit "accessibility") (toLowerCase (title section))
  then false
  else true.

Definition filteredSections (includeJson includeA11y : bool)
    (sections : list Section) : list Section :=
  filter (keepSection includeJson includeA11y) sections.

End ExportFilter.

(** The case mapping restricted to the letters A-Z. *)
Definition asciiLower (s : str) : str :=
  map (fun c => if N.leb 65 c && N.leb c 90 then (c + 32)%N else c) s.

(** ** Exceptions and state *)

(** A thrown JavaScript value, as far as the sources inspect it: its
    [message] and [status] properties ([None] for [undefined]). *)
Record JsError := mkError {
  message : option str;
  status : option Z
}.

Inductive Outcome (A : Type) : Type :=
| Returns (a : A)
| Throws (e : JsError).
Arguments Returns {A} a.
Arguments Throws {A} e.

(** A computation over a state [S] that returns or throws. *)
Definition M (S A : Type) : Type := S -> S * Outcome A.

Definition ret {S A} (a : A) : M S A := fun s => (s, Returns a).

Definition throw {S A} (e : JsError) : M S A := fun s => (s, Throws e).

Definition bind {S A B} (c : M S A) (k : A -> M S B) : M S B :=
  fun s =>
    match c s with
    | (s', Returns a) => k a s'
    | (s', Throws e) => (s', Throws e)
    end.

(** The answer of a call into the environment (an awaited promise, a
    library call), given as part of the input. *)
Definition lift {S A} (o : Outcome A) : M S A := fun s => (s, o).

(** [try { body } catch (e) { handler }] *)
Definition tryCatch {S A} (body : M S A) (handler : JsError -> M S A) : M S A :=
  fun s =>
    match body s with
    | (s', Returns a) => (s', Returns a)
    | (s', Throws e) => handler e s'
    end.

(** [try { body } finally { fin }] *)
Definition tryFinally {S A} (body : M S A) (fin : M S unit) : M S A :=
  fun s =>
    match body s with
    | (s', r) =>
        match fin s' with
        | (s'', Returns _) => (s'', r)
        | (s'', Throws e) => (s'', Throws e)
        end
    end.

Definition modify {S} (f : S -> S) : M S unit := fun s => (f s, Returns tt).

Notation "x <- c1 ;; c2" := (bind c1 (fun x => c2))
  (at level 61, c1 at next level, right associativity).
Notation "c1 ;; c2" := (bind c1 (fun _ => c2))
  (at level 61, right associativity).

(** [for (const x of xs) { acc = body(acc, x) }] with a body that may throw. *)
Fixpoint forOf {S A B} (body : B -> A -> M S B) (xs : list A) (acc : B)
  : M S B :=
  match xs with
  | [] => ret acc
  | x :: xs' => acc' <- body acc x ;; forOf body xs' acc'
  end.

(** [v || d] for a string-or-undefined [v]. *)
Definition orDefault (v : option str) (d : str) : str :=
  match v with
  | Some (c :: s) => c :: s
  | _ => d
  end.

(** ** The model fallback ([runUniversalInterface]) *)

Inductive Model := gemini_3_pro_preview | gemini_2_0_flash_exp.

(** The environment of one analysis request: what reading the image file
    answers, and what [ai.models.generateContent] answers for each model
    ([response.text], [None] for [undefined]). *)
Record Service := mkService {
  fileToBase64 : Outcome str;
  generateContent : Model -> Outcome (option str)
}.

(** The state is the list of the models requested so far, oldest first. *)
Definition Api (A : Type) : Type := M (list Model) A.

Definition request (sv : Service) (model : Model) : Api (option str) :=
  fun sent => (sent ++ [model], generateContent sv model).

(** [primaryError.message?.includes("404") || primaryError.status === 404
     || primaryError.message?.includes("not found")] *)
Definition isNotFound (primaryError : JsError) : bool :=
  match message primaryError with
  | Some m => includes (lit "404") m
  | None => false
  end
  || match status primaryError with
     | Some st => Z.eqb st 404
     | None => false
     end
  || match message primaryError with
     | Some m => includes (lit "not found") m
     | None => false
     end.

Definition noResponse : str := lit "No response generated.".
Definition unableToProcess : str := lit "Unable to process the image.".

Definition runUniversalInterface (sv : Service) : Api str :=
  tryCatch
    (base64 <- lift (fileToBase64 sv) ;;
     tryCatch
       (response <- request sv gemini_3_pro_preview ;;
        ret (orDefault response noResponse))
       (fun primaryError =>
          if isNotFound primaryError then
            response <- request sv gemini_2_0_flash_exp ;;
            ret (orDefault response noResponse)
          else throw primaryError))
    (fun err =>
       throw (mkError (Some (orDefault (message err) unableToProcess)) None)).

(** The first request fails with status 404 and the second one answers. *)
Definition proUnavailable : Service :=
  mkService (Returns (lit "aGk="))
    (fun model =>
       match model with
       | gemini_3_pro_preview =>
           Throws (mkError (Some (lit "model is not found")) (Some 404%Z))
       | gemini_2_0_flash_exp => Returns (Some (lit "### 1. Page Summary"))
       end).

(** The image file cannot be read; the models would answer. *)
Definition unreadableImage : Service :=
  mkService (Throws (mkError (Some (lit "NotReadableError")) None))
    (fun _ => Returns (Some (lit "### 1. Page Summary"))).

(** ** JavaScript numbers *)

(** A [number]: not-a-number, an infinity, or a finite binary64 value,
    given by the rational it stands for (in lowest terms, so that equal
    numbers are equal terms).  The two zeros are one value here: their sign
    shows only when a computed zero is a divisor, and the divisors of this
    program are pixel sizes and the literal 2. *)
Inductive double :=
| NaN
| Infinity (negative : bool)
| Finite (q : Q).
Arguments Finite q%_Q.

(** The binary exponent of a positive rational: [2^e <= a < 2^(e+1)]. *)
Definition ilog2 (a : Q) : Z :=
  let k := (Z.log2 (Qnum a) - Z.log2 (Zpos (Qden a)))%Z in
  if Qle_bool (2 ^ k) a then k else (k - 1)%Z.

(** The integer nearest to [x], the even one at a tie. *)
Definition nearestEven (x : Q) : Z :=
  let fl := Qfloor x in
  match Qcompare (x - inject_Z fl) (1 # 2) with
  | Lt => fl
  | Gt => (fl + 1)%Z
  | Eq => if Z.even fl then fl else (fl + 1)%Z
  end.

(** The spacing of the binary64 values around a positive [a]: 53
    significant bits, and the exponent not below -1022 (subnormal
    values). *)
Definition ulp (a : Q) : Q := (2 ^ (Z.max (ilog2 a) (-1022) - 52))%Q.

(** A positive rational rounded to binary64; [None] when the rounded value
    is [2^1024] or more (overflow). *)
Definition roundPos (a : Q) : option Q :=
  let v := (inject_Z (nearestEven (a / ulp a)) * ulp a)%Q in
  if Qle_bool (2 ^ 1024) v then None else Some (Qred v).

(** The binary64 value of an exact result. *)
Definition round (q : Q) : double :=
  match Qcompare q 0 with
  | Eq => Finite 0
  | Gt => match roundPos q with
          | Some v => Finite v
          | None => Infinity false
          end
  | Lt => match roundPos (- q) with
          | Some v => Finite (Qred (- v))
          | None => Infinity true
          end
  end.

Definition isNegative (q : Q) : bool :=
  match Qcompare q 0 with
  | Lt => true
  | _ => false
  end.

(** [x + y] *)
Definition fadd (x y : double) : double :=
  match x, y with
  | NaN, _ | _, NaN => NaN
  | Infinity s, Infinity t => if Bool.eqb s t then x else NaN
  | Infinity _, Finite _ => x
  | Finite _, Infinity _ => y
  | Finite a, Finite b => round (a + b)
  end.

(** [-x] *)
Definition fneg (x : double) : double :=
  match x with
  | NaN => NaN
  | Infinity s => Infinity (negb s)
  | Finite a => Finite (Qred (- a))
  end.

(** [x - y] *)
Definition fsub (x y : double) : double := fadd x (fneg y).

(** [x * y] *)
Definition fmul (x y : double) : double :=
  match x, y with
  | NaN, _ | _, NaN => NaN
  | Infinity s, Infinity t => Infinity (xorb s t)
  | Infinity s, Finite b | Finite b, Infinity s =>
      match Qcompare b 0 with
      | Eq => NaN
      | Lt => Infinity (negb s)
      | Gt => Infinity s
      end
  | Finite a, Finite b => round (a * b)
  end.

(** [x / y] *)
Definition fdiv (x y : double) : double :=
  match x, y with
  | NaN, _ | _, NaN => NaN
  | Infinity _, Infinity _ => NaN
  | Infinity s, Finite b => Infinity (xorb s (isNegative b))
  | Finite _, Infinity _ => Finite 0
  | Finite a, Finite b =>
      match Qcompare b 0 with
      | Eq => match Qcompare a 0 with
              | Eq => NaN
              | Lt => Infinity true
              | Gt => Infinity false
              end
      | _ => round (a / b)
      end
  end.

(** [x > y] *)
Definition fgt (x y : double) : bool :=
  match x, y with
  | NaN, _ | _, NaN => false
  | Infinity s, Infinity t => negb s && t
  | Infinity s, Finite _ => negb s
  | Finite _, Infinity t => t
  | Finite a, Finite b => negb (Qle_bool a b)
  end.

(** [x <= y] *)
Definition fle (x y : double) : bool :=
  match x, y with
  | NaN, _ | _, NaN => false
  | _, _ => negb (fgt x y)
  end.

(** [Math.min(x, y)] *)
Definition Math_min (x y : double) : double :=
  match x, y with
  | NaN, _ | _, NaN => NaN
  | _, _ => if fgt x y then y else x
  end.

(** The number that holds an integer (a pixel count): the integer itself
    up to [2^53], the nearest binary64 value beyond. *)
Definition ofZ (z : Z) : double := round (inject_Z z).

(** The rational a finite number stands for. *)
Definition toQ (x : double) : Q :=
  match x with
  | Finite q => q
  | _ => 0%Q
  end.

(** The largest relative error of one rounding. *)
Definition eps : Q := (2 ^ (-53))%Q.

Declare Scope double_scope.
Delimit Scope double_scope with dbl.
Bind Scope double_scope with double.
Notation "x + y" := (fadd x y) : double_scope.
Notation "x - y" := (fsub x y) : double_scope.
Notation "x * y" := (fmul x y) : double_scope.
Notation "x / y" := (fdiv x y) : double_scope.

(** The binary64 values of the Standard Library's specification of IEEE 754
    arithmetic ([SpecFloat], precision 53, exponents below 1024), read as
    numbers of this model; the operations above are compared with that
    specification on the values of the examples. *)
Definition ofSpecFloat (f : spec_float) : double :=
  match f with
  | S754_zero _ => Finite 0
  | S754_infinity s => Infinity s
  | S754_nan => NaN
  | S754_finite s m e =>
      Finite (Qred ((if s then -1 else 1) * inject_Z (Zpos m) * 2 ^ e))
  end.

Definition binary64 (z : Z) : spec_float := binary_normalize 53 1024 z 0 false.

(** ** The PDF document ([jsPDF]) *)

(** Lengths are millimetres, computed in JavaScript numbers from integer
    pixel sizes. *)
Definition pageWidth : double := Finite 210.
Definition pageHeight : double := Finite 297.
Definition margin : double := Finite 20.

(** An image placed by [pdf.addImage(data, 'JPEG', x, y, w, h)]. *)
Record Placed := mkPlaced {
  imgX : double;
  imgY : double;
  imgW : double;
  imgH : double
}.

(** The pages in order and the number (from 1) of the current page. *)
Record Pdf := mkPdf {
  pages : list (list Placed);
  currentPage : nat
}.

(** [new jsPDF('p', 'mm', 'a4')]: one empty page, which is current. *)
Definition jsPDF : Pdf := mkPdf [[]] 1.

(** [pdf.addPage()]: a new last page, which becomes current. *)
Definition addPage (pdf : Pdf) : Pdf :=
  mkPdf (pages pdf ++ [[]]) (S (length (pages pdf))).

(** [pdf.setPage(n)] *)
Definition setPage (n : nat) (pdf : Pdf) : Pdf := mkPdf (pages pdf) n.

Fixpoint onPage (n : nat) (f : list Placed -> list Placed)
    (ps : list (list Placed)) : list (list Placed) :=
  match ps, n with
  | [], _ => []
  | p :: ps', O => f p :: ps'
  | p :: ps', S k => p :: onPage k f ps'
  end.

(** [pdf.addImage(...)]: on the current page, after what is there. *)
Definition addImage (img : Placed) (pdf : Pdf) : Pdf :=
  mkPdf (onPage (pred (currentPage pdf)) (fun p => p ++ [img]) (pages pdf))
        (currentPage pdf).

(** [pdf.getImageProperties(...)]: the pixel size of an image. *)
Record ImageProps := mkProps { width : Z; height : Z }.

(** ** The screenshot page *)

(** The image placed on the dedicated screenshot page. *)
Definition screenshotPlacement (props : ImageProps) : Placed :=
  let maxWidth := (pageWidth - margin * Finite 2)%dbl in
  let maxHeight := (pageHeight - margin * Finite 2)%dbl in
  let ratio := Math_min (maxWidth / ofZ (width props))%dbl
                        (maxHeight / ofZ (height props))%dbl in
  let w := (ofZ (width props) * ratio)%dbl in
  let h := (ofZ (height props) * ratio)%dbl in
  mkPlaced (margin + (maxWidth - w) / Finite 2)%dbl margin w h.

(** [pdf.addPage(); ...; pdf.addImage(...); pdf.setPage(1)] *)
Definition screenshotPage (props : ImageProps) (pdf : Pdf) : Pdf :=
  setPage 1 (addImage (screenshotPlacement props) (addPage pdf)).

(** ** The pagination loop *)

Definition gutter : double := Finite 5.

(** [cursorY + imgHeight > pageHeight - margin] *)
Definition overflows (cursorY imgHeight : double) : bool :=
  fgt (cursorY + imgHeight)%dbl (pageHeight - margin)%dbl.

(** The part of the loop body after the block is rasterized: the page
    break, the placement and the advance of [cursorY]. *)
Definition placeBlock (st : Pdf * double) (imgHeight : double)
  : Pdf * double :=
  let '(pdf, cursorY) := st in
  let '(pdf, cursorY) :=
    if overflows cursorY imgHeight then (addPage pdf, margin)
    else (pdf, cursorY) in
  (addImage (mkPlaced margin cursorY (pageWidth - margin * Finite 2)%dbl
               imgHeight) pdf,
   (cursorY + (imgHeight + gutter))%dbl).

(** The loop over the heights of the rasterized blocks. *)
Definition paginate (heights : list double) (st : Pdf * double)
  : Pdf * double :=
  fold_left placeBlock heights st.

(** [(imgProps.height * (pageWidth - margin * Finite 2)%dbl) / imgProps.width] *)
Definition scaledHeight (imgProps : ImageProps) : double :=
  ((ofZ (height imgProps) * (pageWidth - margin * Finite 2))
   / ofZ (width imgProps))%dbl.

(** ** The export ([generatePdf]) *)

(** A DOM node, by identity. *)
Definition Node := N.

(** What the export reads and changes in the browser. *)
Record Browser := mkBrowser {
  body : list Node;               (* the children of [document.body] *)
  isGenerating : bool;            (* the in-progress flag *)
  downloads : list (str * Pdf);   (* the files saved by [pdf.save] *)
  alerts : list str;              (* the texts shown by [alert] *)
  consoleErrors : list JsError    (* the values given to [console.error] *)
}.

(** A block of the snapshot: whether its [innerText] trims to the empty
    string, what [html2canvas] answers for it, and what
    [pdf.getImageProperties] answers for the data URL of its canvas. *)
Record Block := mkBlock {
  innerTextBlank : bool;
  html2canvas : Outcome unit;
  imageProperties : Outcome ImageProps
}.

(** The content of [printRef.current], as far as the export looks at it:
    whether it holds an [img[alt="Screenshot"]], and the blocks gathered in
    step 4 (after the container of that image is removed). *)
Record Snapshot := mkSnapshot {
  hasScreenshot : bool;
  blocks : list Block
}.

(** The input of one export. *)
Record Export := mkExport {
  printRef : option Snapshot;                 (* [None] for [null] *)
  includeScreenshot : bool;
  imgPreview : option (Outcome ImageProps);   (* and how it decodes *)
  temp : Node;                                (* the created [div] *)
  dateStr : str;
  save : Outcome unit                         (* the answer of [pdf.save] *)
}.

Definition setIsGenerating (b : bool) : M Browser unit :=
  modify (fun w => mkBrowser (body w) b (downloads w) (alerts w)
                             (consoleErrors w)).

Definition appendChild (n : Node) : M Browser unit :=
  modify (fun w => mkBrowser (body w ++ [n]) (isGenerating w) (downloads w)
                             (alerts w) (consoleErrors w)).

Fixpoint removeNode (n : Node) (l : list Node) : list Node :=
  match l with
  | [] => []
  | x :: l' => if N.eqb x n then l' else x :: removeNode n l'
  end.

Definition removeChild (n : Node) : M Browser unit :=
  modify (fun w => mkBrowser (removeNode n (body w)) (isGenerating w)
                             (downloads w) (alerts w) (consoleErrors w)).

Definition pdfSave (answer : Outcome unit) (name : str) (pdf : Pdf)
  : M Browser unit :=
  _ <- lift answer ;;
  modify (fun w => mkBrowser (body w) (isGenerating w)
                             (downloads w ++ [(name, pdf)]) (alerts w)
                             (consoleErrors w)).

Definition alert (text : str) : M Browser unit :=
  modify (fun w => mkBrowser (body w) (isGenerating w) (downloads w)
                             (alerts w ++ [text]) (consoleErrors w)).

Definition consoleError (e : JsError) : M Browser unit :=
  modify (fun w => mkBrowser (body w) (isGenerating w) (downloads w)
                             (alerts w) (consoleErrors w ++ [e])).

(** Step 3: the screenshot page. *)
Definition handleScreenshot (x : Export) (snap : Snapshot) (pdf : Pdf)
  : M Browser Pdf :=
  match hasScreenshot snap && includeScreenshot x, imgPreview x with
  | true, Some decoded =>
      props <- lift decoded ;;
      ret (screenshotPage props pdf)
  | _, _ => ret pdf
  end.

(** The body of [for (const block of blocks)]. *)
Definition captureBlock (st : Pdf * double) (block : Block)
  : M Browser (Pdf * double) :=
  if innerTextBlank block then ret st
  else
    _ <- lift (html2canvas block) ;;
    imgProps <- lift (imageProperties block) ;;
    ret (placeBlock st (scaledHeight imgProps)).

(** The [try] block. *)
Definition exportBody (x : Export) (snap : Snapshot) : M Browser unit :=
  appendChild (temp x) ;;
  pdf <- handleScreenshot x snap jsPDF ;;
  st <- forOf captureBlock (blocks snap) (pdf, margin) ;;
  pdfSave (save x) (lit "UIA_Summary_" ++ dateStr x ++ lit ".pdf") (fst st) ;;
  removeChild (temp x).

Definition generatePdf (x : Export) : M Browser unit :=
  match printRef x with
  | None => ret tt
  | Some snap =>
      setIsGenerating true ;;
      tryFinally
        (tryCatch (exportBody x snap)
           (fun e => consoleError e ;; alert (lit "PDF Generation failed")))
        (setIsGenerating false)
  end.

(** ** Vocabulary of the statements *)

(** A heading line: [line.startsWith('### ')]. *)
Definition isHeading (line : str) : bool := startsWith heading line.

(** The lines [body] are the content lines of the heading line [h] of
    [markdown]: they follow it, none is a heading, and the next line, when
    there is one, is a heading. *)
Definition headingWithBody (markdown : str) (h : str) (body rest : list str)
  : Prop :=
  (exists pre, split LF markdown = pre ++ h :: body ++ rest)
  /\ isHeading h = true
  /\ Forall (fun l => isHeading l = false) body
  /\ match rest with
     | [] => True
     | next :: _ => isHeading next = true
     end.

(** The section a heading line and its content lines stand for. *)
Definition sectionOf (h : str) (body : list str) : Section :=
  mkSection (trim (skipn 4 h)) (join LF body).

(** Every heading line of [markdown] has a section in the result whose title
    is the rest of the line, trimmed. *)
Definition everyHeadingEmitted (markdown : str) : Prop :=
  forall h,
    In h (split LF markdown) -> isHeading h = true ->
    exists s, In s (parseSections markdown) /\ title s = trim (skipn 4 h).

(** [p] occurs in [s]. *)
Definition contains (p s : str) : Prop := exists a b, s = a ++ p ++ b.

(** The history holds an entry with exactly this task and result. *)
Definition hasEntry (taskPrompt newResult : str) (l : list HistoryItem)
  : Prop :=
  exists h, In h l /\ task h = taskPrompt /\ result h = newResult.

(** The exclusion rule of the export, in the words of the specification. *)
Definition excluded (toLowerCase : str -> str) (includeJson includeA11y : bool)
    (section : Section) : Prop :=
  (contains (lit "automation json") (toLowerCase (title section))
   /\ includeJson = false)
  \/ (contains (lit "accessibility") (toLowerCase (title section))
      /\ includeA11y = false).

(** A "not found" failure: the message contains "404" or "not found", or
    the status is 404. *)
Definition notFoundClass (e : JsError) : Prop :=
  (exists m, message e = Some m
             /\ (contains (lit "404") m \/ contains (lit "not found") m))
  \/ status e = Some 404%Z.

(** The first request of the service goes to the model [m]. *)
Definition attemptsFirst (m : Model) (sv : Service) : Prop :=
  exists rest, fst (runUniversalInterface sv []) = m :: rest.

(** The error the outer [catch] of [runUniversalInterface] throws for [e]. *)
Definition rethrown (e : JsError) : JsError :=
  mkError (Some (orDefault (message e) unableToProcess)) None.

(** The block stays on the current page: the test of the loop,
    [cursorY + imgHeight > pageHeight - margin], is false. *)
Definition fits (cursorY imgHeight : double) : Prop :=
  overflows cursorY imgHeight = false.

(** The cursor after blocks placed one under the other from [cursorY]:
    [cursorY += imgHeight + 5] for each of them, in order. *)
Definition advance (cursorY : double) (heights : list double) : double :=
  fold_left (fun y h => (y + (h + gutter))%dbl) heights cursorY.

Definition pageCount (pdf : Pdf) : nat := length (pages pdf).

(** The block is skipped, or is rasterized and decoded without a throw. *)
Definition rasterizes (b : Block) : Prop :=
  innerTextBlank b = true
  \/ (exists u p, html2canvas b = Returns u /\ imageProperties b = Returns p).

(** The placed heights of the blocks that are not skipped. *)
Definition rasterizedHeights (bs : list Block) : list double :=
  flat_map (fun b =>
              if innerTextBlank b then []
              else match imageProperties b with
                   | Returns p => [scaledHeight p]
                   | Throws _ => []
                   end) bs.

(** The browser once the export has set its in-progress flag. *)
Definition started (w : Browser) : Browser :=
  mkBrowser (body w) true (downloads w) (alerts w) (consoleErrors w).

(** The browser once the snapshot node is appended to the body. *)
Definition withTemp (x : Export) (w : Browser) : Browser :=
  mkBrowser (body w ++ [temp x]) (isGenerating w) (downloads w) (alerts w)
            (consoleErrors w).

(** The code unit before the index reached after [n] more code units. *)
Fixpoint prevAfter (n : nat) (prev : option char) (s : str) : option char :=
  match n, s with
  | S k, c :: s' => prevAfter k (Some c) s'
  | _, _ => prev
  end.

(** What the heading expressions do to one line: a leading marker goes. *)
Definition stripLine (p l : str) : str :=
  if startsWith p l then skipn (length p) l else l.

(** What the three heading expressions, one after the other, do to one
    line: a leading "### " goes, then a leading "## " of what is left, then
    a leading "# ". *)
Definition stripMarkers (l : str) : str :=
  stripLine (lit "# ") (stripLine (lit "## ") (stripLine (lit "### ") l)).

(** The three heading replacements of [cleanMarkdown], in their order. *)
Definition stripHeadings (md : str) : str := stripH1 (stripH2 (stripH3 md)).

Definition isMarkup (c : char) : bool := existsb (char_eqb c) markup.

(** A run of [n] line feeds. *)
Definition lineFeeds (n : nat) : str := repeat LF n.

(** The last code unit of [s] is not [c] (or [s] is empty). *)
Definition notEndingWith (c : char) (s : str) : Prop :=
  forall s', s <> s' ++ [c].

(** Every run of line feeds in [o] has at most two of them. *)
Fixpoint runsAtMost2 (o : str) : Prop :=
  match o with
  | [] => True
  | _ :: o' => countLF o <= 2 /\ runsAtMost2 o'
  end.

(** No code unit of [s] is a line terminator. *)
Definition oneLine (s : str) : Prop :=
  Forall (fun c => isLineTerminator c = false) s.

(** No code unit of [s] is [c]. *)
Definition without (c : char) (s : str) : Prop := Forall (fun x => x <> c) s.

(** ** Reading the image ([fileToBase64]) and the preview URL *)

Definition COMMA : char := 44%N.

(** A [File]: its [type], and what a [FileReader] answers for
    [readAsDataURL] (the data URL, or the error event). *)
Record File := mkFile {
  fileType : str;
  readAsDataURL : Outcome str
}.

(** [fileToBase64(file)]: resolves with [reader.result.split(",")[1]]
    ([None] for [undefined]), rejects with the error of the reader. *)
Definition fileToBase64_of (file : File) : Outcome (option str) :=
  match readAsDataURL file with
  | Returns dataUrl => Returns (nth_error (split COMMA dataUrl) 1)
  | Throws e => Throws e
  end.

(** The text a template literal puts for a string-or-undefined value. *)
Definition templateValue (v : option str) : str :=
  match v with
  | Some s => s
  | None => lit "undefined"
  end.

(** [`data:${data.imageFile?.type};base64,${base64}`] *)
Definition previewUrl (file : File) (base64 : option str) : str :=
  lit "data:" ++ fileType file ++ lit ";base64," ++ templateValue base64.

(** The effect of [PdfPreviewModal] that loads the preview: the new value
    of [imgPreview]; a rejected read leaves it as it is. *)
Definition loadPreview (imageFile : option File) (imgPreview : option str)
  : option str :=
  match imageFile, imgPreview with
  | Some file, None | Some file, Some [] =>
      match fileToBase64_of file with
      | Returns base64 => Some (previewUrl file base64)
      | Throws _ => imgPreview
      end
  | _, _ => imgPreview
  end.

(** ** The follow-up chat ([runFollowUpChat]) *)

(** What [ai.chats.create] and [chat.sendMessage] answer ([result.text],
    [None] for [undefined]). *)
Record ChatService := mkChat {
  chatsCreate : Outcome unit;
  sendMessage : Outcome (option str)
}.

Definition couldNotGenerate : str := lit "I couldn't generate a response.".
Definition unableToChat : str := lit "Unable to process chat message.".

Definition runFollowUpChat (cs : ChatService) : M unit str :=
  tryCatch
    (chat <- lift (chatsCreate cs) ;;
     result <- lift (sendMessage cs) ;;
     ret (orDefault result couldNotGenerate))
    (fun err => throw (mkError (Some unableToChat) None)).

(** ** Loading the history on mount *)

(** The effect that loads the history: [localStorage.getItem] answers the
    stored list, when there is one, and it replaces the state. *)
Definition loadHistory (st : HistoryStore) : HistoryStore :=
  match uia_history st with
  | Some saved => mkStore saved (uia_history st)
  | None => st
  end.

(** ** The tool component ([WebUITool]) *)

Inductive SpeechState := idle | playing | paused.

(** The calls made on [window.speechSynthesis]; an utterance is given by
    its text. *)
Inductive SpeechCall :=
| cancel
| speak (text : str)
| pause
| resume.

(** A run of [handleRun] that waits for the answer of the service: what
    the rest of the function reads from the render in which the button was
    pressed (the task, and the history that [saveToHistory] closes over),
    and whether the component that started the run is still mounted. *)
Record Pending := mkPending {
  run_task : str;
  run_history : list HistoryItem;
  run_mounted : bool
}.

(** The state of the mounted component, the runs that wait for their
    answer, and what the component has done to the browser. *)
Record Ui := mkUi {
  ui_image : option File;
  ui_task : str;
  ui_url : str;
  ui_loading : bool;
  ui_result : option str;
  ui_error : option str;
  ui_store : HistoryStore;             (* [history] and its persisted copy *)
  ui_showHistoryMobile : bool;
  ui_speechState : SpeechState;
  ui_speechRef : option str;           (* [speechRef.current], by its text *)
  ui_synthesis : list SpeechCall;      (* calls on [speechSynthesis] *)
  ui_pending : list Pending;           (* runs waiting for their answer *)
  ui_clipboard : list str;             (* texts written to the clipboard *)
  ui_textFiles : list (str * str)      (* [.txt] files offered for download *)
}.

(** The component as mounted, before the history is loaded. *)
Definition initialUi : Ui :=
  mkUi None [] [] false None None emptyStore false idle None [] [] [] [].

Definition setError (e : option str) (a : Ui) : Ui :=
  mkUi (ui_image a) (ui_task a) (ui_url a) (ui_loading a) (ui_result a) e
       (ui_store a) (ui_showHistoryMobile a) (ui_speechState a)
       (ui_speechRef a) (ui_synthesis a) (ui_pending a) (ui_clipboard a)
       (ui_textFiles a).

Definition setResult (r : option str) (a : Ui) : Ui :=
  mkUi (ui_image a) (ui_task a) (ui_url a) (ui_loading a) r (ui_error a)
       (ui_store a) (ui_showHistoryMobile a) (ui_speechState a)
       (ui_speechRef a) (ui_synthesis a) (ui_pending a) (ui_clipboard a)
       (ui_textFiles a).

Definition setLoading (b : bool) (a : Ui) : Ui :=
  mkUi (ui_image a) (ui_task a) (ui_url a) b (ui_result a) (ui_error a)
       (ui_store a) (ui_showHistoryMobile a) (ui_speechState a)
       (ui_speechRef a) (ui_synthesis a) (ui_pending a) (ui_clipboard a)
       (ui_textFiles a).

Definition setTask (t : str) (a : Ui) : Ui :=
  mkUi (ui_image a) t (ui_url a) (ui_loading a) (ui_result a) (ui_error a)
       (ui_store a) (ui_showHistoryMobile a) (ui_speechState a)
       (ui_speechRef a) (ui_synthesis a) (ui_pending a) (ui_clipboard a)
       (ui_textFiles a).

Definition setStore (st : HistoryStore) (a : Ui) : Ui :=
  mkUi (ui_image a) (ui_task a) (ui_url a) (ui_loading a) (ui_result a)
       (ui_error a) st (ui_showHistoryMobile a) (ui_speechState a)
       (ui_speechRef a) (ui_synthesis a) (ui_pending a) (ui_clipboard a)
       (ui_textFiles a).

Definition setShowHistoryMobile (b : bool) (a : Ui) : Ui :=
  mkUi (ui_image a) (ui_task a) (ui_url a) (ui_loading a) (ui_result a)
       (ui_error a) (ui_store a) b (ui_speechState a)
       (ui_speechRef a) (ui_synthesis a) (ui_pending a) (ui_clipboard a)
       (ui_textFiles a).

(** A call on [speechSynthesis] together with the new [speechState] and
    [speechRef.current]. *)
Definition setSpeech (call : list SpeechCall) (st : SpeechState)
    (ref : option str) (a : Ui) : Ui :=
  mkUi (ui_image a) (ui_task a) (ui_url a) (ui_loading a) (ui_result a)
       (ui_error a) (ui_store a) (ui_showHistoryMobile a) st ref
       (ui_synthesis a ++ call) (ui_pending a) (ui_clipboard a)
       (ui_textFiles a).

Definition setPending (runs : list Pending) (a : Ui) : Ui :=
  mkUi (ui_image a) (ui_task a) (ui_url a) (ui_loading a) (ui_result a)
       (ui_error a) (ui_store a) (ui_showHistoryMobile a) (ui_speechState a)
       (ui_speechRef a) (ui_synthesis a) runs (ui_clipboard a)
       (ui_textFiles a).

Definition setImage (f : option File) (a : Ui) : Ui :=
  mkUi f (ui_task a) (ui_url a) (ui_loading a) (ui_result a) (ui_error a)
       (ui_store a) (ui_showHistoryMobile a) (ui_speechState a)
       (ui_speechRef a) (ui_synthesis a) (ui_pending a) (ui_clipboard a)
       (ui_textFiles a).

Definition setUrl (u : str) (a : Ui) : Ui :=
  mkUi (ui_image a) (ui_task a) u (ui_loading a) (ui_result a) (ui_error a)
       (ui_store a) (ui_showHistoryMobile a) (ui_speechState a)
       (ui_speechRef a) (ui_synthesis a) (ui_pending a) (ui_clipboard a)
       (ui_textFiles a).

(** [stopSpeech()] *)
Definition stopSpeech (a : Ui) : Ui := setSpeech [cancel] idle None a.

(** The [onend] callback of the utterance. *)
Definition speechEnded (a : Ui) : Ui := setSpeech [] idle None a.

(** [toggleSpeech()] *)
Definition toggleSpeech (a : Ui) : Ui :=
  match ui_result a with
  | Some (c :: r) =>
      match ui_speechState a with
      | idle =>
          let plain := cleanMarkdown (c :: r) in
          setSpeech [speak plain] playing (Some plain) a
      | playing => setSpeech [pause] paused (ui_speechRef a) a
      | paused => setSpeech [resume] playing (ui_speechRef a) a
      end
  | _ => a
  end.

(** [copyToClipboard()] *)
Definition copyToClipboard (a : Ui) : Ui :=
  match ui_result a with
  | Some (c :: r) =>
      mkUi (ui_image a) (ui_task a) (ui_url a) (ui_loading a) (ui_result a)
           (ui_error a) (ui_store a) (ui_showHistoryMobile a)
           (ui_speechState a) (ui_speechRef a) (ui_synthesis a)
           (ui_pending a) (ui_clipboard a ++ [cleanMarkdown (c :: r)])
           (ui_textFiles a)
  | _ => a
  end.

(** [downloadAsText()]; [now] is what [Date.now()] answers. *)
Definition downloadAsText (now : N) (a : Ui) : Ui :=
  match ui_result a with
  | Some (c :: r) =>
      let fileName := lit "UIA_Result_" ++ toString now ++ lit ".txt" in
      mkUi (ui_image a) (ui_task a) (ui_url a) (ui_loading a) (ui_result a)
           (ui_error a) (ui_store a) (ui_showHistoryMobile a)
           (ui_speechState a) (ui_speechRef a) (ui_synthesis a)
           (ui_pending a) (ui_clipboard a)
           (ui_textFiles a ++ [(fileName, cleanMarkdown (c :: r))])
  | _ => a
  end.

(** [loadHistoryItem(item)] *)
Definition loadHistoryItem (item : HistoryItem) (a : Ui) : Ui :=
  stopSpeech
    (setShowHistoryMobile false
       (setResult (Some (result item)) (setTask (task item) a))).

Definition pleaseUpload : str := lit "Please upload a website screenshot.".
Definition pleaseDescribe : str :=
  lit "Please describe the task you want to perform.".
Definition analysisFailed : str :=
  lit "An error occurred while analyzing the interface. Please try again.".

(** [handleRun()] up to its [await]: the checks, the reset of the result
    and of the speech, and the request.  The run then waits for the answer
    with what it has closed over; meanwhile the component handles other
    events. *)
Definition handleRun (a : Ui) : Ui :=
  match ui_image a with
  | None => setError (Some pleaseUpload) a
  | Some image =>
      match trim (ui_task a) with
      | [] => setError (Some pleaseDescribe) a
      | _ :: _ =>
          let a1 :=
            stopSpeech (setError None (setResult None (setLoading true a))) in
          setPending
            (ui_pending a1
             ++ [mkPending (ui_task a) (history (ui_store a)) true]) a1
      end
  end.

(** A state update made by a run after its [await]: React drops it when the
    component is no longer mounted. *)
Definition setState (p : Pending) (f : Ui -> Ui) : M Ui unit :=
  modify (fun a => if run_mounted p then f a else a).

(** [saveToHistory(response, task)] as the run calls it: [task] and
    [history] are those of the render of the click; [setHistory] is a state
    update, [localStorage.setItem] is done in any case. *)
Definition saveFromRun (p : Pending) (now1 now2 : N) (response : str)
  : M Ui unit :=
  modify (fun a =>
    let newItem := mkItem (toString now1) now2 (run_task p) response in
    let isDuplicate :=
      existsb (sameEntry (run_task p) response) (run_history p) in
    if isDuplicate then a
    else
      let updated := firstn 20 (newItem :: run_history p) in
      setStore (mkStore (if run_mounted p then updated
                         else history (ui_store a))
                        (Some updated)) a).

(** The rest of [handleRun()], from the answer of the service on; [now1]
    and [now2] are what [Date.now()] answers in [saveToHistory]. *)
Definition resumeRun (p : Pending) (answer : Outcome str) (now1 now2 : N)
  : M Ui unit :=
  tryFinally
    (tryCatch
       (response <- lift answer ;;
        setState p (setResult (Some response)) ;;
        saveFromRun p now1 now2 response)
       (fun err =>
          setState p (setError
                        (Some (orDefault (message err) analysisFailed)))))
    (setState p (setLoading false)).

(** The list without its element of index [k]. *)
Definition dropNth {A} (k : nat) (l : list A) : list A :=
  firstn k l ++ skipn (S k) l.

(** [handleFileChange(e)] with a chosen file. *)
Definition handleFileChange (f : File) (a : Ui) : Ui :=
  setError None (setImage (Some f) a).

(** "New Chat" ([key={sessionKey}] in [App]): the component is unmounted
    and a new one is mounted.  Its state starts afresh and its effect loads
    the history from [localStorage]; what was done to the browser stays,
    and the runs that still wait now belong to an unmounted component. *)
Definition remount (a : Ui) : Ui :=
  mkUi None [] [] false None None
       (loadHistory (mkStore [] (uia_history (ui_store a))))
       false idle None (ui_synthesis a)
       (map (fun p => mkPending (run_task p) (run_history p) false)
            (ui_pending a))
       (ui_clipboard a) (ui_textFiles a).

(** What can happen to the component. *)
Inductive UiEvent :=
| NewChat
| ChooseFile (f : File)
| RemoveFile
| TypeTask (t : str)
| TypeUrl (u : str)
| Run
| Answer (k : nat) (sv : Service) (now1 now2 : N)
| LoadItem (item : HistoryItem)
| ToggleSpeech
| StopSpeech
| SpeechEnded
| CopyText
| DownloadText (now : N)
| ClearAll (confirmed : bool)
| DeleteItem (i : str).

(** One event.  [Run] is a click on the button, which is disabled while
    [loading] is set.  [Answer k sv now1 now2]: the service answers the
    waiting run of index [k] the way [sv] does, and the rest of that
    [handleRun] is executed. *)
Definition uiStep (a : Ui) (e : UiEvent) : Ui :=
  match e with
  | NewChat => remount a
  | ChooseFile f => handleFileChange f a
  | RemoveFile => setImage None a
  | TypeTask t => setTask t a
  | TypeUrl u => setUrl u a
  | Run => if ui_loading a then a else handleRun a
  | Answer k sv now1 now2 =>
      match nth_error (ui_pending a) k with
      | Some p =>
          fst (resumeRun p (snd (runUniversalInterface sv [])) now1 now2
                 (setPending (dropNth k (ui_pending a)) a))
      | None => a
      end
  | LoadItem item => loadHistoryItem item a
  | ToggleSpeech => toggleSpeech a
  | StopSpeech => stopSpeech a
  | SpeechEnded => speechEnded a
  | CopyText => copyToClipboard a
  | DownloadText now => downloadAsText now a
  | ClearAll confirmed => setStore (clearHistory confirmed (ui_store a)) a
  | DeleteItem i => setStore (deleteHistoryItem i (ui_store a)) a
  end.

(** The component after a sequence of events, from a first mount on a new
    installation. *)
Definition uiRun (events : list UiEvent) : Ui :=
  fold_left uiStep events initialUi.

(** The component from the state [a] on. *)
Definition uiFrom (a : Ui) (events : list UiEvent) : Ui :=
  fold_left uiStep events a.

(** What identifies an entry of the history: its task and its result. *)
Definition entryKey (h : HistoryItem) : str * str := (task h, result h).

(** The store a new session starts from: an empty list in the component,
    and what the last session left in [localStorage]. *)
Definition restart (st : HistoryStore) : HistoryStore :=
  mkStore [] (uia_history st).

(** The clock does not go back: each save happens at or after time [t] and
    at or after the saves before it ([now2] is the time stamp of a save). *)
Fixpoint clockFrom (t : N) (events : list HistoryEvent) : Prop :=
  match events with
  | [] => True
  | Save _ now2 _ _ :: es => (t <= now2)%N /\ clockFrom now2 es
  | _ :: es => clockFrom t es
  end.

(** [a] is as new as [b], or newer. *)
Definition newerFirst (a b : HistoryItem) : Prop :=
  (timestamp b <= timestamp a)%N.

(** A line of a text that is not a heading line. *)
Definition plainLine (l : str) : Prop := without LF l /\ isHeading l = false.

(** No line of the content of the section is a heading line. *)
Definition headingFree (s : Section) : Prop :=
  Forall (fun l => isHeading l = false) (split LF (content s)).

Definition HASH : char := 35%N.

(** The bounds every expression of [cleanMarkdown] keeps: a match consumes
    at least one code unit, no more than there are, and its replacement is
    not longer than what it consumed. *)
Definition shrinking (m : Matcher) : Prop :=
  forall prev s r n,
    m prev s = Some (r, n) -> 1 <= n /\ n <= length s /\ length r <= n.

(** All the images of the document, page by page. *)
Definition allImages (pdf : Pdf) : list Placed := concat (pages pdf).

(** The current page is a page of the document. *)
Definition validPage (pdf : Pdf) : Prop :=
  1 <= currentPage pdf /\ currentPage pdf <= pageCount pdf.

(** The current page is the last page of the document. *)
Definition onLastPage (pdf : Pdf) : Prop :=
  1 <= currentPage pdf /\ currentPage pdf = pageCount pdf.

(** Where the pagination loop puts a block: at the left margin, as wide as
    the content box, not above the top margin, and either at the very top
    of its page or where the test of the loop found room for it; in that
    case its exact lower edge is at most [2^-45] mm below the bottom
    margin. *)
Definition blockPlaced (img : Placed) : Prop :=
  imgX img = margin
  /\ imgW img = (pageWidth - margin * Finite 2)%dbl
  /\ fle margin (imgY img) = true
  /\ (imgY img = margin
      \/ (fits (imgY img) (imgH img)
          /\ forall y h, imgY img = Finite y -> imgH img = Finite h ->
                         (y + h <= 277 + 2 ^ (-45))%Q)).

(** What is being spoken is the plain text of the result on display: when
    the speech is not idle there is a non-empty result and the utterance is
    its plain text; when it is idle there is no utterance. *)
Definition speechConsistent (a : Ui) : Prop :=
  match ui_speechState a with
  | idle => ui_speechRef a = None
  | _ =>
      exists c r, ui_result a = Some (c :: r)
                  /\ ui_speechRef a = Some (cleanMarkdown (c :: r))
  end.

(** The text holds no '*', '`' or '>'. *)
Definition noMarkup (t : str) : Prop := Forall (fun c => isMarkup c = false) t.

(** Every text given to the speech engine, to the clipboard or to a [.txt]
    download is free of markup characters. *)
Definition plainOutputs (a : Ui) : Prop :=
  Forall (fun call => match call with
                      | speak t => noMarkup t
                      | _ => True
                      end) (ui_synthesis a)
  /\ Forall noMarkup (ui_clipboard a)
  /\ Forall (fun f => noMarkup (snd f)) (ui_textFiles a).

(** A list of entries within its bounds: at most 20 of them, no two with
    the same task and result. *)
Definition withinBounds (l : list HistoryItem) : Prop :=
  length l <= 20 /\ NoDup (map entryKey l).

(** The persisted copy is what a new session would show. *)
Definition persisted (st : HistoryStore) : Prop :=
  history (loadHistory (restart st)) = history st.

(** The runs of the mounted component that wait for their answer. *)
Definition waiting (a : Ui) : list Pending :=
  filter run_mounted (ui_pending a).

(** Along the events from [a] on, no history entry is loaded while the
    component shows a run in progress. *)
Fixpoint loadsWhenIdle (a : Ui) (events : list UiEvent) : Prop :=
  match events with
  | [] => True
  | e :: es =>
      match e with
      | LoadItem _ => ui_loading a = false
      | _ => True
      end
      /\ loadsWhenIdle (uiStep a e) es
  end.

(** Along the events from [a] on, every "New Chat" finds no run waiting
    for its answer. *)
Fixpoint remountsWhenSettled (a : Ui) (events : list UiEvent) : Prop :=
  match events with
  | [] => True
  | e :: es =>
      match e with
      | NewChat => ui_pending a = []
      | _ => True
      end
      /\ remountsWhenSettled (uiStep a e) es
  end.

(** While a run of the mounted component waits, the component shows it in
    progress and shows no result; and no second one waits. *)
Definition settled (a : Ui) : Prop :=
  waiting a = []
  \/ (ui_loading a = true /\ ui_result a = None /\ length (waiting a) = 1).

(** The lists of the component are within their bounds: the history it
    shows, the persisted copy, and the history each waiting run has closed
    over. *)
Definition listsWithinBounds (a : Ui) : Prop :=
  withinBounds (history (ui_store a))
  /\ (forall saved, uia_history (ui_store a) = Some saved ->
                    withinBounds saved)
  /\ Forall (fun p => withinBounds (run_history p)) (ui_pending a).

(** No run of an unmounted component waits, and the persisted copy is the
    history on display. *)
Definition inStep (a : Ui) : Prop :=
  Forall (fun p => run_mounted p = true) (ui_pending a)
  /\ persisted (ui_store a).

(** The file name of the export. *)
Definition exportName (x : Export) : str :=
  lit "UIA_Summary_" ++ dateStr x ++ lit ".pdf".

(* ================================================================== *)
(** * Part II: theorems                                                *)
(* ================================================================== *)

(** ** Strings *)

Lemma char_eqb_eq (a b : char) : char_eqb a b = true <-> a = b.
Proof. apply N.eqb_eq. Qed.

Lemma char_eqb_refl (a : char) : char_eqb a a = true.
Proof. apply N.eqb_refl. Qed.

Lemma str_eqb_eq (a b : str) : str_eqb a b = true <-> a = b.
Proof.
  revert b; induction a as [|x a IH]; intros [|y b]; simpl;
    try (split; [discriminate | discriminate]); try tauto.
  rewrite andb_true_iff, char_eqb_eq, IH.
  split; [intros [-> ->]; reflexivity | intros H; inversion H; auto].
Qed.

Lemma str_eqb_neq (a b : str) : str_eqb a b = false <-> a <> b.
Proof.
  rewrite <- str_eqb_eq. destruct (str_eqb a b); split; congruence.
Qed.

Lemma startsWith_app (p s : str) : startsWith p (p ++ s) = true.
Proof.
  induction p as [|x p IH]; simpl; [reflexivity|].
  now rewrite char_eqb_refl, IH.
Qed.

Lemma startsWith_spec (p s : str) :
  startsWith p s = true <-> exists t, s = p ++ t.
Proof.
  split.
  - revert s; induction p as [|x p IH]; intros s H.
    + now exists s.
    + destruct s as [|y s]; simpl in H; [discriminate|].
      apply andb_true_iff in H as [Hc Hp].
      apply char_eqb_eq in Hc; subst y.
      destruct (IH _ Hp) as [t ->]. now exists t.
  - intros [t ->]. apply startsWith_app.
Qed.

Lemma includes_here (p s : str) :
  startsWith p s = true -> includes p s = true.
Proof. intros H. destruct s; simpl; now rewrite H. Qed.

Lemma includes_spec (p s : str) :
  includes p s = true <-> exists a b, s = a ++ p ++ b.
Proof.
  split.
  - induction s as [|c s IH]; simpl; intros H.
    + rewrite orb_false_r in H. apply startsWith_spec in H as [t Ht].
      now exists [], t.
    + apply orb_true_iff in H as [H|H].
      * apply startsWith_spec in H as [t Ht]. now exists [], t.
      * destruct (IH H) as (a & b & ->). now exists (c :: a), b.
  - intros (a & b & ->). induction a as [|c a IH].
    + simpl app. apply includes_here, startsWith_app.
    + simpl. simpl in IH. rewrite IH. apply orb_true_r.
Qed.

Lemma replaceFirst_prefix (p r s : str) :
  startsWith p s = true -> replaceFirst p r s = r ++ skipn (length p) s.
Proof. intros H. destruct s; simpl in *; now rewrite H. Qed.

(** ** The section parser *)

Lemma parseLine_body (st : ParseState) (ls : list str) :
  Forall (fun l => isHeading l = false) ls ->
  fold_left parseLine ls st
  = mkParse (sections st) (currentTitle st) (currentContent st ++ ls).
Proof.
  intros H; revert st; induction H as [|l ls Hl _ IH]; intros st; simpl.
  - rewrite app_nil_r. now destruct st.
  - rewrite IH. unfold parseLine. unfold isHeading in Hl. rewrite Hl. simpl.
    now rewrite <- app_assoc.
Qed.

Lemma parseLine_keeps (st : ParseState) (line : str) (s : Section) :
  In s (sections st) -> In s (sections (parseLine st line)).
Proof.
  intros H. unfold parseLine.
  destruct (startsWith heading line); simpl; [|assumption].
  destruct (_ || _); [apply in_or_app; now left | assumption].
Qed.

Lemma parseLoop_keeps (ls : list str) (st : ParseState) (s : Section) :
  In s (sections st) -> In s (sections (fold_left parseLine ls st)).
Proof.
  revert st; induction ls as [|l ls IH]; intros st H; simpl; [assumption|].
  apply IH, parseLine_keeps, H.
Qed.

Lemma parseFlush_keeps (st : ParseState) (s : Section) :
  In s (sections st) -> In s (parseFlush st).
Proof.
  intros H. unfold parseFlush.
  destruct (0 <? _); [apply in_or_app; now left | assumption].
Qed.

Lemma parse_heading_line (st : ParseState) (h : str) :
  isHeading h = true ->
  currentTitle (parseLine st h) = trim (skipn 4 h)
  /\ currentContent (parseLine st h) = [].
Proof.
  intros H. unfold parseLine. unfold isHeading in H. rewrite H. simpl.
  now rewrite (replaceFirst_prefix heading [] h H).
Qed.

Lemma parse_next_heading (st : ParseState) (next : str) :
  isHeading next = true ->
  currentContent st <> [] \/ currentTitle st <> Overview ->
  In (mkSection (currentTitle st) (join LF (currentContent st)))
     (sections (parseLine st next)).
Proof.
  intros H Hst. unfold parseLine. unfold isHeading in H. rewrite H. simpl.
  assert ((0 <? length (currentContent st))
          || negb (str_eqb (currentTitle st) Overview) = true) as ->.
  { destruct Hst as [Hc|Ht].
    - destruct (currentContent st); [congruence | reflexivity].
    - apply str_eqb_neq in Ht. rewrite Ht. apply orb_true_r. }
  apply in_or_app; right; now left.
Qed.

Lemma split_not_nil (sep : char) (s : str) : split sep s <> [].
Proof.
  induction s as [|c s IH]; simpl; [discriminate|].
  destruct (char_eqb c sep); [discriminate|].
  destruct (split sep s); [congruence | discriminate].
Qed.

Lemma join_split (sep : char) (s : str) : join sep (split sep s) = s.
Proof.
  induction s as [|c s IH]; simpl; [reflexivity|].
  pose proof (split_not_nil sep s) as Hne.
  destruct (char_eqb c sep) eqn:E.
  - apply char_eqb_eq in E; subst c.
    destruct (split sep s) as [|l ls]; [congruence|].
    simpl in *. now rewrite IH.
  - destruct (split sep s) as [|l ls]; [congruence|].
    destruct ls as [|l' ls]; simpl in *; now rewrite <- IH.
Qed.

Lemma startsWith_first_line (sep : char) (p s : str) :
  Forall (fun x => char_eqb x sep = false) p ->
  startsWith p s = startsWith p (hd [] (split sep s)).
Proof.
  intros Hp; revert s; induction Hp as [|x p Hx _ IH]; intros s.
  - reflexivity.
  - destruct s as [|c s]; simpl; [reflexivity|].
    destruct (char_eqb c sep) eqn:E.
    + apply char_eqb_eq in E; subst c. simpl. now rewrite Hx.
    + rewrite (IH s).
      pose proof (split_not_nil sep s) as Hne.
      destruct (split sep s) as [|l ls]; [congruence|]. reflexivity.
Qed.

Lemma heading_no_LF : Forall (fun x => char_eqb x LF = false) heading.
Proof. repeat constructor. Qed.

Lemma isHeading_first_line (s : str) :
  isHeading s = isHeading (hd [] (split LF s)).
Proof. apply startsWith_first_line, heading_no_LF. Qed.

Lemma splitHead_later (s : str) :
  Forall (fun l => isHeading l = false) (tl (split LF s)) ->
  splitHead false s = s.
Proof.
  induction s as [|c s IH]; intros H; [reflexivity|].
  pose proof (split_not_nil LF s) as Hne.
  simpl in H. cbn [splitHead andb orb startsWith].
  destruct (char_eqb c LF) eqn:E; simpl in H.
  - apply char_eqb_eq in E; subst c.
    change (startsWith heading s) with (isHeading s).
    rewrite isHeading_first_line.
    destruct (split LF s) as [|l ls]; [congruence|].
    inversion H as [|? ? Hl Hls]; subst. simpl hd. rewrite Hl.
    simpl. f_equal. apply IH. exact Hls.
  - unfold char_eqb in *. rewrite N.eqb_sym, E. simpl. f_equal. apply IH.
    destruct (split LF s) as [|l ls]; [congruence|]. exact H.
Qed.

Lemma splitHead_whole (s : str) :
  Forall (fun l => isHeading l = false) (split LF s) ->
  splitHead true s = s.
Proof.
  intros H.
  assert (isHeading s = false) as Hs.
  { rewrite isHeading_first_line.
    destruct (split LF s); [reflexivity | now inversion H]. }
  assert (Forall (fun l => isHeading l = false) (tl (split LF s))) as Ht.
  { destruct (split LF s); [constructor | now inversion H]. }
  destruct s as [|c s]; [reflexivity|].
  pose proof (splitHead_later (c :: s) Ht) as Hl.
  unfold isHeading in Hs.
  cbn [splitHead andb] in *. rewrite Hs. exact Hl.
Qed.

(** C1: the empty input has no section.  A non-empty input without a
    heading line has the "Overview" section of the whole input as its last
    section; that section stands a second time in front of it when the input
    trims to a non-empty string and does not start with "###", once from the
    text before the first match of the heading expression and once from the
    line loop.  So such an input has two sections, not one. *)
Theorem parseSections_no_heading :
  parseSections [] = []
  /\ forall markdown,
      markdown <> [] ->
      Forall (fun l => isHeading l = false) (split LF markdown) ->
      parseSections markdown
      = (if (0 <? length (trim markdown))
            && negb (startsWith (lit "###") markdown)
         then [mkSection Overview markdown] else [])
        ++ [mkSection Overview markdown].
Proof.
  split; [reflexivity|].
  intros markdown Hne H. destruct markdown as [|c md]; [congruence|].
  unfold parseSections. cbv zeta.
  rewrite (splitHead_whole _ H), (parseLine_body _ _ H).
  unfold parseFlush. cbn [sections currentTitle currentContent app].
  rewrite join_split.
  pose proof (split_not_nil LF (c :: md)).
  destruct (split LF (c :: md)); [congruence | reflexivity].
Qed.

Lemma parseSections_plain_text_twice :
  parseSections (lit "hello")
  = [mkSection Overview (lit "hello"); mkSection Overview (lit "hello")].
Proof.
  destruct parseSections_no_heading as [_ H].
  rewrite (H (lit "hello")).
  - reflexivity.
  - discriminate.
  - repeat constructor.
Defined.

(** C2: on the scenario input [parseSections] answers four sections, the
    leading "Overview" section twice, and so not the three sections of the
    scenario. *)
Theorem parseSections_scenario_four_sections :
  let markdown := lit "Intro text" ++ LF :: lit "### Steps" ++ LF ::
                  lit "1. Do X" ++ LF :: lit "### Notes" ++ LF ::
                  lit "Some note" in
  parseSections markdown
  = [mkSection Overview (lit "Intro text");
     mkSection Overview (lit "Intro text");
     mkSection (lit "Steps") (lit "1. Do X");
     mkSection (lit "Notes") (lit "Some note")]
  /\ parseSections markdown
     <> [mkSection Overview (lit "Intro text");
         mkSection (lit "Steps") (lit "1. Do X");
         mkSection (lit "Notes") (lit "Some note")].
Proof. split; [vm_compute; reflexivity | vm_compute; discriminate]. Qed.

(** C6, as stated, fails: a heading on the last line of the input has no
    section in the result ("### A" parses to no section at all), and a
    heading titled "Overview" that is directly followed by another heading
    has none either. *)
Lemma heading_not_always_emitted :
  ~ everyHeadingEmitted (lit "### A")
  /\ ~ everyHeadingEmitted
        (lit "### Overview" ++ LF :: lit "### B" ++ LF :: lit "x").
Proof.
  split; intros H.
  - destruct (H (lit "### A")) as (s & Hin & _);
      [now left | reflexivity |].
    vm_compute in Hin. exact Hin.
  - destruct (H (lit "### Overview")) as (s & Hin & Ht);
      [now left | reflexivity |].
    vm_compute in Hin. destruct Hin as [<-|[]].
    vm_compute in Ht. discriminate Ht.
Qed.

(** C6, amended: a heading line that has at least one content line, or that
    is directly followed by another heading line and whose trimmed title is
    not "Overview", has its section in the result: the title is the rest of
    the line after the marker, trimmed, and the content is the content lines
    joined by line feeds (the empty string for consecutive headings). *)
Theorem heading_emitted (markdown h : str) (body rest : list str) :
  headingWithBody markdown h body rest ->
  body <> [] \/ (rest <> [] /\ trim (skipn 4 h) <> Overview) ->
  In (sectionOf h body) (parseSections markdown).
Proof.
  intros ([pre Hsplit] & Hh & Hbody & Hrest) Hemit.
  unfold parseSections.
  destruct markdown as [|c md].
  { simpl in Hsplit. destruct pre as [|x [|y pre]]; try discriminate.
    injection Hsplit as <- _. discriminate Hh. }
  cbv zeta. rewrite Hsplit.
  set (st0 := mkParse _ _ _).
  rewrite fold_left_app. simpl fold_left.
  set (st1 := fold_left parseLine pre st0).
  destruct (parse_heading_line st1 h Hh) as [Ht Hc].
  rewrite fold_left_app, (parseLine_body _ _ Hbody), Ht, Hc. simpl app.
  set (st3 := mkParse _ _ _).
  assert (currentTitle st3 = trim (skipn 4 h)) as Ht3 by reflexivity.
  assert (currentContent st3 = body) as Hc3 by reflexivity.
  destruct rest as [|next rest].
  - simpl. unfold parseFlush. rewrite Hc3, Ht3.
    destruct Hemit as [Hb|[Hr _]]; [|congruence].
    destruct body; [congruence|]. simpl Nat.ltb.
    apply in_or_app; right; now left.
  - simpl fold_left. apply parseFlush_keeps, parseLoop_keeps.
    unfold sectionOf. rewrite <- Ht3, <- Hc3.
    apply parse_next_heading; [exact Hrest|].
    rewrite Hc3, Ht3. destruct Hemit as [Hb|[_ Ht']]; auto.
Qed.

Lemma heading_emitted_witness :
  In (mkSection (lit "A") []) (parseSections (lit "### A" ++ LF :: lit "### B")).
Proof.
  apply (heading_emitted (lit "### A" ++ LF :: lit "### B") (lit "### A")
           [] [lit "### B"]).
  - repeat split; [now exists [] | constructor].
  - right. split; [discriminate | vm_compute; discriminate].
Defined.

(** ** The history store *)

Lemma hasEntry_existsb (taskPrompt newResult : str) (l : list HistoryItem) :
  existsb (sameEntry taskPrompt newResult) l = true
  <-> hasEntry taskPrompt newResult l.
Proof.
  rewrite existsb_exists. unfold hasEntry, sameEntry.
  split; intros (h & Hin & H); exists h; split; auto.
  - apply andb_true_iff in H. now rewrite !str_eqb_eq in H.
  - apply andb_true_iff. now rewrite !str_eqb_eq.
Qed.

Lemma firstn_drops_last {A} (n : nat) (l : list A) :
  length l = S n -> firstn n l = removelast l.
Proof. intros H. rewrite removelast_firstn_len, H. reflexivity. Qed.

(** C7: saving a (task, result) pair that the history already holds changes
    nothing; saving any other pair prepends the new entry and keeps the 20
    newest entries, in the component state and in the persisted copy.  So
    the result has at most 20 entries; below 20 entries nothing is evicted,
    and at 20 entries exactly the last, oldest, entry is. *)
Theorem saveToHistory_capped (now1 now2 : N) (newResult taskPrompt : str)
    (st : HistoryStore) :
  let st' := saveToHistory now1 now2 newResult taskPrompt st in
  let newItem := mkItem (toString now1) now2 taskPrompt newResult in
  (hasEntry taskPrompt newResult (history st) -> st' = st)
  /\ (~ hasEntry taskPrompt newResult (history st) ->
      history st' = firstn 20 (newItem :: history st)
      /\ uia_history st' = Some (history st')
      /\ length (history st') <= 20
      /\ (length (history st) < 20 -> history st' = newItem :: history st)
      /\ (length (history st) = 20 ->
          history st' = newItem :: removelast (history st)))
  /\ (length (history st) <= 20 -> length (history st') <= 20).
Proof.
  cbv zeta. unfold saveToHistory.
  pose proof (hasEntry_existsb taskPrompt newResult (history st)) as Hiff.
  destruct (existsb _ _) eqn:E.
  - split; [reflexivity|]. split; [|tauto].
    intros Hn. exfalso. apply Hn, Hiff. reflexivity.
  - split; [intros Hd; apply Hiff in Hd; discriminate|].
    cbn [history uia_history].
    assert (length (firstn 20 (mkItem (toString now1) now2 taskPrompt
              newResult :: history st)) <= 20) as Hlen
      by apply firstn_le_length.
    split; [|intros _; exact Hlen].
    intros _. repeat split; [exact Hlen | |].
    + intros Hlt. apply firstn_all2. simpl. lia.
    + intros H20. rewrite firstn_cons. f_equal.
      apply firstn_drops_last. exact H20.
Qed.

Lemma saveToHistory_capped_witness :
  let old := map (fun n => mkItem (toString n) n (lit "t") (toString n))
                 (map N.of_nat (seq 0 20)) in
  history (saveToHistory 99 99 (lit "new") (lit "t") (mkStore old (Some old)))
  = mkItem (toString 99) 99 (lit "t") (lit "new") :: removelast old.
Proof.
  cbv zeta.
  set (old := map _ _).
  destruct (saveToHistory_capped 99 99 (lit "new") (lit "t")
              (mkStore old (Some old))) as (_ & H & _).
  destruct H as (_ & _ & _ & _ & H).
  - intros (h & Hin & _ & Hr). vm_compute in Hin.
    repeat (destruct Hin as [<-|Hin]; [discriminate Hr|]). exact Hin.
  - apply H. reflexivity.
Defined.

(** Every store reached from the empty one by saving, deleting and clearing
    holds at most 20 entries. *)
Lemma history_never_exceeds_20 (events : list HistoryEvent) :
  length (history (fold_left historyStep events emptyStore)) <= 20.
Proof.
  assert (forall st, length (history st) <= 20 ->
            length (history (fold_left historyStep events st)) <= 20) as H.
  { induction events as [|e events IH]; intros st Hst; [exact Hst|].
    simpl. apply IH. destruct e as [n1 n2 r t|c|i]; simpl.
    - unfold saveToHistory. destruct (existsb _ _); [exact Hst|].
      apply firstn_le_length.
    - unfold clearHistory. destruct c; simpl; [lia | exact Hst].
    - pose proof (filter_length_le
                    (fun item => negb (str_eqb (id item) i)) (history st)).
      lia. }
  apply H. simpl. lia.
Qed.

(** ** The export filter *)

Section ExportFilterFacts.

Variable toLowerCase : str -> str.

Lemma keepSection_excluded (includeJson includeA11y : bool) (s : Section) :
  keepSection toLowerCase includeJson includeA11y s = false
  <-> excluded toLowerCase includeJson includeA11y s.
Proof.
  unfold keepSection, excluded, contains.
  rewrite <- !includes_spec.
  destruct includeJson, includeA11y; simpl;
    repeat match goal with
           | |- context [includes ?p ?t] => destruct (includes p t)
           end;
    intuition congruence.
Qed.

(** C5: the export filter drops a section exactly when its lowercased
    title contains "automation json" while [includeJson] is off, or
    contains "accessibility" while [includeA11y] is off; every other
    section is kept, and the kept sections stay in their order. *)
Theorem filteredSections_rule (includeJson includeA11y : bool) :
  let f := filteredSections toLowerCase includeJson includeA11y in
  let ex := excluded toLowerCase includeJson includeA11y in
  f [] = []
  /\ (forall s rest, ex s -> f (s :: rest) = f rest)
  /\ (forall s rest, ~ ex s -> f (s :: rest) = s :: f rest)
  /\ (forall l1 l2, f (l1 ++ l2) = f l1 ++ f l2)
  /\ (forall s l, In s (f l) <-> In s l /\ ~ ex s).
Proof.
  cbv zeta. unfold filteredSections.
  split; [reflexivity|].
  split; [|split; [|split]].
  - intros s rest H. apply keepSection_excluded in H. simpl. now rewrite H.
  - intros s rest H. rewrite <- keepSection_excluded in H. simpl.
    destruct (keepSection _ _ _ s); congruence.
  - intros l1 l2. apply filter_app.
  - intros s l. rewrite filter_In, <- keepSection_excluded.
    destruct (keepSection _ _ _ s); intuition congruence.
Qed.

End ExportFilterFacts.

Lemma filteredSections_rule_witness :
  filteredSections asciiLower false true
    [mkSection (lit "3. Automation JSON") (lit "{}");
     mkSection (lit "4. Accessibility Rewrite") (lit "text")]
  = [mkSection (lit "4. Accessibility Rewrite") (lit "text")].
Proof.
  destruct (filteredSections_rule asciiLower false true) as (_ & Hex & Hkeep & _).
  rewrite Hex.
  - rewrite Hkeep; [reflexivity|].
    intros [[H _]|[_ H]]; [|discriminate H].
    apply includes_spec in H. vm_compute in H. discriminate H.
  - left. split; [|reflexivity].
    apply includes_spec. vm_compute. reflexivity.
Defined.

(** ** The model fallback *)

Lemma isNotFound_spec (e : JsError) :
  isNotFound e = true <-> notFoundClass e.
Proof.
  unfold isNotFound, notFoundClass.
  rewrite !orb_true_iff. split.
  - intros [[H|H]|H].
    + destruct (message e) as [m|]; [|discriminate].
      left; exists m; split; [reflexivity|]. left. now apply includes_spec.
    + destruct (status e) as [z|]; [|discriminate].
      apply Z.eqb_eq in H. right. now subst.
    + destruct (message e) as [m|]; [|discriminate].
      left; exists m; split; [reflexivity|]. right. now apply includes_spec.
  - intros [(m & Hm & [H|H])|H].
    + rewrite Hm. left; left. now apply includes_spec.
    + rewrite Hm. right. now apply includes_spec.
    + rewrite H. left; right. reflexivity.
Qed.

Ltac fallback_case :=
  repeat split; intros;
  repeat match goal with
         | H : exists _, _ |- _ => destruct H as (? & ? & ?)
         | H : Throws _ = Throws _ |- _ => injection H as H; subst
         | H : Returns _ = Returns _ |- _ => injection H as H; subst
         end;
  try discriminate; try contradiction; try reflexivity; eauto.

(** C8: a request whose image cannot be read sends nothing to any model
    and throws the failure of the read on (through the outer handler, which
    keeps the message or puts the default one).  For every other request the
    first request goes to the higher-capability model; a second request is
    sent, to the lesser model, exactly when the first one failed with a
    "not found" failure, and no third request is ever sent; any other
    failure of the first request is thrown on at once, and so is a failure
    of the second request. *)
Theorem runUniversalInterface_fallback (sv : Service) :
  let sent := fst (runUniversalInterface sv []) in
  let answer := snd (runUniversalInterface sv []) in
  let primary := generateContent sv gemini_3_pro_preview in
  let fallback := generateContent sv gemini_2_0_flash_exp in
  match fileToBase64 sv with
  | Throws e => sent = [] /\ answer = Throws (rethrown e)
  | Returns _ =>
      (sent = [gemini_3_pro_preview]
       \/ sent = [gemini_3_pro_preview; gemini_2_0_flash_exp])
      /\ (sent = [gemini_3_pro_preview; gemini_2_0_flash_exp]
          <-> exists e, primary = Throws e /\ notFoundClass e)
      /\ (forall text, primary = Returns text ->
            answer = Returns (orDefault text noResponse))
      /\ (forall e, primary = Throws e -> ~ notFoundClass e ->
            sent = [gemini_3_pro_preview] /\ answer = Throws (rethrown e))
      /\ (forall e text, primary = Throws e -> notFoundClass e ->
            fallback = Returns text ->
            answer = Returns (orDefault text noResponse))
      /\ (forall e e', primary = Throws e -> notFoundClass e ->
            fallback = Throws e' ->
            answer = Throws (rethrown e'))
  end.
Proof.
  cbv zeta.
  unfold runUniversalInterface, tryCatch, bind, lift, request, ret, throw.
  destruct (fileToBase64 sv) as [base64|e0]; [|now split]. simpl.
  destruct (generateContent sv gemini_3_pro_preview) as [text|e] eqn:Hp.
  - simpl. fallback_case.
  - pose proof (isNotFound_spec e) as Hnf.
    destruct (isNotFound e) eqn:Hb.
    + assert (notFoundClass e) as He by now apply Hnf.
      destruct (generateContent sv gemini_2_0_flash_exp) as [text|e'] eqn:Hf;
        simpl; fallback_case.
    + assert (~ notFoundClass e) as He.
      { intros H. apply Hnf in H. discriminate H. }
      simpl. fallback_case.
Qed.

Lemma runUniversalInterface_fallback_witness :
  fst (runUniversalInterface proUnavailable [])
  = [gemini_3_pro_preview; gemini_2_0_flash_exp]
  /\ snd (runUniversalInterface proUnavailable [])
     = Returns (lit "### 1. Page Summary").
Proof.
  pose proof (runUniversalInterface_fallback proUnavailable) as H.
  cbv zeta in H. change (fileToBase64 proUnavailable)
    with (@Returns str (lit "aGk=")) in H.
  destruct H as (_ & Hsent & _ & _ & Hok & _).
  split.
  - apply Hsent. eexists. split; [reflexivity|]. right. reflexivity.
  - apply (Hok _ (Some (lit "### 1. Page Summary")) eq_refl);
      [right; reflexivity | reflexivity].
Defined.

(** Not every request attempts the higher-capability model first: when the
    image cannot be read, no model is attempted at all. *)
Lemma runUniversalInterface_no_attempt :
  ~ attemptsFirst gemini_3_pro_preview unreadableImage.
Proof. intros [rest H]. discriminate H. Qed.

(** A failure that is not of the "not found" class: one request, and the
    failure is thrown on with its message. *)
Example runUniversalInterface_quota :
  let quota := mkError (Some (lit "429 quota exceeded")) (Some 429%Z) in
  let sv := mkService (Returns (lit "aGk="))
              (fun model =>
                 match model with
                 | gemini_3_pro_preview => Throws quota
                 | gemini_2_0_flash_exp => Returns (Some (lit "unused"))
                 end) in
  runUniversalInterface sv []
  = ([gemini_3_pro_preview],
     Throws (mkError (Some (lit "429 quota exceeded")) None)).
Proof. reflexivity. Qed.

(** When the image cannot be read no request is sent at all. *)
Lemma runUniversalInterface_unreadable (sv : Service) (e : JsError) :
  fileToBase64 sv = Throws e ->
  runUniversalInterface sv [] = ([], Throws (rethrown e)).
Proof.
  intros H. unfold runUniversalInterface, tryCatch, bind, lift, throw.
  rewrite H. reflexivity.
Qed.

(** ** JavaScript numbers *)

Local Open Scope Q_scope.

Lemma nearestEven_close (x : Q) :
  x - (1 # 2) <= inject_Z (nearestEven x) <= x + (1 # 2).
Proof.
  unfold nearestEven.
  pose proof (Qfloor_le x) as Hl. pose proof (Qlt_floor x) as Hu.
  rewrite inject_Z_plus in Hu. change (inject_Z 1) with 1 in Hu.
  set (fl := Qfloor x) in *.
  destruct (Qcompare_spec (x - inject_Z fl) (1 # 2)) as [E|E|E].
  - destruct (Z.even fl); rewrite ?inject_Z_plus; change (inject_Z 1) with 1;
      lra.
  - lra.
  - rewrite inject_Z_plus. change (inject_Z 1) with 1. lra.
Qed.

Lemma pow2_pos (k : Z) : 0 < 2 ^ k.
Proof. apply Qpower_0_lt. reflexivity. Qed.

Lemma pow2_plus (n m : Z) : 2 ^ (n + m) == 2 ^ n * 2 ^ m.
Proof. apply Qpower_plus. discriminate. Qed.

Lemma pow2_Z (n : Z) : (0 <= n)%Z -> inject_Z (2 ^ n) == 2 ^ n.
Proof. intros H. now rewrite Zpower_Qpower. Qed.

Lemma pow2_le (n m : Z) : (n <= m)%Z -> 2 ^ n <= 2 ^ m.
Proof. intros H. apply Qpower_le_compat_l; [exact H | discriminate]. Qed.

Lemma pow2_lt_inv (n m : Z) : 2 ^ n < 2 ^ m -> (n < m)%Z.
Proof.
  intros H. destruct (Z.lt_ge_cases n m) as [L|L]; [exact L|].
  apply pow2_le in L. lra.
Qed.

Lemma Q_as_fraction (a : Q) : a * inject_Z (Zpos (Qden a)) == inject_Z (Qnum a).
Proof.
  destruct a as [p d]. unfold Qeq, Qmult, inject_Z. simpl. lia.
Qed.

Lemma log2_bounds (a : Q) :
  0 < a ->
  2 ^ (Z.log2 (Qnum a) - Z.log2 (Zpos (Qden a)) - 1) < a
  /\ a < 2 ^ (Z.log2 (Qnum a) - Z.log2 (Zpos (Qden a)) + 1).
Proof.
  intros Ha.
  assert (0 < Qnum a)%Z as Hp.
  { destruct a as [p d]. unfold Qlt in Ha. simpl in *. lia. }
  pose proof (Q_as_fraction a) as Hf.
  set (p := Qnum a) in *. set (d := Zpos (Qden a)) in *.
  assert (0 < d)%Z as Hd by (unfold d; lia).
  destruct (Z.log2_spec p Hp) as [Hp1 Hp2].
  destruct (Z.log2_spec d Hd) as [Hd1 Hd2].
  pose proof (Z.log2_nonneg p) as Np. pose proof (Z.log2_nonneg d) as Nd.
  set (lp := Z.log2 p) in *. set (ld := Z.log2 d) in *.
  assert (2 ^ lp <= inject_Z p) as Qp1.
  { rewrite <- pow2_Z by exact Np. now rewrite <- Zle_Qle. }
  assert (inject_Z p < 2 ^ (lp + 1)) as Qp2.
  { rewrite <- pow2_Z by lia. rewrite <- Zlt_Qlt. lia. }
  assert (2 ^ ld <= inject_Z d) as Qd1.
  { rewrite <- pow2_Z by exact Nd. now rewrite <- Zle_Qle. }
  assert (inject_Z d < 2 ^ (ld + 1)) as Qd2.
  { rewrite <- pow2_Z by lia. rewrite <- Zlt_Qlt. lia. }
  assert (0 < inject_Z d) as Qd0.
  { change 0 with (inject_Z 0). now rewrite <- Zlt_Qlt. }
  split.
  - assert (2 ^ (lp - ld - 1) * 2 ^ (ld + 1) == 2 ^ lp) as E.
    { rewrite <- pow2_plus. now replace (lp - ld - 1 + (ld + 1))%Z with lp by lia. }
    pose proof (pow2_pos (lp - ld - 1)) as P0.
    apply Qmult_lt_r with (z := inject_Z d); [exact Qd0|].
    rewrite Hf.
    apply Qlt_le_trans with (y := 2 ^ lp); [|exact Qp1].
    rewrite <- E. apply Qmult_lt_l; assumption.
  - assert (2 ^ (lp - ld + 1) * 2 ^ ld == 2 ^ (lp + 1)) as E.
    { rewrite <- pow2_plus. now replace (lp - ld + 1 + ld)%Z with (lp + 1)%Z by lia. }
    pose proof (pow2_pos (lp - ld + 1)) as P0.
    apply Qmult_lt_r with (z := inject_Z d); [exact Qd0|].
    rewrite Hf.
    apply Qlt_le_trans with (y := 2 ^ (lp + 1)); [exact Qp2|].
    rewrite <- E. apply Qmult_le_l; assumption.
Qed.

Lemma ilog2_spec (a : Q) :
  0 < a -> 2 ^ ilog2 a <= a /\ a < 2 ^ (ilog2 a + 1).
Proof.
  intros Ha. destruct (log2_bounds a Ha) as [L U]. unfold ilog2.
  set (k := (Z.log2 (Qnum a) - Z.log2 (Zpos (Qden a)))%Z) in *.
  destruct (Qle_bool (2 ^ k) a) eqn:E.
  - apply Qle_bool_iff in E. now split.
  - split; [now apply Qlt_le_weak|].
    replace (k - 1 + 1)%Z with k by lia.
    apply Qnot_le_lt. intros H. apply Qle_bool_iff in H. congruence.
Qed.

Lemma ulp_pos (a : Q) : 0 < ulp a.
Proof. apply pow2_pos. Qed.

(** The nearest multiple of the unit. *)
Lemma nearest_multiple (a : Q) :
  let v := inject_Z (nearestEven (a / ulp a)) * ulp a in
  a - ulp a * (1 # 2) <= v <= a + ulp a * (1 # 2).
Proof.
  cbv zeta. pose proof (ulp_pos a) as Hu.
  pose proof (nearestEven_close (a / ulp a)) as [L U].
  set (n := inject_Z (nearestEven (a / ulp a))) in *.
  assert (a == a / ulp a * ulp a) as E by (field; lra).
  set (x := a / ulp a) in *. set (d := ulp a) in *. clearbody n x d.
  assert ((x - (1 # 2)) * d <= n * d) as L' by (apply Qmult_le_compat_r; lra).
  assert (n * d <= (x + (1 # 2)) * d) as U' by (apply Qmult_le_compat_r; lra).
  rewrite E. split; lra.
Qed.

Lemma ulp_normal (a : Q) :
  2 ^ (-1022) <= a -> ulp a <= a * 2 ^ (-52).
Proof.
  intros Ha.
  assert (0 < a) as Hp.
  { apply Qlt_le_trans with (y := 2 ^ (-1022)); [apply pow2_pos | exact Ha]. }
  destruct (ilog2_spec a Hp) as [L U]. unfold ulp.
  assert (-1022 < ilog2 a + 1)%Z as He.
  { apply pow2_lt_inv. apply Qle_lt_trans with (y := a); assumption. }
  rewrite Z.max_l by lia.
  replace (ilog2 a - 52)%Z with (ilog2 a + -52)%Z by lia.
  rewrite pow2_plus. apply Qmult_le_compat_r; [exact L|].
  apply Qlt_le_weak, pow2_pos.
Qed.

Lemma ulp_below (a : Q) (M : Z) :
  0 < a -> a < 2 ^ M -> (-1022 < M)%Z -> ulp a <= 2 ^ (M - 53).
Proof.
  intros Hp Ha HM. destruct (ilog2_spec a Hp) as [L U]. unfold ulp.
  assert (ilog2 a < M)%Z as He.
  { apply pow2_lt_inv. apply Qle_lt_trans with (y := a); assumption. }
  apply pow2_le. lia.
Qed.

Lemma round_positive (a : Q) :
  let v := inject_Z (nearestEven (a / ulp a)) * ulp a in
  0 < a -> v < 2 ^ 1024 -> round a = Finite (Qred v).
Proof.
  cbv zeta. intros Hp Hv. unfold round.
  destruct (Qcompare_spec a 0) as [E|E|E]; [rewrite E in Hp; lra | lra |].
  unfold roundPos.
  destruct (Qle_bool _ _) eqn:Eb; [|reflexivity].
  apply Qle_bool_iff in Eb. exfalso. apply (Qlt_not_le _ _ Hv). exact Eb.
Qed.

Lemma round_negative (a : Q) :
  let v := inject_Z (nearestEven (- a / ulp (- a))) * ulp (- a) in
  a < 0 -> v < 2 ^ 1024 -> round a = Finite (Qred (- Qred v)).
Proof.
  cbv zeta. intros Hp Hv. unfold round.
  destruct (Qcompare_spec a 0) as [E|E|E]; [rewrite E in Hp; lra | | lra].
  unfold roundPos.
  destruct (Qle_bool _ _) eqn:Eb; [|reflexivity].
  apply Qle_bool_iff in Eb. exfalso. apply (Qlt_not_le _ _ Hv). exact Eb.
Qed.

Lemma pow2_half (n : Z) : 2 ^ (n - 1) == 2 ^ n * (1 # 2).
Proof.
  replace (n - 1)%Z with (n + -1)%Z by lia. rewrite pow2_plus. reflexivity.
Qed.

(** Rounding a value of the normal range: the relative error is at most
    [2^-53]. *)
Lemma round_relative (a : Q) :
  2 ^ (-1022) <= a -> a <= 2 ^ 1023 ->
  exists v, round a = Finite v
            /\ a * (1 - eps) <= v /\ v <= a * (1 + eps).
Proof.
  intros Hl Hu.
  assert (0 < a) as Hp.
  { apply Qlt_le_trans with (y := 2 ^ (-1022)); [apply pow2_pos | exact Hl]. }
  pose proof (nearest_multiple a) as [L U]. cbv zeta in L, U.
  pose proof (ulp_normal a Hl) as Hn.
  set (v := inject_Z (nearestEven (a / ulp a)) * ulp a) in *.
  assert (a * 2 ^ (-52) * (1 # 2) == a * eps) as E.
  { unfold eps. rewrite (pow2_half (-52)) . ring. }
  assert (a * (1 - eps) <= v /\ v <= a * (1 + eps)) as [B1 B2].
  { set (t := a * eps) in *. set (d := ulp a) in *. set (k := a * 2 ^ (-52)) in *.
    clearbody v. split.
    - setoid_replace (a * (1 - eps)) with (a - t) by (unfold t; ring). lra.
    - setoid_replace (a * (1 + eps)) with (a + t) by (unfold t; ring). lra. }
  assert (v < 2 ^ 1024) as Hv.
  { apply Qle_lt_trans with (y := a * (1 + eps)); [exact B2|].
    apply Qle_lt_trans with (y := 2 ^ 1023 * (1 + eps)).
    - apply Qmult_le_compat_r; [exact Hu|]. unfold eps.
      pose proof (pow2_pos (-53)). lra.
    - replace 1024%Z with (1023 + 1)%Z by lia. rewrite pow2_plus.
      apply Qmult_lt_l; [apply pow2_pos|]. unfold eps.
      assert (2 ^ (-53) < 1) by reflexivity. change (2 ^ 1) with 2. lra. }
  exists (Qred v). split; [now apply round_positive|].
  rewrite Qred_correct. now split.
Qed.

(** Rounding a value below [2^M] in size: the error is at most
    [2^(M-54)]. *)
Lemma round_absolute (a : Q) (M : Z) :
  (-1022 < M <= 1023)%Z -> - 2 ^ M < a -> a < 2 ^ M ->
  exists v, round a = Finite v
            /\ a - 2 ^ (M - 54) <= v /\ v <= a + 2 ^ (M - 54).
Proof.
  intros HM Hl Hu.
  assert (2 ^ (M - 54) < 2 ^ M /\ 2 ^ M + 2 ^ M == 2 ^ (M + 1)
          /\ 2 ^ (M + 1) <= 2 ^ 1024) as (P1 & P2 & P3).
  { split; [|split].
    - apply Qpower_lt_compat_l; [lia | reflexivity].
    - rewrite pow2_plus. change (2 ^ 1) with 2. ring.
    - apply pow2_le. lia. }
  assert (forall b, 0 < b -> b < 2 ^ M ->
            let v := inject_Z (nearestEven (b / ulp b)) * ulp b in
            b - 2 ^ (M - 54) <= v /\ v <= b + 2 ^ (M - 54)
            /\ v < 2 ^ 1024) as Hpos.
  { intros b Hb0 Hb. cbv zeta.
    pose proof (nearest_multiple b) as [L U]. cbv zeta in L, U.
    pose proof (ulp_below b M Hb0 Hb (proj1 HM)) as Hd.
    replace (M - 53)%Z with (M - 54 + 1)%Z in Hd by lia.
    rewrite pow2_plus in Hd. change (2 ^ 1) with 2 in Hd.
    set (v := inject_Z (nearestEven (b / ulp b)) * ulp b) in *.
    set (d := ulp b) in *. set (t := 2 ^ (M - 54)) in *.
    set (m := 2 ^ M) in *. set (m1 := 2 ^ (M + 1)) in *.
    set (top := 2 ^ 1024) in *. clearbody v d t m m1 top.
    repeat split; lra. }
  destruct (Qcompare_spec a 0) as [E|E|E].
  - exists 0. split.
    + unfold round.
      destruct (Qcompare_spec a 0) as [E'|E'|E']; [reflexivity | lra | lra].
    + pose proof (pow2_pos (M - 54)). rewrite E. lra.
  - assert (0 < - a) as Hn by lra. assert (- a < 2 ^ M) as Hn' by lra.
    destruct (Hpos (- a) Hn Hn') as (B1 & B2 & B3).
    eexists. split; [apply round_negative; assumption|].
    rewrite Qred_correct, Qred_correct. lra.
  - destruct (Hpos a E Hu) as (B1 & B2 & B3).
    eexists. split; [apply round_positive; assumption|].
    rewrite Qred_correct. lra.
Qed.

Lemma Qred_inject_Z (z : Z) : Qred (inject_Z z) = inject_Z z.
Proof.
  unfold Qred, inject_Z.
  pose proof (Z.ggcd_gcd z 1) as Hg.
  pose proof (Z.ggcd_correct_divisors z 1) as Hd.
  destruct (Z.ggcd z 1) as [g [a b]]. simpl in *.
  rewrite Z.gcd_1_r in Hg. subst g. destruct Hd as [Ha Hb].
  assert (a = z) as -> by lia. assert (b = 1%Z) as -> by lia. reflexivity.
Qed.

Lemma nearestEven_comp (x y : Q) : x == y -> nearestEven x = nearestEven y.
Proof.
  intros E. unfold nearestEven. rewrite (Qfloor_comp x y E).
  assert (x - inject_Z (Qfloor y) == y - inject_Z (Qfloor y)) as E'
    by now rewrite E.
  now rewrite (Qcompare_comp _ _ E' (1 # 2) (1 # 2) (Qeq_refl _)).
Qed.

Lemma nearestEven_Z (z : Z) : nearestEven (inject_Z z) = z.
Proof.
  unfold nearestEven. rewrite Qfloor_Z.
  destruct (Qcompare_spec (inject_Z z - inject_Z z) (1 # 2)) as [E|E|E];
    [lra | reflexivity | lra].
Qed.

Lemma nearestEven_floor (x : Q) : (Qfloor x <= nearestEven x)%Z.
Proof.
  unfold nearestEven.
  destruct (Qcompare _ _); [destruct (Z.even _)| |]; lia.
Qed.

(** An integer below [2^53] in size is the number that holds it. *)
Lemma ofZ_exact (z : Z) :
  (0 < z < 2 ^ 53)%Z -> ofZ z = Finite (inject_Z z).
Proof.
  intros [Hz0 Hz]. unfold ofZ. set (a := inject_Z z).
  assert (1 <= a) as Ha1.
  { change 1 with (inject_Z 1). unfold a. rewrite <- Zle_Qle. lia. }
  assert (a < 2 ^ 53) as Ha2.
  { rewrite <- pow2_Z by lia. unfold a. now rewrite <- Zlt_Qlt. }
  assert (0 < a) as Hp by lra.
  destruct (ilog2_spec a Hp) as [L U].
  assert (0 <= ilog2 a < 53)%Z as He.
  { split.
    - assert (0 < ilog2 a + 1)%Z; [|lia]. apply pow2_lt_inv.
      change (2 ^ 0) with 1. lra.
    - apply pow2_lt_inv. lra. }
  assert (ulp a == 2 ^ (ilog2 a - 52)) as Eu.
  { unfold ulp. now rewrite Z.max_l by lia. }
  set (k := (52 - ilog2 a)%Z).
  assert (ulp a * inject_Z (2 ^ k) == 1) as Ek.
  { rewrite Eu, pow2_Z by (unfold k; lia). rewrite <- pow2_plus.
    now replace (ilog2 a - 52 + k)%Z with 0%Z by (unfold k; lia). }
  pose proof (ulp_pos a) as Hu.
  assert (a / ulp a == inject_Z (z * 2 ^ k)) as Ex.
  { rewrite inject_Z_mult. fold a.
    apply Qmult_inj_r with (z := ulp a); [lra|].
    rewrite <- Qmult_assoc, (Qmult_comm (inject_Z (2 ^ k))), Ek. field. lra. }
  rewrite round_positive.
  - f_equal. transitivity (Qred (inject_Z z)); [|apply Qred_inject_Z].
    apply Qred_complete. fold a.
    rewrite (nearestEven_comp _ _ Ex), nearestEven_Z, inject_Z_mult. fold a.
    rewrite <- Qmult_assoc, (Qmult_comm (inject_Z (2 ^ k))), Ek. ring.
  - exact Hp.
  - rewrite (nearestEven_comp _ _ Ex), nearestEven_Z, inject_Z_mult. fold a.
    rewrite <- Qmult_assoc, (Qmult_comm (inject_Z (2 ^ k))), Ek.
    apply Qlt_trans with (y := 2 ^ 53); [lra|].
    apply Qpower_lt_compat_l; [lia | reflexivity].
Qed.

Lemma round_not_NaN (q : Q) : round q <> NaN.
Proof.
  unfold round. destruct (Qcompare q 0); try discriminate;
    destruct (roundPos _); discriminate.
Qed.

(** What a positive exact result rounds to. *)
Lemma round_of_positive (a : Q) :
  0 < a ->
  round a = Infinity false
  \/ exists v, round a = Finite v
               /\ v == inject_Z (nearestEven (a / ulp a)) * ulp a.
Proof.
  intros Hp. unfold round.
  destruct (Qcompare_spec a 0) as [E|E|E]; [rewrite E in Hp; lra | lra |].
  unfold roundPos. destruct (Qle_bool _ _); [now left|].
  right. eexists. split; [reflexivity | apply Qred_correct].
Qed.

Lemma round_lower (a v : Q) :
  2 ^ (-1022) <= a -> round a = Finite v -> a * (1 - eps) <= v.
Proof.
  intros Hl Hr.
  assert (0 < a) as Hp.
  { apply Qlt_le_trans with (y := 2 ^ (-1022)); [apply pow2_pos | exact Hl]. }
  destruct (round_of_positive a Hp) as [H|(v' & H & Hv)];
    rewrite H in Hr; [discriminate|]. injection Hr as <-.
  pose proof (nearest_multiple a) as [L _]. cbv zeta in L.
  pose proof (ulp_normal a Hl) as Hn. rewrite <- Hv in L.
  assert (a * 2 ^ (-52) * (1 # 2) == a * eps) as E.
  { unfold eps. rewrite (pow2_half (-52)). ring. }
  set (t := a * eps) in *. set (d := ulp a) in *.
  set (k := a * 2 ^ (-52)) in *. clearbody d k.
  setoid_replace (a * (1 - eps)) with (a - t) by (unfold t; ring). lra.
Qed.

Lemma round_nonneg (a v : Q) : 0 <= a -> round a = Finite v -> 0 <= v.
Proof.
  intros Ha Hr. destruct (Qle_lt_or_eq _ _ Ha) as [Hp|E].
  - destruct (round_of_positive a Hp) as [H|(v' & H & Hv)];
      rewrite H in Hr; [discriminate|]. injection Hr as <-.
    rewrite Hv. pose proof (ulp_pos a) as Hu.
    apply Qmult_le_0_compat; [|lra].
    change 0 with (inject_Z 0). rewrite <- Zle_Qle.
    apply Z.le_trans with (m := Qfloor (a / ulp a));
      [|apply nearestEven_floor].
    rewrite <- (Qfloor_Z 0). apply Qfloor_resp_le.
    change (inject_Z 0) with 0. apply Qle_shift_div_l; lra.
  - unfold round in Hr.
    destruct (Qcompare_spec a 0) as [E'|E'|E']; [|lra|lra].
    injection Hr as <-. lra.
Qed.

(** Rounding does not go below 20, a binary64 value. *)
Lemma round_above_20 (a v : Q) : 20 <= a -> round a = Finite v -> 20 <= v.
Proof.
  intros Ha Hr. assert (0 < a) as Hp by lra.
  destruct (round_of_positive a Hp) as [H|(v' & H & Hv)];
    rewrite H in Hr; [discriminate|]. injection Hr as <-.
  destruct (ilog2_spec a Hp) as [L U].
  assert (4 <= ilog2 a)%Z as He.
  { assert (4 < ilog2 a + 1)%Z; [|lia]. apply pow2_lt_inv.
    change (2 ^ 4) with 16. lra. }
  assert (ulp a == 2 ^ (ilog2 a - 52)) as Eu.
  { unfold ulp. now rewrite Z.max_l by lia. }
  pose proof (ulp_pos a) as Hu. rewrite Hv.
  destruct (Z.le_gt_cases (ilog2 a) 54) as [Hs|Hb].
  - set (k := (54 - ilog2 a)%Z).
    assert (inject_Z (5 * 2 ^ k) * ulp a == 20) as Ek.
    { rewrite inject_Z_mult, Eu, pow2_Z by (unfold k; lia).
      rewrite <- Qmult_assoc, <- pow2_plus.
      now replace (k + (ilog2 a - 52))%Z with 2%Z by (unfold k; lia). }
    rewrite <- Ek. apply Qmult_le_compat_r; [|lra].
    rewrite <- Zle_Qle.
    apply Z.le_trans with (m := Qfloor (a / ulp a));
      [|apply nearestEven_floor].
    rewrite <- (Qfloor_Z (5 * 2 ^ k)). apply Qfloor_resp_le.
    apply Qle_shift_div_l; [exact Hu|]. now rewrite Ek.
  - pose proof (nearest_multiple a) as [Lm _]. cbv zeta in Lm.
    assert (2 ^ 55 <= 2 ^ ilog2 a) as P by (apply pow2_le; lia).
    assert (ulp a <= a * 2 ^ (-52)) as Hn.
    { apply ulp_normal. apply Qle_trans with (y := 2 ^ 55); [|lra].
      apply pow2_le. lia. }
    assert (2 ^ (-52) <= 1) as P2 by (now apply Qlt_le_weak).
    assert (a * 2 ^ (-52) <= a * 1) as P3 by (apply Qmult_le_l; assumption).
    assert (40 <= 2 ^ 55) as P4 by (now apply Qlt_le_weak).
    set (n := inject_Z (nearestEven (a / ulp a)) * ulp a) in *.
    set (d := ulp a) in *. set (t := a * 2 ^ (-52)) in *.
    set (b := 2 ^ ilog2 a) in *. set (c := 2 ^ 55) in *.
    clearbody n d t b c. lra.
Qed.

(** The quotient of two positive numbers of moderate size. *)
Lemma fdiv_relative (a b : Q) :
  0 < b -> 2 ^ (-1022) <= a / b -> a / b <= 2 ^ 1023 ->
  exists v, (Finite a / Finite b)%dbl = Finite v
            /\ a / b * (1 - eps) <= v /\ v <= a / b * (1 + eps).
Proof.
  intros Hb Hl Hu. unfold fdiv.
  destruct (Qcompare_spec b 0) as [E|E|E]; [rewrite E in Hb; lra | lra |].
  now apply round_relative.
Qed.

Lemma fmul_relative (a b : Q) :
  2 ^ (-1022) <= a * b -> a * b <= 2 ^ 1023 ->
  exists v, (Finite a * Finite b)%dbl = Finite v
            /\ a * b * (1 - eps) <= v /\ v <= a * b * (1 + eps).
Proof. intros Hl Hu. now apply round_relative. Qed.

Lemma fadd_absolute (a b : Q) (M : Z) :
  (-1022 < M <= 1023)%Z -> - 2 ^ M < a + b -> a + b < 2 ^ M ->
  exists v, (Finite a + Finite b)%dbl = Finite v
            /\ a + b - 2 ^ (M - 54) <= v /\ v <= a + b + 2 ^ (M - 54).
Proof. intros HM Hl Hu. now apply round_absolute. Qed.

Lemma fsub_absolute (a b : Q) (M : Z) :
  (-1022 < M <= 1023)%Z -> - 2 ^ M < a - b -> a - b < 2 ^ M ->
  exists v, (Finite a - Finite b)%dbl = Finite v
            /\ a - b - 2 ^ (M - 54) <= v /\ v <= a - b + 2 ^ (M - 54).
Proof.
  intros HM Hl Hu. unfold fsub, fneg, fadd.
  assert (a + Qred (- b) == a - b) as E by (rewrite Qred_correct; ring).
  destruct (round_absolute (a + Qred (- b)) M HM) as (v & Hv & B1 & B2);
    [rewrite E; exact Hl | rewrite E; exact Hu |].
  exists v. rewrite E in B1, B2. now split.
Qed.

Lemma fdiv_absolute (a b : Q) (M : Z) :
  (-1022 < M <= 1023)%Z -> 0 < b -> - 2 ^ M < a / b -> a / b < 2 ^ M ->
  exists v, (Finite a / Finite b)%dbl = Finite v
            /\ a / b - 2 ^ (M - 54) <= v /\ v <= a / b + 2 ^ (M - 54).
Proof.
  intros HM Hb Hl Hu. unfold fdiv.
  destruct (Qcompare_spec b 0) as [E|E|E]; [rewrite E in Hb; lra | lra |].
  now apply round_absolute.
Qed.

Lemma pixels_as_Q (z : Z) :
  (0 < z < 2 ^ 53)%Z -> 1 <= inject_Z z /\ inject_Z z <= 2 ^ 53.
Proof.
  intros [H0 H1]. split.
  - change 1 with (inject_Z 1). rewrite <- Zle_Qle. lia.
  - rewrite <- pow2_Z by lia. rewrite <- Zle_Qle. lia.
Qed.

(** A length divided by a pixel size is a number of the normal range. *)
Lemma ratio_range (len w : Q) :
  1 <= len -> len <= 512 -> 1 <= w -> w <= 2 ^ 53 ->
  2 ^ (-53) <= len / w /\ len / w <= 512
  /\ 2 ^ (-1022) <= len / w /\ len / w <= 2 ^ 1023.
Proof.
  intros L1 L2 W1 W2.
  assert (2 ^ (-53) <= len / w) as A.
  { apply Qle_shift_div_l; [lra|].
    apply Qle_trans with (y := 2 ^ (-53) * 2 ^ 53).
    - apply Qmult_le_l; [apply pow2_pos | exact W2].
    - rewrite <- pow2_plus. change (2 ^ (-53 + 53)) with 1. lra. }
  assert (len / w <= 512) as B.
  { apply Qle_shift_div_r; [lra|]. nra. }
  split; [exact A|]. split; [exact B|]. split.
  - apply Qle_trans with (y := 2 ^ (-53)); [apply pow2_le; lia | exact A].
  - apply Qle_trans with (y := 2 ^ 9); [exact B | apply pow2_le; lia].
Qed.

Lemma eps_small : 0 < eps /\ eps <= 1 # 1000000.
Proof. split; [reflexivity | discriminate]. Qed.

(** A pixel size times a ratio that is at most [bound / size] up to one
    rounding. *)
Lemma scaled_size (w r bound : Q) :
  1 <= w -> w <= 2 ^ 53 -> 2 ^ (-54) <= r -> 1 <= bound -> bound <= 512 ->
  r <= bound / w * (1 + eps) ->
  exists v, (Finite w * Finite r)%dbl = Finite v
            /\ w * r * (1 - eps) <= v /\ v <= w * r * (1 + eps)
            /\ 0 < v /\ v <= bound * (1 + eps) * (1 + eps).
Proof.
  intros W1 W2 R1 B1 B2 R2. destruct eps_small as [E0 E1].
  pose proof (pow2_pos (-54)) as P.
  assert (w * r <= bound * (1 + eps)) as U.
  { apply Qle_trans with (y := w * (bound / w * (1 + eps))).
    - apply Qmult_le_l; [lra | exact R2].
    - apply Qle_lteq. right. field. lra. }
  assert (2 ^ (-54) <= w * r) as L by nra.
  destruct (fmul_relative w r) as (v & Hv & V1 & V2).
  - apply Qle_trans with (y := 2 ^ (-54)); [apply pow2_le; lia | exact L].
  - apply Qle_trans with (y := 2 ^ 10); [|apply pow2_le; lia].
    change (2 ^ 10) with 1024. nra.
  - exists v. split; [exact Hv|]. split; [exact V1|]. split; [exact V2|].
    split; [nra|].
    apply Qle_trans with (y := w * r * (1 + eps)); [exact V2|].
    apply Qmult_le_compat_r; [exact U | lra].
Qed.

Lemma maxWidth_value : (pageWidth - margin * Finite 2)%dbl = Finite 170.
Proof. vm_compute. reflexivity. Qed.

Lemma maxHeight_value : (pageHeight - margin * Finite 2)%dbl = Finite 257.
Proof. vm_compute. reflexivity. Qed.

Lemma two_roundings : (1 + eps) * (1 + eps) <= 1 + (9 # 36028797018963968).
Proof. apply Qle_bool_iff. vm_compute. reflexivity. Qed.

(** Centring an image of width [pw] in the content box. *)
Lemma centred (pw : Q) :
  0 < pw -> pw <= 171 ->
  exists px, (margin + (Finite 170 - Finite pw) / Finite 2)%dbl = Finite px
             /\ - 2 ^ (-45) <= px + pw / 2 - 105 <= 2 ^ (-45).
Proof.
  intros P0 P1.
  destruct (fsub_absolute 170 pw 8) as (t1 & H1 & A1 & B1);
    [lia | change (2 ^ 8) with 256; lra | change (2 ^ 8) with 256; lra |].
  change (2 ^ (8 - 54)) with (1 # 70368744177664) in A1, B1.
  destruct (fdiv_absolute t1 2 7) as (t2 & H2 & A2 & B2);
    [lia | reflexivity
     | change (2 ^ 7) with 128; unfold Qdiv; change (/ 2) with (1 # 2); lra
     | change (2 ^ 7) with 128; unfold Qdiv; change (/ 2) with (1 # 2); lra |].
  change (2 ^ (7 - 54)) with (1 # 140737488355328) in A2, B2.
  unfold Qdiv in A2, B2. change (/ 2) with (1 # 2) in A2, B2.
  destruct (fadd_absolute 20 t2 7) as (px & H3 & A3 & B3);
    [lia | change (2 ^ 7) with 128; lra | change (2 ^ 7) with 128; lra |].
  change (2 ^ (7 - 54)) with (1 # 140737488355328) in A3, B3.
  exists px. split.
  - unfold margin. now rewrite H1, H2.
  - change (2 ^ (-45)) with (1 # 35184372088832).
    unfold Qdiv. change (/ 2) with (1 # 2). split; lra.
Qed.

Lemma bottom_value : (pageHeight - margin)%dbl = Finite 277.
Proof. vm_compute. reflexivity. Qed.

(** The test of the loop against the exact sum: they agree except within
    [2^-45] of the bottom margin. *)
Lemma overflows_exact (c h : Q) :
  0 <= c -> 0 <= h ->
  if overflows (Finite c) (Finite h)
  then 277 - 2 ^ (-45) < c + h
  else c + h <= 277 + 2 ^ (-45).
Proof.
  intros Hc Hh. unfold overflows. rewrite bottom_value. unfold fadd.
  change (2 ^ (-45)) with (1 # 35184372088832).
  destruct (Qlt_le_dec (c + h) 512) as [Hs|Hs].
  - destruct (round_absolute (c + h) 9) as (v & Hv & A & B);
      [lia | change (2 ^ 9) with 512; lra | exact Hs |].
    change (2 ^ (9 - 54)) with (1 # 35184372088832) in A, B.
    rewrite Hv. unfold fgt.
    destruct (Qle_bool v 277) eqn:E; cbn [negb].
    + apply Qle_bool_iff in E. lra.
    + assert (~ v <= 277) as N by (rewrite <- Qle_bool_iff; congruence).
      apply Qnot_le_lt in N. lra.
  - assert (fgt (round (c + h)) (Finite 277) = true) as ->; [|lra].
    destruct (round_of_positive (c + h)) as [H|(v & H & _)]; [lra| |].
    + now rewrite H.
    + pose proof (round_lower (c + h) v) as L.
      assert (2 ^ (-1022) <= c + h) as R.
      { apply Qle_trans with (y := 1); [now apply Qlt_le_weak | lra]. }
      specialize (L R H). rewrite H. unfold fgt.
      destruct (Qle_bool v 277) eqn:E; [|reflexivity].
      apply Qle_bool_iff in E. destruct eps_small as [E0 E1].
      assert ((c + h) * (1 - eps) >= 512 * (1 - eps))
        by (apply Qmult_le_compat_r; lra).
      lra.
Qed.

Lemma fle_margin (y : double) :
  fle margin y = true
  <-> y = Infinity false \/ exists q, y = Finite q /\ 20 <= q.
Proof.
  unfold fle, margin, fgt. destruct y as [|[|]|q]; split;
    try discriminate; try (intros [H|(q' & H & _)]; discriminate H).
  - now left.
  - reflexivity.
  - rewrite negb_involutive. intros H. apply Qle_bool_iff in H.
    right. now exists q.
  - intros [H|(q' & H & Hq)]; [discriminate|]. injection H as <-.
    rewrite negb_involutive. now apply Qle_bool_iff.
Qed.

Lemma fle_zero (y : double) :
  fle (Finite 0) y = true
  <-> y = Infinity false \/ exists q, y = Finite q /\ 0 <= q.
Proof.
  unfold fle, fgt. destruct y as [|[|]|q]; split;
    try discriminate; try (intros [H|(q' & H & _)]; discriminate H).
  - now left.
  - reflexivity.
  - rewrite negb_involutive. intros H. apply Qle_bool_iff in H.
    right. now exists q.
  - intros [H|(q' & H & Hq)]; [discriminate|]. injection H as <-.
    rewrite negb_involutive. now apply Qle_bool_iff.
Qed.

(** The cursor never comes to stand above the top margin. *)
Lemma cursor_stays_below_margin (c h : double) :
  fle margin c = true -> fle (Finite 0) h = true ->
  fle margin (c + (h + gutter))%dbl = true.
Proof.
  intros Hc Hh. apply fle_margin in Hc. apply fle_zero in Hh.
  assert (fle (Finite 0) (h + gutter)%dbl = true) as Ht.
  { apply fle_zero. destruct Hh as [->|(q & -> & Hq)]; [now left|].
    unfold gutter, fadd.
    destruct (round_of_positive (q + 5)) as [H|(v & H & _)]; [lra| |].
    - now left.
    - right. exists v. split; [exact H|].
      apply (round_nonneg (q + 5)); [lra | exact H]. }
  apply fle_zero in Ht. apply fle_margin.
  destruct Hc as [->|(y & -> & Hy)].
  - left. destruct Ht as [->|(t & -> & _)]; reflexivity.
  - destruct Ht as [->|(t & -> & Ht)]; [now left|].
    unfold fadd.
    destruct (round_of_positive (y + t)) as [H|(v & H & _)]; [lra| |].
    + now left.
    + right. exists v. split; [exact H|].
      apply (round_above_20 (y + t)); [lra | exact H].
Qed.

Local Close Scope Q_scope.

(** The operations above give the values of the Standard Library's
    specification of binary64 arithmetic, here on the numbers of the
    examples below. *)
Example binary64_agrees_67 :
  ofSpecFloat
    (SFmul 53 1024 (binary64 67) (SFdiv 53 1024 (binary64 170) (binary64 67)))
  = (ofZ 67 * (Finite 170 / ofZ 67))%dbl.
Proof. vm_compute. reflexivity. Qed.

Example binary64_agrees_347 :
  ofSpecFloat
    (SFadd 53 1024 (binary64 20)
       (SFadd 53 1024
          (SFdiv 53 1024 (SFmul 53 1024 (binary64 347) (binary64 170))
             (binary64 255))
          (binary64 5)))
  = (margin + (ofZ 347 * Finite 170 / ofZ 255 + gutter))%dbl.
Proof. vm_compute. reflexivity. Qed.

(** Ties go to the even neighbour, small quotients are subnormal, large
    products overflow. *)
Example binary64_agrees_edges :
  ofSpecFloat (binary64 (2 ^ 53 + 1)) = ofZ (2 ^ 53 + 1)
  /\ ofSpecFloat (binary64 (2 ^ 53 + 3)) = ofZ (2 ^ 53 + 3)
  /\ ofSpecFloat
       (SFdiv 53 1024 (SFdiv 53 1024 (binary64 1) (binary64 3))
          (binary64 (2 ^ 1023)))
     = (Finite 1 / Finite 3 / ofZ (2 ^ 1023))%dbl
  /\ ofSpecFloat (SFmul 53 1024 (binary64 (2 ^ 1000)) (binary64 (2 ^ 24)))
     = (ofZ (2 ^ 1000) * ofZ (2 ^ 24))%dbl
  /\ ofSpecFloat (SFdiv 53 1024 (binary64 0) (binary64 0))
     = (Finite 0 / Finite 0)%dbl
  /\ ofSpecFloat (SFdiv 53 1024 (binary64 7) (binary64 0))
     = (Finite 7 / Finite 0)%dbl.
Proof. vm_compute. repeat split. Qed.

Example binary64_agrees_centre :
  let w := SFmul 53 1024 (binary64 67)
             (SFdiv 53 1024 (binary64 170) (binary64 67)) in
  ofSpecFloat
    (SFadd 53 1024 (binary64 20)
       (SFdiv 53 1024 (SFsub 53 1024 (binary64 170) w) (binary64 2)))
  = imgX (screenshotPlacement (mkProps 67 50)).
Proof. vm_compute. reflexivity. Qed.

(** ** The pagination loop *)

Lemma onPage_length (n : nat) (f : list Placed -> list Placed)
    (ps : list (list Placed)) :
  length (onPage n f ps) = length ps.
Proof.
  revert n; induction ps as [|p ps IH]; intros n; destruct n; simpl;
    try reflexivity.
  now rewrite IH.
Qed.

Lemma onPage_last (f : list Placed -> list Placed)
    (ps : list (list Placed)) (p : list Placed) :
  onPage (length ps) f (ps ++ [p]) = ps ++ [f p].
Proof. induction ps as [|q ps IH]; simpl; [reflexivity | now rewrite IH]. Qed.

Lemma addImage_pageCount (img : Placed) (pdf : Pdf) :
  pageCount (addImage img pdf) = pageCount pdf.
Proof. apply onPage_length. Qed.

Lemma addImage_new_page (img : Placed) (pdf : Pdf) :
  pages (addImage img (addPage pdf)) = pages pdf ++ [[img]].
Proof.
  unfold addImage, addPage. simpl.
  exact (onPage_last (fun p => p ++ [img]) (pages pdf) []).
Qed.

Lemma placeBlock_fits (pdf : Pdf) (cursorY h : double) :
  fits cursorY h ->
  placeBlock (pdf, cursorY) h
  = (addImage (mkPlaced margin cursorY (pageWidth - margin * Finite 2)%dbl h)
       pdf,
     (cursorY + (h + gutter))%dbl).
Proof. intros H. unfold placeBlock. now rewrite H. Qed.

Lemma placeBlock_breaks (pdf : Pdf) (cursorY h : double) :
  ~ fits cursorY h ->
  placeBlock (pdf, cursorY) h
  = (addImage (mkPlaced margin margin (pageWidth - margin * Finite 2)%dbl h)
       (addPage pdf),
     (margin + (h + gutter))%dbl).
Proof.
  unfold fits, placeBlock. intros H.
  destruct (overflows cursorY h); [reflexivity | congruence].
Qed.

Lemma placeBlock_pageCount (pdf : Pdf) (cursorY h : double) :
  pageCount (fst (placeBlock (pdf, cursorY) h))
  = if overflows cursorY h then S (pageCount pdf) else pageCount pdf.
Proof.
  unfold placeBlock. destruct (overflows cursorY h); simpl fst;
    rewrite addImage_pageCount; [|reflexivity].
  unfold pageCount, addPage. simpl. rewrite length_app. simpl. lia.
Qed.

Lemma paginate_cons (h : double) (hs : list double) (st : Pdf * double) :
  paginate (h :: hs) st = paginate hs (placeBlock st h).
Proof. reflexivity. Qed.

Lemma advance_cons (c h : double) (hs : list double) :
  advance c (h :: hs) = advance (c + (h + gutter))%dbl hs.
Proof. reflexivity. Qed.

Lemma paginate_pageCount (heights : list double) (pdf : Pdf)
    (cursorY : double) :
  pageCount pdf <= pageCount (fst (paginate heights (pdf, cursorY))).
Proof.
  revert pdf cursorY; induction heights as [|h hs IH]; intros pdf c.
  - simpl. lia.
  - rewrite paginate_cons.
    pose proof (placeBlock_pageCount pdf c h) as Hc.
    destruct (placeBlock (pdf, c) h) as [pdf' c'].
    specialize (IH pdf' c'). simpl fst in Hc.
    destruct (overflows c h); lia.
Qed.

Lemma paginate_no_break (heights : list double) (pdf : Pdf)
    (cursorY : double) :
  pageCount (fst (paginate heights (pdf, cursorY))) = pageCount pdf ->
  snd (paginate heights (pdf, cursorY)) = advance cursorY heights.
Proof.
  revert pdf cursorY; induction heights as [|h hs IH]; intros pdf c H.
  - reflexivity.
  - rewrite paginate_cons in *. rewrite advance_cons.
    pose proof (placeBlock_pageCount pdf c h) as Hc.
    destruct (placeBlock (pdf, c) h) as [pdf' c'] eqn:E. simpl fst in Hc.
    pose proof (paginate_pageCount hs pdf' c') as Hmono.
    destruct (overflows c h) eqn:Ho; [lia|].
    rewrite (placeBlock_fits pdf c h Ho) in E. injection E as <- <-.
    apply IH. rewrite H. symmetry. apply addImage_pageCount.
Qed.

Lemma fits_not_greater (cursorY h : double) :
  (cursorY + h)%dbl <> NaN ->
  fits cursorY h <-> fle (cursorY + h)%dbl (pageHeight - margin)%dbl = true.
Proof.
  intros Hn. unfold fits, overflows. rewrite bottom_value.
  destruct (cursorY + h)%dbl as [|s|q]; [congruence| |];
    unfold fle; now rewrite negb_true_iff.
Qed.

(** C3: a block for which the test of the loop is false is placed at
    [cursorY] on the current page and no page is added; a block for which
    it is true makes a new last page and is placed on it at the top margin;
    either way the cursor is then [cursorY + (height + 5)], every sum being
    the rounded sum of JavaScript.  So after a run of blocks that adds no
    page the cursor is the cursor before the run (the margin, on a fresh
    page) advanced by each [height + 5] in turn, and after a run whose first
    block alone breaks the page it is the margin advanced likewise.  The
    test compares the rounded sum [cursorY + height] with 277: it is false
    exactly when that sum is at most 277, and for a cursor and a height that
    are not negative it can differ from the comparison of the exact sum
    only within [2^-45] mm of 277. *)
Theorem pagination_cursor :
  (forall pdf cursorY h,
      fits cursorY h ->
      placeBlock (pdf, cursorY) h
      = (addImage
           (mkPlaced margin cursorY (pageWidth - margin * Finite 2)%dbl h) pdf,
         (cursorY + (h + gutter))%dbl)
      /\ pageCount (fst (placeBlock (pdf, cursorY) h)) = pageCount pdf)
  /\ (forall pdf cursorY h,
      ~ fits cursorY h ->
      placeBlock (pdf, cursorY) h
      = (addImage
           (mkPlaced margin margin (pageWidth - margin * Finite 2)%dbl h)
           (addPage pdf),
         (margin + (h + gutter))%dbl)
      /\ pages (fst (placeBlock (pdf, cursorY) h))
         = pages pdf
           ++ [[mkPlaced margin margin (pageWidth - margin * Finite 2)%dbl h]])
  /\ (forall heights pdf cursorY,
      pageCount (fst (paginate heights (pdf, cursorY))) = pageCount pdf ->
      snd (paginate heights (pdf, cursorY)) = advance cursorY heights)
  /\ (forall h heights pdf cursorY,
      ~ fits cursorY h ->
      pageCount (fst (paginate (h :: heights) (pdf, cursorY)))
      = S (pageCount pdf) ->
      snd (paginate (h :: heights) (pdf, cursorY))
      = advance margin (h :: heights))
  /\ (forall cursorY h,
      (cursorY + h)%dbl <> NaN ->
      fits cursorY h
      <-> fle (cursorY + h)%dbl (pageHeight - margin)%dbl = true)
  /\ (forall y h : Q,
      (0 <= y)%Q -> (0 <= h)%Q ->
      (fits (Finite y) (Finite h) -> (y + h <= 277 + 2 ^ (-45))%Q)
      /\ (~ fits (Finite y) (Finite h) -> (277 - 2 ^ (-45) < y + h)%Q))
  /\ margin = Finite 20 /\ gutter = Finite 5
  /\ (pageHeight - margin)%dbl = Finite 277.
Proof.
  split; [|split; [|split; [|split; [|split; [|split]]]]].
  - intros pdf c h H. rewrite (placeBlock_fits pdf c h H). split; [reflexivity|].
    apply addImage_pageCount.
  - intros pdf c h H. rewrite (placeBlock_breaks pdf c h H).
    split; [reflexivity|]. apply addImage_new_page.
  - apply paginate_no_break.
  - intros h hs pdf c H. rewrite !paginate_cons, (placeBlock_breaks pdf c h H).
    intros Hcount. rewrite advance_cons. apply paginate_no_break.
    rewrite Hcount, addImage_pageCount. unfold pageCount, addPage. simpl.
    rewrite length_app. simpl. lia.
  - apply fits_not_greater.
  - intros y h Hy Hh. pose proof (overflows_exact y h Hy Hh) as H.
    unfold fits. destruct (overflows (Finite y) (Finite h)); split;
      try congruence; intros _; exact H.
  - split; [reflexivity|]. split; [reflexivity | apply bottom_value].
Qed.

Lemma pagination_cursor_witness :
  snd (paginate [Finite 100; Finite 100] (jsPDF, margin))
  = advance margin [Finite 100; Finite 100].
Proof.
  destruct pagination_cursor as (_ & _ & H & _).
  apply (H [Finite 100; Finite 100] jsPDF margin). vm_compute. reflexivity.
Defined.

(** Read with exact sums the claim fails.  One block of 255 x 347 pixels is
    placed without a page break and leaves the cursor at
    256.33333333333337, which is not 20 + (height + 5) for its height
    231.33333333333334.  After a block of 255 x 1 pixels a block of
    255 x 377 pixels stays on the page although the exact sum of the cursor
    and its height is above 277. *)
Lemma pagination_not_exact :
  (let h := scaledHeight (mkProps 255 347) in
   let st := paginate [h] (jsPDF, margin) in
   pageCount (fst st) = 1
   /\ ~ (toQ (snd st) == toQ margin + (toQ h + toQ gutter))%Q)
  /\ (let h1 := scaledHeight (mkProps 255 1) in
      let h2 := scaledHeight (mkProps 255 377) in
      let cursorY := snd (paginate [h1] (jsPDF, margin)) in
      pageCount (fst (paginate [h1; h2] (jsPDF, margin))) = 1
      /\ ~ (toQ cursorY + toQ h2 <= toQ (pageHeight - margin)%dbl)%Q).
Proof.
  split; (split; [vm_compute; reflexivity|]); vm_compute; congruence.
Qed.

(** ** The screenshot page *)

Local Open Scope Q_scope.

(** C10: for pixel sizes below [2^53] the screenshot is scaled in both
    directions by one factor, the rounded [min (170 / width) (257 / height)],
    each product rounded once more; so the placed image keeps its aspect
    ratio and fits the content box of 170 x 257 mm up to two roundings
    (at most a factor [(1 + 2^-53)^2] too large), it is centred within
    [2^-45] mm, lies inside the margin box up to [2^-44] mm, and its top
    edge is at y = 20 exactly. *)
Theorem screenshot_fits_margin_box (props : ImageProps) :
  (0 < width props < 2 ^ 53)%Z -> (0 < height props < 2 ^ 53)%Z ->
  let w := inject_Z (width props) in
  let h := inject_Z (height props) in
  let exact := Qmin (170 / w) (257 / h) in
  exists ratio pw ph px : Q,
    Math_min (Finite 170 / ofZ (width props))%dbl
             (Finite 257 / ofZ (height props))%dbl = Finite ratio
    /\ screenshotPlacement props
       = mkPlaced (Finite px) (Finite 20) (Finite pw) (Finite ph)
    /\ exact * (1 - eps) <= ratio <= exact * (1 + eps)
    /\ w * ratio * (1 - eps) <= pw <= w * ratio * (1 + eps)
    /\ h * ratio * (1 - eps) <= ph <= h * ratio * (1 + eps)
    /\ pw <= 170 * (1 + eps) * (1 + eps)
    /\ ph <= 257 * (1 + eps) * (1 + eps)
    /\ - 2 ^ (-45) <= px + pw / 2 - 105 <= 2 ^ (-45)
    /\ 20 - 2 ^ (-44) <= px /\ px + pw <= 190 + 2 ^ (-44).
Proof.
  intros Hw Hh. cbv zeta.
  destruct (pixels_as_Q _ Hw) as [W1 W2]. destruct (pixels_as_Q _ Hh) as [H1 H2].
  unfold screenshotPlacement.
  rewrite maxWidth_value, maxHeight_value, (ofZ_exact _ Hw), (ofZ_exact _ Hh).
  set (w := inject_Z (width props)) in *.
  set (h := inject_Z (height props)) in *.
  destruct eps_small as [E0 E1].
  destruct (ratio_range 170 w) as (Lw & Uw & Nw & Mw); try lra.
  destruct (ratio_range 257 h) as (Lh & Uh & Nh & Mh); try lra.
  destruct (fdiv_relative 170 w) as (r1 & Hr1 & A1 & B1); try assumption; [lra|].
  destruct (fdiv_relative 257 h) as (r2 & Hr2 & A2 & B2); try assumption; [lra|].
  rewrite Hr1, Hr2.
  set (r := if Qle_bool r1 r2 then r1 else r2).
  assert (Math_min (Finite r1) (Finite r2) = Finite r) as Hmin.
  { unfold Math_min, fgt, r. now destruct (Qle_bool r1 r2). }
  rewrite Hmin.
  assert (r <= r1 /\ r <= r2 /\ (r == r1 \/ r == r2)) as (R1 & R2 & R3).
  { unfold r. destruct (Qle_bool r1 r2) eqn:E.
    - apply Qle_bool_iff in E. split; [lra|]. split; [lra|]. left. reflexivity.
    - assert (~ r1 <= r2) as N by (rewrite <- Qle_bool_iff; congruence).
      apply Qnot_le_lt in N. split; [lra|]. split; [lra|]. right. reflexivity. }
  assert (2 ^ (-54) <= r) as Rlow.
  { assert (2 ^ (-53) * (1 - eps) <= r).
    { pose proof (pow2_pos (-53)).
      destruct R3 as [-> | ->]; [apply Qle_trans with (y := 170 / w * (1 - eps))
                                |apply Qle_trans with (y := 257 / h * (1 - eps))];
        try assumption; apply Qmult_le_compat_r; lra. }
    rewrite (pow2_half (-53)) in *. replace (-53 - 1)%Z with (-54)%Z in * by lia.
    pose proof (pow2_pos (-53)). nra. }
  destruct (scaled_size w r 170) as (pw & Hpw & Pw1 & Pw2 & Pw0 & Pw3);
    try lra. 
  destruct (scaled_size h r 257) as (ph & Hph & Ph1 & Ph2 & Ph0 & Ph3);
    try lra.
  rewrite Hpw, Hph.
  pose proof two_roundings as S2.
  assert (pw <= 170 * ((1 + eps) * (1 + eps))) as Pw4
    by (now rewrite Qmult_assoc).
  set (slack := (1 + eps) * (1 + eps)) in *.
  destruct (centred pw) as (px & Hpx & C1 & C2); [exact Pw0 | lra |].
  rewrite Hpx.
  exists r, pw, ph, px.
  split; [reflexivity|]. split; [reflexivity|].
  split.
  { destruct (Q.min_spec (170 / w) (257 / h)) as [[Hlt ->]|[Hle ->]]; split.
    - destruct R3 as [E|E]; rewrite E; [exact A1|].
      apply Qle_trans with (y := 257 / h * (1 - eps)); [|exact A2].
      apply Qmult_le_compat_r; lra.
    - lra.
    - destruct R3 as [E|E]; rewrite E; [|exact A2].
      apply Qle_trans with (y := 170 / w * (1 - eps)); [|exact A1].
      apply Qmult_le_compat_r; lra.
    - lra. }
  split; [now split|]. split; [now split|].
  split; [exact Pw3|]. split; [exact Ph3|].
  split; [now split|].
  change (2 ^ (-45)) with (1 # 35184372088832) in C1, C2.
  change (2 ^ (-44)) with (1 # 17592186044416).
  unfold Qdiv in C1, C2. change (/ 2) with (1 # 2) in C1, C2.
  split; lra.
Qed.


Lemma screenshot_fits_margin_box_witness :
  exists pw : Q,
    imgW (screenshotPlacement (mkProps 1280 720)) = Finite pw
    /\ pw <= 170 * (1 + eps) * (1 + eps).
Proof.
  destruct (screenshot_fits_margin_box (mkProps 1280 720))
    as (r & pw & ph & px & _ & E & _ & _ & _ & B & _); [now split.. |].
  exists pw. rewrite E. split; [reflexivity | exact B].
Defined.

(** A screenshot of 67 x 50 pixels is placed 170.00000000000003 mm wide
    from x = 19.999999999999986: wider than the content box, and starting
    left of the margin. *)
Lemma screenshot_exceeds_box :
  let p := screenshotPlacement (mkProps 67 50) in
  ~ (toQ (imgW p) <= 170) /\ ~ (toQ margin <= toQ (imgX p)).
Proof. split; vm_compute; congruence. Qed.

(** The two lengths of that placement: one step of [2^-45] above 170, and
    four steps of [2^-48] below 20. *)
Example screenshot_67_50 :
  let p := screenshotPlacement (mkProps 67 50) in
  toQ (imgW p) == 170 + 2 ^ (-45) /\ toQ (imgX p) == 20 - 2 ^ (-46).
Proof. split; vm_compute; reflexivity. Qed.

Local Close Scope Q_scope.

(** On the document of the export the screenshot is the only image of the
    second page, and the first page is current again afterwards. *)
Lemma screenshotPage_second (props : ImageProps) :
  screenshotPage props jsPDF
  = mkPdf [[]; [screenshotPlacement props]] 1.
Proof. reflexivity. Qed.

(** ** The export *)

Lemma handleScreenshot_state (x : Export) (snap : Snapshot) (pdf : Pdf)
    (w : Browser) :
  fst (handleScreenshot x snap pdf w) = w.
Proof.
  unfold handleScreenshot.
  destruct (hasScreenshot snap && includeScreenshot x); [|reflexivity].
  destruct (imgPreview x) as [[props|e]|]; reflexivity.
Qed.

Lemma captureBlock_state (st : Pdf * double) (block : Block) (w : Browser) :
  fst (captureBlock st block w) = w.
Proof.
  unfold captureBlock. destruct (innerTextBlank block); [reflexivity|].
  unfold bind, lift.
  destruct (html2canvas block); [|reflexivity].
  destruct (imageProperties block); reflexivity.
Qed.

Lemma forOf_captureBlock_state (bs : list Block) (st : Pdf * double) (w : Browser) :
  fst (forOf captureBlock bs st w) = w.
Proof.
  revert st; induction bs as [|b bs IH]; intros st; [reflexivity|].
  simpl. unfold bind.
  pose proof (captureBlock_state st b w) as Hb.
  destruct (captureBlock st b w) as [w' [st'|e]]; simpl in Hb; subst w'.
  - apply IH.
  - reflexivity.
Qed.

(** When the [try] block throws, the snapshot node is still a child of the
    body and nothing was saved. *)
Lemma exportBody_throws (x : Export) (snap : Snapshot) (w w' : Browser)
    (e : JsError) :
  exportBody x snap w = (w', Throws e) -> w' = withTemp x w.
Proof.
  unfold exportBody, bind at 1, appendChild, modify.
  fold (withTemp x w). unfold bind at 1.
  pose proof (handleScreenshot_state x snap jsPDF (withTemp x w)) as H1.
  destruct (handleScreenshot _ _ _ _) as [w1 [pdf|e1]]; simpl in H1; subst w1;
    [|intros H; now injection H as <- _].
  unfold bind at 1.
  pose proof (forOf_captureBlock_state (blocks snap) (pdf, margin)
                (withTemp x w)) as H2.
  destruct (forOf _ _ _ _) as [w2 [st|e2]]; simpl in H2; subst w2;
    [|intros H; now injection H as <- _].
  unfold bind, pdfSave, lift, modify, removeChild, bind.
  destruct (save x); intros H; [discriminate H | now injection H as <- _].
Qed.

(** The loop of the export is the pagination loop over the heights of the
    blocks, as long as no block throws. *)
Lemma forOf_captureBlock_paginate (bs : list Block) (st : Pdf * double)
    (w : Browser) :
  Forall rasterizes bs ->
  forOf captureBlock bs st w
  = (w, Returns (paginate (rasterizedHeights bs) st)).
Proof.
  intros H; revert st; induction H as [|b bs Hb _ IH]; intros st;
    [reflexivity|].
  cbn [forOf rasterizedHeights flat_map]. unfold bind at 1, captureBlock.
  destruct (innerTextBlank b) eqn:Eb.
  - unfold ret. rewrite IH. reflexivity.
  - destruct Hb as [Hb|(u & p & Hc & Hp)]; [congruence|].
    unfold bind, lift, ret. rewrite Hc, Hp. rewrite IH.
    unfold paginate. rewrite fold_left_app. reflexivity.
Qed.

(** What [generatePdf] leaves behind when its [try] block returns: one file
    is saved and the snapshot node is detached again. *)
Lemma generatePdf_on_success (x : Export) (snap : Snapshot) (w w' : Browser) :
  printRef x = Some snap ->
  exportBody x snap (started w) = (w', Returns tt) ->
  exists pdf,
    generatePdf x w
    = (mkBrowser (removeNode (temp x) (body w ++ [temp x])) false
                 (downloads w
                  ++ [(lit "UIA_Summary_" ++ dateStr x ++ lit ".pdf", pdf)])
                 (alerts w) (consoleErrors w),
       Returns tt).
Proof.
  intros Hp Hb. unfold generatePdf. rewrite Hp.
  unfold bind at 1, setIsGenerating, modify. fold (started w).
  unfold tryFinally, tryCatch. rewrite Hb.
  revert Hb. unfold exportBody, bind at 1, appendChild, modify.
  fold (withTemp x (started w)). unfold bind at 1.
  pose proof (handleScreenshot_state x snap jsPDF (withTemp x (started w)))
    as H1.
  destruct (handleScreenshot _ _ _ _) as [w1 [pdf|e1]]; simpl in H1; subst w1;
    [|discriminate].
  unfold bind at 1.
  pose proof (forOf_captureBlock_state (blocks snap) (pdf, margin)
                (withTemp x (started w))) as H2.
  destruct (forOf _ _ _ _) as [w2 [st|e2]]; simpl in H2; subst w2;
    [|discriminate].
  unfold bind, pdfSave, lift, modify, removeChild, bind.
  destruct (save x); [|discriminate].
  intros H. injection H as <-. exists (fst st). reflexivity.
Qed.

Lemma removeNode_fresh (n : Node) (l : list Node) :
  ~ In n l -> removeNode n (l ++ [n]) = l.
Proof.
  induction l as [|x l IH]; intros H; simpl.
  - now rewrite N.eqb_refl.
  - destruct (N.eqb x n) eqn:E.
    + apply N.eqb_eq in E. subst. exfalso. apply H. now left.
    + f_equal. apply IH. intros Hin. apply H. now right.
Qed.

(** C4: when a stage of the export throws, that is when the [try] block of
    [generatePdf] throws, [generatePdf] returns with the snapshot node still
    a child of the body: the removal is the last statement of the [try]
    block and is not reached.  No file is saved, the failure is logged and
    alerted, and the in-progress flag is reset. *)
Theorem generatePdf_on_failure (x : Export) (snap : Snapshot) (w w' : Browser)
    (e : JsError) :
  printRef x = Some snap ->
  exportBody x snap (started w) = (w', Throws e) ->
  generatePdf x w
  = (mkBrowser (body w ++ [temp x]) false (downloads w)
               (alerts w ++ [lit "PDF Generation failed"])
               (consoleErrors w ++ [e]),
     Returns tt).
Proof.
  intros Hp Hb. pose proof (exportBody_throws x snap (started w) w' e Hb).
  subst w'. unfold generatePdf. rewrite Hp.
  unfold bind at 1, setIsGenerating, modify. fold (started w).
  unfold tryFinally, tryCatch. rewrite Hb. reflexivity.
Qed.

(** An export whose only block fails to rasterize: the snapshot node (7)
    stays next to the node that was there (1). *)
Lemma generatePdf_failure_keeps_snapshot :
  let failure := mkError (Some (lit "canvas")) None in
  let block := mkBlock false (Throws failure) (Returns (mkProps 794 200)) in
  let x := mkExport (Some (mkSnapshot false [block])) true None 7%N
                    (lit "2026-11-02") (Returns tt) in
  generatePdf x (mkBrowser [1%N] false [] [] [])
  = (mkBrowser [1%N; 7%N] false [] [lit "PDF Generation failed"] [failure],
     Returns tt).
Proof.
  intros failure block x.
  exact (generatePdf_on_failure x (mkSnapshot false [block])
           (mkBrowser [1%N] false [] [] [])
           (mkBrowser [1%N; 7%N] true [] [] []) failure eq_refl eq_refl).
Defined.

(** The same when the screenshot does not decode, and when [pdf.save]
    throws. *)
Example generatePdf_decode_failure :
  let failure := mkError (Some (lit "decode")) None in
  let x := mkExport (Some (mkSnapshot true [])) true (Some (Throws failure))
                    7%N (lit "2026-11-02") (Returns tt) in
  generatePdf x (mkBrowser [1%N] false [] [] [])
  = (mkBrowser [1%N; 7%N] false [] [lit "PDF Generation failed"] [failure],
     Returns tt).
Proof. reflexivity. Qed.

Example generatePdf_save_failure :
  let failure := mkError (Some (lit "save")) None in
  let block := mkBlock false (Returns tt) (Returns (mkProps 794 200)) in
  let x := mkExport (Some (mkSnapshot false [block])) true None 7%N
                    (lit "2026-11-02") (Throws failure) in
  generatePdf x (mkBrowser [1%N] false [] [] [])
  = (mkBrowser [1%N; 7%N] false [] [lit "PDF Generation failed"] [failure],
     Returns tt).
Proof. reflexivity. Qed.

(** A successful export of one block: the file is saved and the snapshot
    node is detached. *)
Example generatePdf_success :
  let block := mkBlock false (Returns tt) (Returns (mkProps 794 200)) in
  let x := mkExport (Some (mkSnapshot false [block])) true None 7%N
                    (lit "2026-11-02") (Returns tt) in
  fst (generatePdf x (mkBrowser [1%N] false [] [] []))
  = mkBrowser [1%N] false
      [(lit "UIA_Summary_2026-11-02.pdf",
        mkPdf [[mkPlaced margin margin (pageWidth - margin * Finite 2)%dbl
                  (scaledHeight (mkProps 794 200))]] 1)]
      [] [].
Proof. reflexivity. Qed.

(** With a fresh snapshot node a successful export leaves the body as it
    was. *)
Lemma generatePdf_success_detaches (x : Export) (snap : Snapshot)
    (w w' : Browser) :
  printRef x = Some snap ->
  exportBody x snap (started w) = (w', Returns tt) ->
  ~ In (temp x) (body w) ->
  body (fst (generatePdf x w)) = body w.
Proof.
  intros Hp Hb Hfresh.
  destruct (generatePdf_on_success x snap w w' Hp Hb) as [pdf ->].
  simpl. now apply removeNode_fresh.
Qed.

(** ** The replacement engine *)

Lemma replaceAll_skip (m : Matcher) (n : nat) (prev : option char) (s : str) :
  n <= length s ->
  replaceAll m n prev s = replaceAll m 0 (prevAfter n prev s) (skipn n s).
Proof.
  revert prev s; induction n as [|n IH]; intros prev s H.
  - destruct s; reflexivity.
  - destruct s as [|c s]; simpl in H; [lia|].
    simpl. apply IH. lia.
Qed.

(** A match: the replacement, then the search resumes after the match. *)
Lemma replaceAll_match (m : Matcher) (prev : option char) (s r : str)
    (n : nat) :
  m prev s = Some (r, n) -> 1 <= n <= length s ->
  replaceAll m 0 prev s
  = r ++ replaceAll m 0 (prevAfter n prev s) (skipn n s).
Proof.
  intros Hm [H1 Hn]. destruct s as [|c s]; simpl in Hn; [lia|].
  cbn [replaceAll]. rewrite Hm. f_equal.
  destruct n as [|n]; [lia|]. simpl pred.
  rewrite replaceAll_skip by lia. reflexivity.
Qed.

(** No match: the code unit is copied. *)
Lemma replaceAll_copy (m : Matcher) (prev : option char) (c : char) (s : str) :
  m prev (c :: s) = None ->
  replaceAll m 0 prev (c :: s) = c :: replaceAll m 0 (Some c) s.
Proof. intros Hm. cbn [replaceAll]. now rewrite Hm. Qed.

(** A property of code units that the replacement texts keep is kept by the
    replacement. *)
Lemma replaceAll_no_match (m : Matcher) (s : str) :
  (forall a b prev, s = a ++ b -> m prev b = None) ->
  forall prev, replaceAll m 0 prev s = s.
Proof.
  induction s as [|c s IH]; intros H prev; [reflexivity|].
  rewrite replaceAll_copy by (apply (H []); reflexivity).
  f_equal. apply IH. intros a b p ->. apply (H (c :: a)). reflexivity.
Qed.

Lemma replaceAll_Forall (P : char -> Prop) (m : Matcher) :
  (forall prev s r n, m prev s = Some (r, n) -> Forall P s -> Forall P r) ->
  forall s skip prev, Forall P s -> Forall P (replaceAll m skip prev s).
Proof.
  intros Hm s; induction s as [|c s IH]; intros skip prev H; [constructor|].
  inversion H as [|? ? Hc Hs]; subst. cbn [replaceAll].
  destruct skip as [|k]; [|now apply IH].
  destruct (m prev (c :: s)) as [[r n]|] eqn:E.
  - apply Forall_app. split; [exact (Hm _ _ _ _ E H) | now apply IH].
  - constructor; [exact Hc | now apply IH].
Qed.

Lemma dropWhile_suffix (f : char -> bool) (s : str) :
  exists a, s = a ++ dropWhile f s.
Proof.
  induction s as [|c s [a IH]]; simpl; [now exists []|].
  destruct (f c); [|now exists []].
  exists (c :: a). simpl. now rewrite <- IH.
Qed.

(** The trimmed string is a part of the string. *)
Lemma trim_infix (s : str) : exists a b, s = a ++ trim s ++ b.
Proof.
  unfold trim, trimEnd, trimStart.
  destruct (dropWhile_suffix isTrimmed s) as [a Ha].
  destruct (dropWhile_suffix isTrimmed (rev (dropWhile isTrimmed s)))
    as [b Hb].
  exists a, (rev b). rewrite Ha at 1. f_equal.
  rewrite <- rev_app_distr, <- Hb, rev_involutive. reflexivity.
Qed.

Lemma trim_Forall (P : char -> Prop) (s : str) :
  Forall P s -> Forall P (trim s).
Proof.
  intros H. destruct (trim_infix s) as (a & b & E). rewrite E in H.
  apply Forall_app in H as [_ H]. now apply Forall_app in H as [H _].
Qed.

Lemma trim_contains (p s : str) : contains p (trim s) -> contains p s.
Proof.
  intros (x & y & E). destruct (trim_infix s) as (a & b & Es).
  exists (a ++ x), (y ++ b). rewrite Es at 1. rewrite E.
  now rewrite <- !app_assoc.
Qed.

(** ** The plain-text conversion: markup characters *)

Lemma removeMarkup_filter (s : str) :
  removeMarkup s = filter (fun c => negb (isMarkup c)) s.
Proof.
  unfold removeMarkup, replace. generalize (@None char).
  induction s as [|c s IH]; intros prev; [reflexivity|].
  cbn [replaceAll markupChar filter]. fold (isMarkup c).
  destruct (isMarkup c); simpl; now rewrite IH.
Qed.

Lemma removeMarkup_clean (s : str) :
  Forall (fun c => isMarkup c = false) (removeMarkup s).
Proof.
  rewrite removeMarkup_filter. apply Forall_forall. intros c Hc.
  apply filter_In in Hc as [_ Hc]. now apply negb_true_iff in Hc.
Qed.

Lemma lazyDot_run_Forall (P : char -> Prop) (k : str -> option nat) (s : str) :
  forall run n, lazyDot k s = Some (run, n) -> Forall P s -> Forall P run.
Proof.
  induction s as [|c s IH]; intros run n H Hs; simpl in H.
  - destruct (k []); [injection H as <- _; constructor | discriminate].
  - destruct (k (c :: s)); [injection H as <- _; constructor|].
    destruct (isLineTerminator c); [discriminate|].
    destruct (lazyDot k s) as [[run' n']|]; [|discriminate].
    injection H as <- _. inversion Hs; subst.
    constructor; [assumption | eapply IH; eauto].
Qed.

Lemma link_keeps (P : char -> Prop) (prev : option char) (s r : str) (n : nat) :
  link prev s = Some (r, n) -> Forall P s -> Forall P r.
Proof.
  unfold link. destruct s as [|c s]; [discriminate|].
  destruct (char_eqb c LBRACK); [|discriminate].
  destruct (lazyDot linkTail s) as [[label n']|] eqn:E; [|discriminate].
  intros H Hs. injection H as <- _. inversion Hs; subst.
  eapply lazyDot_run_Forall; eauto.
Qed.

Lemma countLF_two (s : str) :
  2 <= countLF s -> exists s', s = LF :: LF :: s'.
Proof.
  destruct s as [|a [|b s]]; simpl.
  - lia.
  - destruct (char_eqb a LF); lia.
  - destruct (char_eqb a LF) eqn:Ea; [|lia].
    destruct (char_eqb b LF) eqn:Eb; [|lia].
    apply char_eqb_eq in Ea, Eb. subst. intros _. now exists s.
Qed.

Lemma newlineRun_keeps (P : char -> Prop) (prev : option char) (s r : str)
    (n : nat) :
  newlineRun prev s = Some (r, n) -> Forall P s -> Forall P r.
Proof.
  unfold newlineRun. destruct (2 <=? countLF s) eqn:E; [|discriminate].
  apply Nat.leb_le, countLF_two in E as [s' ->].
  intros H Hs. injection H as <- _.
  inversion Hs as [|? ? H1 H2]; subst. inversion H2; subst.
  repeat constructor; assumption.
Qed.

(** No markup character is left in the plain text. *)
Lemma cleanMarkdown_no_markup (md : str) :
  Forall (fun c => isMarkup c = false) (cleanMarkdown md).
Proof.
  unfold cleanMarkdown. apply trim_Forall.
  unfold collapseNewlines, replace.
  apply replaceAll_Forall; [apply newlineRun_keeps|].
  unfold replaceLinks, replace.
  apply replaceAll_Forall; [apply link_keeps|].
  apply removeMarkup_clean.
Qed.

Lemma isMarkup_spec (c : char) :
  isMarkup c = true <-> c = 42%N \/ c = 96%N \/ c = 62%N.
Proof.
  unfold isMarkup, markup. simpl. rewrite !orb_true_iff.
  unfold char_eqb. rewrite !N.eqb_eq. intuition discriminate.
Qed.

(** ** The plain-text conversion: runs of line feeds *)

Lemma countLF_lineFeeds (n : nat) (b : str) :
  countLF (lineFeeds n ++ b) = n + countLF b.
Proof.
  induction n as [|n IH]; [reflexivity|].
  simpl. rewrite ?char_eqb_refl. now rewrite <- IH.
Qed.

Lemma skipn_lineFeeds (n : nat) (b : str) : skipn n (lineFeeds n ++ b) = b.
Proof. induction n; [reflexivity | assumption]. Qed.

Lemma countLF_length (s : str) : countLF s <= length s.
Proof.
  induction s as [|c s IH]; simpl; [lia|]. destruct (char_eqb c LF); lia.
Qed.

Lemma countLF_skipn (s : str) : countLF (skipn (countLF s) s) = 0.
Proof.
  induction s as [|c s IH]; [reflexivity|]. simpl.
  destruct (char_eqb c LF) eqn:E; [exact IH|]. simpl. now rewrite E.
Qed.

Lemma notEndingWith_tail (c x : char) (s : str) :
  notEndingWith c (x :: s) -> notEndingWith c s.
Proof. intros H s' E. apply (H (x :: s')). now rewrite E. Qed.

Lemma notEndingWith_skipn (c : char) (n : nat) (s : str) :
  notEndingWith c s -> notEndingWith c (skipn n s).
Proof.
  revert s; induction n as [|n IH]; intros s H; [exact H|].
  destruct s as [|x s]; [exact H|]. simpl. apply IH.
  eapply notEndingWith_tail; eauto.
Qed.

Lemma countLF_app (a rest : str) :
  a <> [] -> notEndingWith LF a -> countLF (a ++ rest) = countLF a.
Proof.
  induction a as [|c a IH]; intros Hne H; [congruence|].
  simpl. destruct (char_eqb c LF) eqn:E; [|reflexivity].
  destruct a as [|c' a].
  - apply char_eqb_eq in E; subst c. exfalso. now apply (H []).
  - f_equal. apply IH; [discriminate|]. eapply notEndingWith_tail; eauto.
Qed.

Lemma newlineRun_prev (p p' : option char) (s : str) :
  replaceAll newlineRun 0 p s = replaceAll newlineRun 0 p' s.
Proof. destruct s; reflexivity. Qed.

Lemma newlineRun_some (prev : option char) (s : str) :
  2 <= countLF s -> newlineRun prev s = Some ([LF; LF], countLF s).
Proof.
  intros H. unfold newlineRun. cbv zeta.
  apply Nat.leb_le in H. now rewrite H.
Qed.

Lemma newlineRun_none (prev : option char) (s : str) :
  countLF s < 2 -> newlineRun prev s = None.
Proof.
  intros H. unfold newlineRun. cbv zeta.
  apply Nat.leb_gt in H. now rewrite H.
Qed.

(** The replacement of the runs does not look past a code unit that is not
    a line feed. *)
Lemma collapse_app (a rest : str) :
  notEndingWith LF a ->
  collapseNewlines (a ++ rest) = collapseNewlines a ++ collapseNewlines rest.
Proof.
  unfold collapseNewlines, replace.
  remember (length a) as k eqn:Hk.
  revert a Hk; induction k as [k IH] using lt_wf_ind; intros a Hk H.
  destruct a as [|c a]; [reflexivity|].
  assert (countLF ((c :: a) ++ rest) = countLF (c :: a)) as Hc
    by (apply countLF_app; [discriminate | exact H]).
  pose proof (countLF_length (c :: a)) as Hlen.
  destruct (Nat.le_gt_cases 2 (countLF (c :: a))) as [E|E].
  - rewrite (replaceAll_match newlineRun None ((c :: a) ++ rest) [LF; LF]
               (countLF (c :: a))).
    2:{ rewrite <- Hc. apply newlineRun_some. now rewrite Hc. }
    2:{ rewrite length_app. lia. }
    rewrite (replaceAll_match newlineRun None (c :: a) [LF; LF]
               (countLF (c :: a))).
    2:{ now apply newlineRun_some. }
    2:{ lia. }
    rewrite skipn_app.
    replace (countLF (c :: a) - length (c :: a)) with 0 by lia.
    rewrite skipn_O.
    rewrite (newlineRun_prev _ None), (newlineRun_prev _ None (skipn _ _)).
    rewrite (IH (length (skipn (countLF (c :: a)) (c :: a)))).
    + now rewrite <- app_assoc.
    + rewrite length_skipn. subst k. lia.
    + reflexivity.
    + now apply notEndingWith_skipn.
  - rewrite <- app_comm_cons. rewrite !replaceAll_copy.
    2:{ now apply newlineRun_none. }
    2:{ apply newlineRun_none. rewrite app_comm_cons, Hc. exact E. }
    rewrite (newlineRun_prev _ None), (newlineRun_prev _ None a).
    rewrite (IH (length a)); [reflexivity | subst k; simpl; lia | reflexivity|].
    eapply notEndingWith_tail; eauto.
Qed.

(** A run of two or more line feeds becomes exactly two. *)
Lemma collapse_run (n : nat) (b : str) :
  2 <= n -> countLF b = 0 ->
  collapseNewlines (lineFeeds n ++ b) = LF :: LF :: collapseNewlines b.
Proof.
  intros Hn Hb. unfold collapseNewlines, replace.
  assert (countLF (lineFeeds n ++ b) = n) as Hc
    by (rewrite countLF_lineFeeds; lia).
  rewrite (replaceAll_match newlineRun None (lineFeeds n ++ b) [LF; LF] n).
  - rewrite skipn_lineFeeds, (newlineRun_prev _ None). reflexivity.
  - rewrite <- Hc at 2. apply newlineRun_some. lia.
  - rewrite length_app. unfold lineFeeds. rewrite repeat_length. lia.
Qed.

Lemma collapse_runs_bounded (s : str) :
  runsAtMost2 (collapseNewlines s)
  /\ (countLF s = 0 -> countLF (collapseNewlines s) = 0).
Proof.
  unfold collapseNewlines, replace.
  remember (length s) as k eqn:Hk.
  revert s Hk; induction k as [k IH] using lt_wf_ind; intros s Hk.
  destruct s as [|c s]; [split; [exact I | reflexivity]|].
  pose proof (countLF_length (c :: s)) as Hlen.
  destruct (Nat.le_gt_cases 2 (countLF (c :: s))) as [E|E].
  - rewrite (replaceAll_match newlineRun None (c :: s) [LF; LF]
               (countLF (c :: s)));
      [|now apply newlineRun_some|lia].
    rewrite (newlineRun_prev _ None).
    destruct (IH (length (skipn (countLF (c :: s)) (c :: s))))
      with (s := skipn (countLF (c :: s)) (c :: s)) as [Hr Hz];
      [rewrite length_skipn; subst k; lia | reflexivity|].
    specialize (Hz (countLF_skipn (c :: s))).
    split; [|lia].
    set (o := replaceAll _ _ _ _) in *. clearbody o.
    simpl. rewrite Hz. repeat split; try lia. exact Hr.
  - rewrite replaceAll_copy by (now apply newlineRun_none).
    rewrite (newlineRun_prev _ None).
    destruct (IH (length s)) with (s := s) as [Hr Hz];
      [subst k; simpl; lia | reflexivity|].
    cbn [countLF runsAtMost2] in *.
    destruct (char_eqb c LF) eqn:Ec.
    + assert (countLF s = 0) as H0 by lia. specialize (Hz H0).
      rewrite Hz. repeat split; try lia. exact Hr.
    + repeat split; try lia. exact Hr.
Qed.

Lemma runsAtMost2_no_triple (o : str) :
  runsAtMost2 o -> ~ contains (lineFeeds 3) o.
Proof.
  intros H (a & b & E). subst o.
  induction a as [|c a IH].
  - simpl in H. rewrite ?char_eqb_refl in H. lia.
  - apply IH. simpl in H. tauto.
Qed.

(** The plain text has no run of three line feeds. *)
Lemma cleanMarkdown_no_triple (md : str) :
  ~ contains (lineFeeds 3) (cleanMarkdown md).
Proof.
  intros H. apply trim_contains in H. revert H.
  apply runsAtMost2_no_triple, collapse_runs_bounded.
Qed.

(** ** The plain-text conversion: heading markers *)

Lemma skipn_prefix (q s : str) : skipn (length q) (q ++ s) = s.
Proof. induction q; [reflexivity | assumption]. Qed.

Lemma startsWith_before_terminator (q l : str) (t : char) (rest : str) :
  oneLine q -> isLineTerminator t = true ->
  startsWith q (l ++ t :: rest) = startsWith q l.
Proof.
  intros Hq Ht. revert l.
  induction Hq as [|x q Hx _ IH]; intros l; [reflexivity|].
  destruct l as [|c l]; simpl.
  - destruct (char_eqb x t) eqn:E; [|reflexivity].
    apply char_eqb_eq in E. congruence.
  - now rewrite IH.
Qed.

Section LineStartMarker.

Variable p : str.
Hypothesis p_not_empty : p <> [].
Hypothesis p_oneLine : oneLine p.

Local Abbreviation m := (lineStartMarker p).

Lemma marker_inside (prev : option char) (s : str) :
  atLineStart prev = false -> m prev s = None.
Proof. intros H. unfold lineStartMarker. now rewrite H. Qed.

(** Away from a line start the text is copied up to the next line
    terminator, which is copied as well. *)
Lemma marker_copy (l : str) (prev : option char) (t : char) (rest : str) :
  atLineStart prev = false -> oneLine l ->
  replaceAll m 0 prev (l ++ t :: rest)
  = l ++ t :: replaceAll m 0 (Some t) rest.
Proof.
  revert prev; induction l as [|c l IH]; intros prev Hp Hl.
  - simpl app. now rewrite replaceAll_copy by now apply marker_inside.
  - inversion Hl; subst. cbn [app].
    rewrite replaceAll_copy by now apply marker_inside.
    f_equal. now apply IH.
Qed.

Lemma marker_copy_end (l : str) (prev : option char) :
  atLineStart prev = false -> oneLine l -> replaceAll m 0 prev l = l.
Proof.
  revert prev; induction l as [|c l IH]; intros prev Hp Hl; [reflexivity|].
  inversion Hl; subst.
  rewrite replaceAll_copy by now apply marker_inside.
  f_equal. now apply IH.
Qed.

Lemma startsWith_line (l : str) (t : char) (rest : str) :
  isLineTerminator t = true ->
  startsWith p (l ++ t :: rest) = startsWith p l.
Proof. intros Ht. now apply startsWith_before_terminator. Qed.

Lemma atLineStart_after (q : str) (prev : option char) (s : str) :
  q <> [] -> oneLine q ->
  atLineStart (prevAfter (length q) prev (q ++ s)) = false.
Proof.
  revert prev; induction q as [|x q IH]; intros prev Hne Hq; [congruence|].
  inversion Hq; subst. destruct q as [|y q].
  - simpl. destruct s; assumption.
  - simpl. apply (IH (Some x)); [discriminate | assumption].
Qed.

Lemma marker_prev (t : char) (s : str) :
  isLineTerminator t = true ->
  replaceAll m 0 (Some t) s = replaceAll m 0 None s.
Proof.
  intros Ht. destruct s; [reflexivity|].
  cbn [replaceAll]. unfold lineStartMarker. cbn [atLineStart].
  now rewrite Ht.
Qed.

(** At a line start the marker, when the line begins with it, is dropped;
    the rest of the line is copied. *)
Lemma marker_line (l : str) (t : char) (rest : str) :
  oneLine l -> isLineTerminator t = true ->
  replace m (l ++ t :: rest) = stripLine p l ++ t :: replace m rest.
Proof.
  intros Hl Ht. unfold replace, stripLine.
  rewrite <- (marker_prev t rest Ht).
  destruct (startsWith p l) eqn:E.
  - apply startsWith_spec in E as [l' ->].
    apply Forall_app in Hl as [_ Hl'].
    rewrite (replaceAll_match m None ((p ++ l') ++ t :: rest) []
               (length p)).
    + rewrite <- app_assoc, !skipn_prefix. simpl app.
      apply marker_copy; [|assumption].
      now apply atLineStart_after.
    + unfold lineStartMarker. simpl atLineStart.
      now rewrite <- app_assoc, startsWith_app.
    + rewrite !length_app. destruct p; [congruence | simpl; lia].
  - destruct l as [|c l].
    + simpl app. rewrite replaceAll_copy; [reflexivity|].
      unfold lineStartMarker. simpl atLineStart.
      change (t :: rest) with ([] ++ t :: rest).
      now rewrite (startsWith_line [] t rest Ht), E.
    + inversion Hl; subst. cbn [app].
      rewrite replaceAll_copy.
      * f_equal. now apply marker_copy.
      * unfold lineStartMarker. simpl atLineStart.
        now rewrite app_comm_cons, (startsWith_line _ t rest Ht), E.
Qed.

(** The same on the last line of the text. *)
Lemma marker_last_line (l : str) :
  oneLine l -> replace m l = stripLine p l.
Proof.
  intros Hl. unfold replace, stripLine.
  destruct (startsWith p l) eqn:E.
  - apply startsWith_spec in E as [l' ->].
    apply Forall_app in Hl as [_ Hl'].
    rewrite (replaceAll_match m None (p ++ l') [] (length p)).
    + rewrite !skipn_prefix. simpl app.
      apply marker_copy_end; [|assumption].
      now apply atLineStart_after.
    + unfold lineStartMarker. simpl atLineStart.
      now rewrite startsWith_app.
    + rewrite !length_app. destruct p; [congruence | simpl; lia].
  - destruct l as [|c l]; [reflexivity|].
    inversion Hl; subst. rewrite replaceAll_copy.
    + f_equal. now apply marker_copy_end.
    + unfold lineStartMarker. simpl atLineStart. now rewrite E.
Qed.

End LineStartMarker.

(** ** The plain-text conversion: links *)

(** [.*?] stops at the first place where the continuation matches. *)
Lemma lazyDot_shortest (k : str -> option nat) (run s : str) (n : nat) :
  oneLine run ->
  (forall a b, run = a ++ b -> b <> [] -> k (b ++ s) = None) ->
  k s = Some n ->
  lazyDot k (run ++ s) = Some (run, length run + n).
Proof.
  intros Hrun; induction Hrun as [|c run Hc _ IH]; intros Hk Hs.
  - destruct s; simpl; now rewrite Hs.
  - assert (k (c :: run ++ s) = None) as H0
      by (apply (Hk [] (c :: run) eq_refl); discriminate).
    cbn [app lazyDot]. rewrite H0, Hc, IH; [reflexivity | | exact Hs].
    intros a b E Hb. apply (Hk (c :: a) b); [now rewrite E | exact Hb].
Qed.

Lemma closeParen_inside (b s : str) :
  without RPAREN b -> b <> [] -> closeParen (b ++ s) = None.
Proof.
  intros Hb Hne. destruct b as [|c b]; [congruence|].
  inversion Hb; subst. simpl.
  destruct (char_eqb c RPAREN) eqn:E; [|reflexivity].
  apply char_eqb_eq in E. congruence.
Qed.

Lemma linkTail_inside (b s : str) :
  without RBRACK b -> b <> [] -> linkTail (b ++ s) = None.
Proof.
  intros Hb Hne. destruct b as [|c b]; [congruence|].
  inversion Hb; subst. cbn [app linkTail].
  destruct (b ++ s); [reflexivity|].
  destruct (char_eqb c RBRACK) eqn:E; [|reflexivity].
  apply char_eqb_eq in E. congruence.
Qed.

Lemma without_suffix (c : char) (a b : str) :
  without c (a ++ b) -> without c b.
Proof. intros H. now apply Forall_app in H. Qed.

Lemma link_matches (prev : option char) (label url post : str) :
  oneLine label -> without RBRACK label ->
  oneLine url -> without RPAREN url ->
  link prev (LBRACK :: label ++ RBRACK :: LPAREN :: url ++ RPAREN :: post)
  = Some (label, S (length label + (2 + (length url + 1)))).
Proof.
  intros Hl1 Hl2 Hu1 Hu2. unfold link. rewrite char_eqb_refl.
  rewrite (lazyDot_shortest linkTail label _ (2 + (length url + 1)));
    [reflexivity | exact Hl1 | |].
  - intros a b E Hb. apply linkTail_inside; [|exact Hb].
    rewrite E in Hl2. eapply without_suffix; eauto.
  - cbn [linkTail]. rewrite !char_eqb_refl. cbn [andb].
    rewrite (lazyDot_shortest closeParen url _ 1);
      [reflexivity | exact Hu1 | | reflexivity].
    intros a b E Hb. apply closeParen_inside; [|exact Hb].
    rewrite E in Hu2. eapply without_suffix; eauto.
Qed.

Lemma link_prev (p p' : option char) (s : str) :
  replaceAll link 0 p s = replaceAll link 0 p' s.
Proof. destruct s; reflexivity. Qed.

Lemma link_copy (pre s : str) :
  without LBRACK pre -> replaceLinks (pre ++ s) = pre ++ replaceLinks s.
Proof.
  unfold replaceLinks, replace. intros H.
  induction H as [|c pre Hc _ IH]; [reflexivity|].
  cbn [app]. rewrite replaceAll_copy.
  - f_equal. now rewrite (link_prev _ None).
  - unfold link. destruct (char_eqb c LBRACK) eqn:E; [|reflexivity].
    apply char_eqb_eq in E. congruence.
Qed.

(** A link [[label](url)] is replaced by its label. *)
Lemma replaceLinks_link (pre label url post : str) :
  without LBRACK pre ->
  oneLine label -> without RBRACK label ->
  oneLine url -> without RPAREN url ->
  replaceLinks
    (pre ++ LBRACK :: label ++ RBRACK :: LPAREN :: url ++ RPAREN :: post)
  = pre ++ label ++ replaceLinks post.
Proof.
  intros Hpre Hl1 Hl2 Hu1 Hu2. rewrite (link_copy _ _ Hpre). f_equal.
  unfold replaceLinks, replace.
  rewrite (replaceAll_match link None _ label
             (S (length label + (2 + (length url + 1))))).
  - f_equal. rewrite (link_prev _ None). f_equal.
    set (whole := LBRACK :: label ++ RBRACK :: LPAREN :: url ++ [RPAREN]).
    assert (LBRACK :: label ++ RBRACK :: LPAREN :: url ++ RPAREN :: post
            = whole ++ post) as ->.
    { unfold whole. simpl. rewrite <- app_assoc. simpl.
      rewrite <- app_assoc. reflexivity. }
    assert (S (length label + (2 + (length url + 1))) = length whole) as ->.
    { unfold whole. simpl. rewrite length_app. simpl. rewrite length_app.
      simpl. lia. }
    apply skipn_prefix.
  - now apply link_matches.
  - cbn [length]. rewrite length_app. cbn [length].
    rewrite length_app. cbn [length]. lia.
Qed.

(** ** The plain-text conversion *)

Lemma marker_facts :
  forall strip p,
    In (strip, p)
       [(stripH3, lit "### "); (stripH2, lit "## "); (stripH1, lit "# ")] ->
    strip = replace (lineStartMarker p) /\ p <> [] /\ oneLine p.
Proof.
  intros strip p [H|[H|[H|[]]]]; injection H as <- <-;
    (split; [reflexivity | split; [discriminate | repeat constructor]]).
Qed.

Lemma stripLine_Forall (P : char -> Prop) (p l : str) :
  Forall P l -> Forall P (stripLine p l).
Proof.
  intros H. unfold stripLine. destruct (startsWith p l); [|exact H].
  rewrite Forall_forall in *. intros c Hc. apply H.
  rewrite <- (firstn_skipn (length p) l). apply in_or_app. now right.
Qed.

Lemma stripLine_oneLine (p l : str) : oneLine l -> oneLine (stripLine p l).
Proof. apply stripLine_Forall. Qed.

Lemma stripHeadings_last_line (l : str) :
  oneLine l -> stripHeadings l = stripMarkers l.
Proof.
  intros Hl. unfold stripHeadings, stripMarkers, stripH1, stripH2, stripH3.
  rewrite (marker_last_line (lit "### ")) by
    (try discriminate; try (repeat constructor); exact Hl).
  rewrite (marker_last_line (lit "## ")) by
    (try discriminate; try (repeat constructor);
     now apply stripLine_oneLine).
  rewrite (marker_last_line (lit "# ")) by
    (try discriminate; try (repeat constructor);
     now apply stripLine_oneLine, stripLine_oneLine).
  reflexivity.
Qed.

Lemma stripHeadings_line (l : str) (t : char) (rest : str) :
  oneLine l -> isLineTerminator t = true ->
  stripHeadings (l ++ t :: rest) = stripMarkers l ++ t :: stripHeadings rest.
Proof.
  intros Hl Ht. unfold stripHeadings, stripMarkers, stripH1, stripH2, stripH3.
  rewrite (marker_line (lit "### ")) by
    (try discriminate; try (repeat constructor); assumption).
  rewrite (marker_line (lit "## ")) by
    (try discriminate; try (repeat constructor); try assumption;
     now apply stripLine_oneLine).
  rewrite (marker_line (lit "# ")) by
    (try discriminate; try (repeat constructor); try assumption;
     now apply stripLine_oneLine, stripLine_oneLine).
  reflexivity.
Qed.

(** The plain text of one line without '*', '`', '>' and '[': the line
    without its stacked markers, trimmed. *)
Lemma cleanMarkdown_one_line (l : str) :
  oneLine l -> Forall (fun c => isMarkup c = false) l -> without LBRACK l ->
  cleanMarkdown l = trim (stripMarkers l).
Proof.
  intros Hl Hm Hb. unfold cleanMarkdown. fold (stripHeadings l).
  rewrite (stripHeadings_last_line l Hl).
  assert (oneLine (stripMarkers l)) as Hl'
    by (unfold stripMarkers; now repeat apply stripLine_Forall).
  assert (Forall (fun c => isMarkup c = false) (stripMarkers l)) as Hm'
    by (unfold stripMarkers; now repeat apply stripLine_Forall).
  assert (without LBRACK (stripMarkers l)) as Hb'
    by (unfold stripMarkers; now repeat apply stripLine_Forall).
  set (m := stripMarkers l) in *.
  assert (removeMarkup m = m) as ->.
  { rewrite removeMarkup_filter. apply forallb_filter_id.
    apply forallb_forall. intros c Hc.
    rewrite Forall_forall in Hm'. now rewrite (Hm' c Hc). }
  assert (replaceLinks m = m) as ->.
  { rewrite <- (app_nil_r m) at 1. rewrite (link_copy m [] Hb').
    apply app_nil_r. }
  assert (collapseNewlines m = m) as ->; [|reflexivity].
  apply replaceAll_no_match. intros a b prev E.
  apply newlineRun_none.
  destruct b as [|c b]; [simpl; lia|].
  unfold oneLine in Hl'. rewrite E in Hl'.
  apply Forall_app in Hl' as [_ Hl']. inversion Hl' as [|? ? Hc _]; subst.
  simpl. destruct (char_eqb c LF) eqn:Ec; [|lia].
  apply char_eqb_eq in Ec. subst c. discriminate Hc.
Qed.




Example clean_demo :
  cleanMarkdown (lit "### Title" ++ LF :: lit "a *b* `c` > d [x](http://y) e"
                 ++ LF :: LF :: LF :: lit "# end  ")
  = lit "Title" ++ LF :: lit "a b c  d x e" ++ LF :: LF :: lit "end".
Proof. vm_compute. reflexivity. Qed.

(* ================================================================== *)
(** * Part III: further properties of the code                         *)
(* ================================================================== *)

(** ** The model fallback and the chat *)

Lemma orDefault_not_empty (v : option str) (d : str) :
  d <> [] -> orDefault v d <> [].
Proof. intros Hd. destruct v as [[|c s]|]; simpl; congruence. Qed.

(** X1: whatever the service answers, [runUniversalInterface] sends no
    request, one request to the higher model, or that one and then one to
    the lesser model; a text it returns is never empty, and an error it
    throws always has a non-empty message and no status. *)
Theorem runUniversalInterface_answers (sv : Service) (sent0 : list Model) :
  let sent := fst (runUniversalInterface sv sent0) in
  let answer := snd (runUniversalInterface sv sent0) in
  (sent = sent0
   \/ sent = sent0 ++ [gemini_3_pro_preview]
   \/ sent = (sent0 ++ [gemini_3_pro_preview]) ++ [gemini_2_0_flash_exp])
  /\ match answer with
     | Returns text => text <> []
     | Throws e => (exists m, message e = Some m /\ m <> []) /\ status e = None
     end.
Proof.
  cbv zeta.
  unfold runUniversalInterface, tryCatch, bind, lift, request, ret, throw.
  assert (forall v, orDefault v noResponse <> []) as Hn
    by (intros v; apply orDefault_not_empty; discriminate).
  assert (forall v, exists m, Some (orDefault v unableToProcess) = Some m
                              /\ m <> []) as He.
  { intros v. eexists. split; [reflexivity|].
    apply orDefault_not_empty. discriminate. }
  destruct (fileToBase64 sv) as [b|e]; simpl; [|now auto].
  destruct (generateContent sv gemini_3_pro_preview) as [t|e]; simpl;
    [now auto|].
  destruct (isNotFound e); simpl; [|now auto].
  destruct (generateContent sv gemini_2_0_flash_exp) as [t|e']; simpl;
    now auto.
Qed.

(** X2: [runFollowUpChat] never returns an empty text, and whatever fails,
    the error it throws is the fixed "Unable to process chat message.": the
    message of the failure is not passed on. *)
Theorem runFollowUpChat_answers (cs : ChatService) :
  fst (runFollowUpChat cs tt) = tt
  /\ match snd (runFollowUpChat cs tt) with
     | Returns text =>
         text <> []
         /\ exists v, sendMessage cs = Returns v
                      /\ text = orDefault v couldNotGenerate
     | Throws e =>
         e = mkError (Some unableToChat) None
         /\ ((exists e', chatsCreate cs = Throws e')
             \/ (exists e', sendMessage cs = Throws e'))
     end.
Proof.
  unfold runFollowUpChat, tryCatch, bind, lift, ret, throw.
  destruct (chatsCreate cs) as [u|e]; simpl; [|split; eauto].
  destruct (sendMessage cs) as [v|e]; simpl; [|split; eauto].
  split; [reflexivity|]. split; [|eauto].
  apply orDefault_not_empty. discriminate.
Qed.

(** ** Reading the image *)

Lemma split_pieces (sep : char) (s : str) :
  Forall (without sep) (split sep s).
Proof.
  induction s as [|c s IH]; simpl; [repeat constructor|].
  destruct (char_eqb c sep) eqn:E.
  - constructor; [constructor | exact IH].
  - destruct (split sep s) as [|l ls]; [repeat constructor|].
    + intros ->. now rewrite char_eqb_refl in E.
    + inversion IH; subst. constructor; [|assumption].
      constructor; [|assumption].
      intros ->. now rewrite char_eqb_refl in E.
Qed.

Lemma split_without (sep : char) (s : str) :
  without sep s -> split sep s = [s].
Proof.
  intros H; induction H as [|c s Hc _ IH]; [reflexivity|].
  simpl. rewrite IH.
  destruct (char_eqb c sep) eqn:E; [|reflexivity].
  apply char_eqb_eq in E. congruence.
Qed.

Lemma split_app_sep (sep : char) (a b : str) :
  without sep a -> split sep (a ++ sep :: b) = a :: split sep b.
Proof.
  intros H; induction H as [|c a Hc _ IH].
  - simpl. now rewrite char_eqb_refl.
  - cbn [app split]. rewrite IH.
    destruct (char_eqb c sep) eqn:E; [|reflexivity].
    apply char_eqb_eq in E. congruence.
Qed.

(** X3: for a file read as [data:<type>;base64,<payload>], with no comma in
    the type or the payload, [fileToBase64] answers the payload, and the
    preview URL the export dialog builds from it is the data URL again. *)
Theorem preview_round_trip (file : File) (payload : str) :
  readAsDataURL file
  = Returns (lit "data:" ++ fileType file ++ lit ";base64," ++ payload) ->
  without COMMA (fileType file) ->
  without COMMA payload ->
  fileToBase64_of file = Returns (Some payload)
  /\ loadPreview (Some file) None
     = Some (lit "data:" ++ fileType file ++ lit ";base64," ++ payload).
Proof.
  intros Hread Ht Hp.
  assert (fileToBase64_of file = Returns (Some payload)) as Hb.
  { unfold fileToBase64_of. rewrite Hread. f_equal.
    replace (lit "data:" ++ fileType file ++ lit ";base64," ++ payload)
      with ((lit "data:" ++ fileType file ++ lit ";base64")
            ++ COMMA :: payload)
      by (rewrite <- !app_assoc; reflexivity).
    rewrite split_app_sep, (split_without COMMA payload Hp); [reflexivity|].
    apply Forall_app. split; [repeat constructor; discriminate|].
    apply Forall_app. split; [exact Ht | repeat constructor; discriminate]. }
  split; [exact Hb|].
  unfold loadPreview. rewrite Hb. reflexivity.
Qed.

Lemma preview_round_trip_witness :
  let file := mkFile (lit "image/png")
                (Returns (lit "data:image/png;base64,aGk=")) in
  fileToBase64_of file = Returns (Some (lit "aGk="))
  /\ loadPreview (Some file) None = Some (lit "data:image/png;base64,aGk=").
Proof.
  intros file.
  apply (preview_round_trip file (lit "aGk=")).
  - reflexivity.
  - repeat constructor; discriminate.
  - repeat constructor; discriminate.
Defined.

Lemma split_single (sep : char) (s : str) :
  nth_error (split sep s) 1 = None -> without sep s.
Proof.
  induction s as [|c s IH]; intros H; [constructor|].
  pose proof (split_not_nil sep s) as Hne.
  simpl in H. destruct (char_eqb c sep) eqn:E.
  - destruct (split sep s); [congruence | discriminate H].
  - constructor.
    + intros ->. now rewrite char_eqb_refl in E.
    + apply IH. destruct (split sep s) as [|l [|l' ls]];
        [congruence | reflexivity | discriminate H].
Qed.

(** X4: a text [fileToBase64] answers never holds a comma, whatever the
    reader gave; and it answers [undefined] exactly when the reader's text
    has no comma at all. *)
Theorem fileToBase64_no_comma (file : File) :
  (forall b, fileToBase64_of file = Returns (Some b) -> without COMMA b)
  /\ (forall dataUrl, readAsDataURL file = Returns dataUrl ->
       (fileToBase64_of file = Returns None <-> without COMMA dataUrl)).
Proof.
  unfold fileToBase64_of. split.
  - intros b. destruct (readAsDataURL file) as [dataUrl|e]; [|discriminate].
    intros H.
    assert (nth_error (split COMMA dataUrl) 1 = Some b) as Hn
      by (now injection H).
    apply nth_error_In in Hn.
    pose proof (split_pieces COMMA dataUrl) as Hs.
    rewrite Forall_forall in Hs. now apply Hs.
  - intros dataUrl ->. split.
    + intros H. apply split_single. now injection H.
    + intros H. rewrite (split_without COMMA dataUrl H). reflexivity.
Qed.

Lemma fileToBase64_no_comma_witness :
  without COMMA (lit "aGk=").
Proof.
  destruct (fileToBase64_no_comma
              (mkFile (lit "image/png")
                 (Returns (lit "data:image/png;base64,aGk=,x")))) as [H _].
  apply H. reflexivity.
Defined.

(** ** The history store, further *)

(** X5: after [saveToHistory] the history holds an entry with that task and
    that result, whether it was added now or was there before. *)
Theorem saveToHistory_then_found (now1 now2 : N) (newResult taskPrompt : str)
    (st : HistoryStore) :
  hasEntry taskPrompt newResult
    (history (saveToHistory now1 now2 newResult taskPrompt st)).
Proof.
  unfold saveToHistory.
  destruct (existsb _ _) eqn:E.
  - now apply hasEntry_existsb.
  - cbn [history]. rewrite firstn_cons.
    eexists. split; [now left|]. split; reflexivity.
Qed.

Lemma firstn_incl {A} (n : nat) (l : list A) : incl (firstn n l) l.
Proof.
  revert n; induction l as [|y l IH]; intros [|n] x H; simpl in *;
    try contradiction.
  destruct H as [H|H]; [now left | right; now apply (IH n)].
Qed.

Lemma NoDup_firstn {A} (n : nat) (l : list A) : NoDup l -> NoDup (firstn n l).
Proof.
  intros H; revert n; induction H as [|x l Hx _ IH]; intros [|n]; simpl;
    try constructor; [|apply IH].
  intros Hin. apply Hx. now apply firstn_incl in Hin.
Qed.

Lemma filter_keeps_distinct_keys {V K} (keep : V -> bool) (key : V -> K)
    (items : list V) :
  NoDup (map key items) -> NoDup (map key (filter keep items)).
Proof.
  intros H. induction items as [|v items IH]; simpl in *; [constructor|].
  inversion H as [|? ? Hv Hrest]; subst.
  destruct (keep v); simpl; [|now apply IH].
  constructor; [|now apply IH].
  intros Hin. apply Hv. apply in_map_iff in Hin as (y & Hy & Hin).
  apply in_map_iff. exists y. split; [exact Hy|].
  now apply filter_In in Hin.
Qed.

Lemma historyStep_no_duplicates (st : HistoryStore) (e : HistoryEvent) :
  NoDup (map entryKey (history st)) ->
  NoDup (map entryKey (history (historyStep st e))).
Proof.
  intros H. destruct e as [n1 n2 r t|c|i]; simpl.
  - unfold saveToHistory. destruct (existsb _ _) eqn:E; [exact H|].
    cbn [history]. rewrite <- firstn_map. apply NoDup_firstn.
    simpl. constructor; [|exact H].
    intros Hin. apply in_map_iff in Hin as (h & Hk & Hin).
    assert (existsb (sameEntry t r) (history st) = true) as Ht.
    { apply hasEntry_existsb. exists h. unfold entryKey in Hk.
      injection Hk as Ht Hr. auto. }
    congruence.
  - unfold clearHistory. destruct c; [constructor | exact H].
  - now apply filter_keeps_distinct_keys.
Qed.

(** X6: whatever is saved, deleted or cleared, starting from the empty
    store, no two entries of the history have the same task and the same
    result. *)
Theorem history_no_duplicates (events : list HistoryEvent) :
  NoDup (map entryKey (history (fold_left historyStep events emptyStore))).
Proof.
  assert (forall st, NoDup (map entryKey (history st)) ->
            NoDup (map entryKey
                     (history (fold_left historyStep events st)))) as H.
  { induction events as [|e events IH]; intros st Hst; [exact Hst|].
    simpl. apply IH. now apply historyStep_no_duplicates. }
  apply H. constructor.
Qed.

Lemma historyStep_synced (st : HistoryStore) (e : HistoryEvent) :
  history (loadHistory (restart st)) = history st ->
  history (loadHistory (restart (historyStep st e))) = history (historyStep st e).
Proof.
  intros H. destruct e as [n1 n2 r t|c|i]; simpl.
  - unfold saveToHistory. destruct (existsb _ _); [exact H | reflexivity].
  - unfold clearHistory. destruct c; [reflexivity | exact H].
  - reflexivity.
Qed.

(** X7: the persisted copy follows the history: after any saves, deletions
    and clearings, a new session that starts with an empty list and loads
    what [localStorage] holds shows the same history again. *)
Theorem history_survives_restart (events : list HistoryEvent) :
  let st := fold_left historyStep events emptyStore in
  history (loadHistory (restart st)) = history st.
Proof.
  cbv zeta.
  assert (forall st, history (loadHistory (restart st)) = history st ->
            history (loadHistory (restart (fold_left historyStep events st)))
            = history (fold_left historyStep events st)) as H.
  { induction events as [|e events IH]; intros st Hst; [exact Hst|].
    simpl. apply IH. now apply historyStep_synced. }
  apply H. reflexivity.
Qed.

(** X8: [deleteHistoryItem] removes every entry with the given id and no
    other entry, keeps the order of the rest, changes nothing when no entry
    has the id, and deleting the same id again changes nothing more. *)
Theorem deleteHistoryItem_removes (i : str) (st : HistoryStore) :
  let st' := deleteHistoryItem i st in
  (forall h, In h (history st') <-> In h (history st) /\ id h <> i)
  /\ (forall l1 l2, history st = l1 ++ l2 ->
        history st'
        = history (deleteHistoryItem i (mkStore l1 None))
          ++ history (deleteHistoryItem i (mkStore l2 None)))
  /\ ((forall h, In h (history st) -> id h <> i) -> history st' = history st)
  /\ deleteHistoryItem i st' = st'.
Proof.
  cbv zeta. unfold deleteHistoryItem. cbn [history].
  set (keep := fun item => negb (str_eqb (id item) i)).
  assert (forall h, keep h = true <-> id h <> i) as Hk.
  { intros h. unfold keep. rewrite negb_true_iff. apply str_eqb_neq. }
  split; [|split; [|split]].
  - intros h. rewrite filter_In, Hk. reflexivity.
  - intros l1 l2 ->. apply filter_app.
  - intros H. apply forallb_filter_id. apply forallb_forall.
    intros h Hin. apply Hk. now apply H.
  - f_equal; [|f_equal]; apply forallb_filter_id; apply forallb_forall;
      intros h Hin; now apply filter_In in Hin.
Qed.

Lemma deleteHistoryItem_removes_witness :
  let a := mkItem (lit "1") 1 (lit "t") (lit "a") in
  let b := mkItem (lit "2") 2 (lit "t") (lit "b") in
  history (deleteHistoryItem (lit "3") (mkStore [b; a] (Some [b; a]))) = [b; a].
Proof.
  intros a b.
  destruct (deleteHistoryItem_removes (lit "3") (mkStore [b; a] (Some [b; a])))
    as (_ & _ & H & _).
  apply H. intros h [<-|[<-|[]]]; discriminate.
Defined.

Lemma StronglySorted_firstn {A} (R : A -> A -> Prop) (n : nat) (l : list A) :
  StronglySorted R l -> StronglySorted R (firstn n l).
Proof.
  intros H; revert n; induction H as [|x l Hl IH Hx]; intros [|n]; simpl;
    try constructor; [apply IH|].
  apply Forall_forall. intros y Hy. apply firstn_incl in Hy.
  rewrite Forall_forall in Hx. now apply Hx.
Qed.

Lemma StronglySorted_filter {A} (R : A -> A -> Prop) (p : A -> bool)
    (l : list A) :
  StronglySorted R l -> StronglySorted R (filter p l).
Proof.
  intros H; induction H as [|x l Hl IH Hx]; simpl; [constructor|].
  destruct (p x); [|exact IH].
  constructor; [exact IH|].
  apply Forall_forall. intros y Hy. apply filter_In in Hy as [Hy _].
  rewrite Forall_forall in Hx. now apply Hx.
Qed.

Lemma history_sorted_from (events : list HistoryEvent) (t : N)
    (st : HistoryStore) :
  clockFrom t events ->
  StronglySorted newerFirst (history st) ->
  Forall (fun h => (timestamp h <= t)%N) (history st) ->
  StronglySorted newerFirst (history (fold_left historyStep events st)).
Proof.
  revert t st; induction events as [|e events IH]; intros t st Hc Hs Hb;
    [exact Hs|].
  destruct e as [n1 n2 r tp|c|i]; simpl in Hc |- *.
  - destruct Hc as [Hle Hc]. unfold saveToHistory.
    destruct (existsb _ _).
    + apply (IH n2); [exact Hc | exact Hs|].
      revert Hb. apply Forall_impl. intros h Hh. lia.
    + apply (IH n2); [exact Hc | |]; cbn [history].
      * apply StronglySorted_firstn. constructor; [exact Hs|].
        revert Hb. apply Forall_impl. intros h Hh.
        unfold newerFirst. simpl. lia.
      * apply Forall_forall. intros h Hh. apply firstn_incl in Hh.
        destruct Hh as [<-|Hh]; [simpl; lia|].
        rewrite Forall_forall in Hb. specialize (Hb h Hh). lia.
  - unfold clearHistory. destruct c.
    + apply (IH t); [exact Hc | constructor | constructor].
    + now apply (IH t).
  - apply (IH t); [exact Hc | |]; cbn [deleteHistoryItem history].
    + now apply StronglySorted_filter.
    + apply Forall_forall. intros h Hh. apply filter_In in Hh as [Hh _].
      rewrite Forall_forall in Hb. now apply Hb.
Qed.

(** X9: when the clock does not go back between the saves, the history is
    ordered newest first: every entry is at least as new as all the entries
    after it. *)
Theorem history_newest_first (events : list HistoryEvent) :
  clockFrom 0 events ->
  StronglySorted newerFirst
    (history (fold_left historyStep events emptyStore)).
Proof.
  intros H. apply (history_sorted_from events 0%N emptyStore H); constructor.
Qed.

Lemma history_newest_first_witness :
  StronglySorted newerFirst
    (history (fold_left historyStep
                [Save 5 5 (lit "a") (lit "t"); Delete (lit "9");
                 Save 7 8 (lit "b") (lit "t")] emptyStore)).
Proof.
  apply history_newest_first. simpl. repeat split; lia.
Defined.

(** ** Trimming *)

Lemma dropWhile_idem (f : char -> bool) (s : str) :
  dropWhile f (dropWhile f s) = dropWhile f s.
Proof.
  induction s as [|c s IH]; [reflexivity|]. simpl.
  destruct (f c) eqn:E; [exact IH|]. simpl. now rewrite E.
Qed.

Lemma dropWhile_length (f : char -> bool) (s : str) :
  length (dropWhile f s) <= length s.
Proof.
  induction s as [|c s IH]; simpl; [lia|]. destruct (f c); simpl; lia.
Qed.

Lemma dropWhile_fixed (f : char -> bool) (c : char) (s : str) :
  dropWhile f (c :: s) = c :: s -> f c = false.
Proof.
  simpl. destruct (f c); [|reflexivity].
  intros H. pose proof (dropWhile_length f s) as Hl. rewrite H in Hl.
  simpl in Hl. lia.
Qed.

Lemma dropWhile_snoc (f : char -> bool) (a : str) (c : char) :
  f c = false -> exists w, dropWhile f (a ++ [c]) = w ++ [c].
Proof.
  intros Hc. induction a as [|x a [w IH]]; simpl.
  - rewrite Hc. now exists [].
  - destruct (f x); [now exists w|]. now exists (x :: a).
Qed.

Lemma trimEnd_keeps_start (u : str) :
  dropWhile isTrimmed u = u ->
  dropWhile isTrimmed (trimEnd u) = trimEnd u.
Proof.
  intros H. destruct u as [|c u]; [reflexivity|].
  apply dropWhile_fixed in H. unfold trimEnd. simpl rev.
  destruct (dropWhile_snoc isTrimmed (rev u) c H) as [w ->].
  rewrite rev_app_distr. simpl. now rewrite H.
Qed.

Lemma trim_trim (s : str) : trim (trim s) = trim s.
Proof.
  unfold trim, trimStart.
  rewrite trimEnd_keeps_start by apply dropWhile_idem.
  unfold trimEnd. now rewrite rev_involutive, dropWhile_idem.
Qed.

(** ** The section parser, further *)

Lemma parseLoop_invariant (L : str -> Prop) (I : ParseState -> Prop) :
  (forall st line, L line -> I st -> I (parseLine st line)) ->
  forall ls st, Forall L ls -> I st -> I (fold_left parseLine ls st).
Proof.
  intros Hstep ls; induction ls as [|l ls IH]; intros st Hls Hst;
    [exact Hst|].
  inversion Hls; subst. simpl. apply IH; [assumption|]. now apply Hstep.
Qed.

Lemma parse_titles (P : str -> Prop) (markdown : str) :
  P Overview ->
  (forall h, In h (split LF markdown) -> isHeading h = true ->
             P (trim (skipn 4 h))) ->
  forall st,
    P (currentTitle st) -> Forall (fun s => P (title s)) (sections st) ->
    Forall (fun s => P (title s))
           (parseFlush (fold_left parseLine (split LF markdown) st)).
Proof.
  intros Ho Hh st Ht Hs.
  set (I := fun st => P (currentTitle st)
                      /\ Forall (fun s => P (title s)) (sections st)).
  set (L := fun h => isHeading h = true -> P (trim (skipn 4 h))).
  assert (I (fold_left parseLine (split LF markdown) st)) as [Ht' Hs'].
  { apply (parseLoop_invariant L I).
    - intros st0 line Hl [H1 H2]. unfold parseLine, I.
      destruct (startsWith heading line) eqn:E; simpl; [|now split].
      split.
      + rewrite (replaceFirst_prefix heading [] line E). now apply Hl.
      + destruct (_ || _); [|exact H2].
        apply Forall_app. split; [exact H2 | now repeat constructor].
    - apply Forall_forall. intros h Hin. unfold L. now apply Hh.
    - now split. }
  unfold parseFlush. destruct (0 <? _); [|exact Hs'].
  apply Forall_app. split; [exact Hs' | now repeat constructor].
Qed.

(** X10: every title [parseSections] answers is trimmed: trimming it
    again changes nothing. *)
Theorem parseSections_titles_trimmed (markdown : str) (s : Section) :
  In s (parseSections markdown) -> trim (title s) = title s.
Proof.
  intros Hin. unfold parseSections in Hin.
  destruct markdown as [|c md]; [destruct Hin|].
  cbv zeta in Hin. revert s Hin. apply Forall_forall.
  apply (parse_titles (fun t => trim t = t)).
  - reflexivity.
  - intros h _ _. apply trim_trim.
  - reflexivity.
  - destruct (match splitHead true (c :: md) with [] => false | _ => _ end);
      repeat constructor.
Qed.

Lemma parseSections_titles_trimmed_witness :
  trim (lit "Steps") = lit "Steps".
Proof.
  apply (parseSections_titles_trimmed
           (lit "###   Steps  " ++ LF :: lit "1. Do X")
           (mkSection (lit "Steps") (lit "1. Do X"))).
  now left.
Defined.

(** X11: when the input starts with "### ", no implicit section is added:
    every title in the result is the trimmed rest of a heading line of the
    input. *)
Theorem parseSections_starting_with_heading (markdown : str) (s : Section) :
  isHeading markdown = true ->
  In s (parseSections markdown) ->
  exists h, In h (split LF markdown) /\ isHeading h = true
            /\ title s = trim (skipn 4 h).
Proof.
  intros Hh Hin. unfold parseSections in Hin.
  destruct markdown as [|c md]; [destruct Hin|].
  cbv zeta in Hin.
  assert (splitHead true (c :: md) = []) as Hp.
  { unfold isHeading in Hh. cbn [splitHead andb]. now rewrite Hh. }
  rewrite Hp in Hin.
  pose proof (isHeading_first_line (c :: md)) as Hfirst.
  rewrite Hh in Hfirst.
  pose proof (split_not_nil LF (c :: md)) as Hne.
  set (P := fun t => exists h, In h (split LF (c :: md))
                               /\ isHeading h = true
                               /\ t = trim (skipn 4 h)).
  destruct (split LF (c :: md)) as [|h1 ls] eqn:Hs; [congruence|].
  simpl hd in Hfirst. cbn [fold_left] in Hin.
  destruct (parse_heading_line (mkParse [] Overview []) h1 (eq_sym Hfirst))
    as [Ht Hc].
  assert (sections (parseLine (mkParse [] Overview []) h1) = []) as Hsec.
  { unfold parseLine. unfold isHeading in Hfirst. now rewrite <- Hfirst. }
  set (st1 := parseLine (mkParse [] Overview []) h1) in *.
  assert (Forall (fun s => P (title s))
            (parseFlush (fold_left parseLine ls st1))) as HF.
  { set (I := fun st => P (currentTitle st)
                        /\ Forall (fun s => P (title s)) (sections st)).
    assert (I (fold_left parseLine ls st1)) as [Ht' Hs'].
    { apply (parseLoop_invariant
               (fun h => isHeading h = true -> P (trim (skipn 4 h))) I).
      - intros st0 line Hl [H1 H2]. unfold parseLine, I.
        destruct (startsWith heading line) eqn:E; simpl; [|now split].
        split.
        + rewrite (replaceFirst_prefix heading [] line E). now apply Hl.
        + destruct (_ || _); [|exact H2].
          apply Forall_app. split; [exact H2 | now repeat constructor].
      - apply Forall_forall. intros h Hin' Hhh. exists h.
        split; [now right | now split].
      - split.
        + rewrite Ht. exists h1. split; [now left | now split].
        + rewrite Hsec. constructor. }
    unfold parseFlush. destruct (0 <? _); [|exact Hs'].
    apply Forall_app. split; [exact Hs' | now repeat constructor]. }
  rewrite Forall_forall in HF. exact (HF s Hin).
Qed.

Lemma parseSections_starting_with_heading_witness :
  exists h, In h (split LF (lit "### A" ++ LF :: lit "x"))
            /\ isHeading h = true /\ lit "A" = trim (skipn 4 h).
Proof.
  apply (parseSections_starting_with_heading
           (lit "### A" ++ LF :: lit "x") (mkSection (lit "A") (lit "x"))).
  - reflexivity.
  - now left.
Defined.

Lemma join_cons_cons (c : char) (l : str) (ls : list str) :
  join LF ((c :: l) :: ls) = c :: join LF (l :: ls).
Proof. destruct ls; reflexivity. Qed.

Lemma split_join (ls : list str) :
  ls <> [] -> Forall (without LF) ls -> split LF (join LF ls) = ls.
Proof.
  intros Hne H; induction H as [|l ls Hl Hls IH]; [congruence|].
  destruct ls as [|l' ls].
  - simpl. now apply split_without.
  - change (join LF (l :: l' :: ls)) with (l ++ LF :: join LF (l' :: ls)).
    rewrite (split_app_sep LF l _ Hl), IH; [reflexivity | discriminate].
Qed.

(** The text before the first match of the heading expression is the lines
    before the first heading line, joined. *)
Lemma splitHead_join (s : str) :
  forall l0 pre rest,
    split LF s = l0 :: pre ++ rest ->
    Forall (fun l => isHeading l = false) pre ->
    match rest with
    | [] => True
    | h :: _ => isHeading h = true
    end ->
    splitHead false s = join LF (l0 :: pre).
Proof.
  induction s as [|c s IH]; intros l0 pre rest Hs Hpre Hrest.
  - simpl in Hs. injection Hs as <- Hs.
    symmetry in Hs. apply app_eq_nil in Hs as [-> _]. reflexivity.
  - pose proof (split_not_nil LF s) as Hne.
    pose proof (isHeading_first_line s) as Hfirst.
    cbn [split] in Hs. cbn [splitHead andb orb startsWith].
    destruct (char_eqb c LF) eqn:E.
    + apply char_eqb_eq in E; subst c.
      injection Hs as <- Hs. rewrite char_eqb_refl. cbn [andb].
      change (startsWith heading s) with (isHeading s).
      destruct pre as [|l1 pre].
      * simpl in Hs. rewrite Hs in Hne, Hfirst.
        destruct rest as [|h rest]; [congruence|].
        simpl in Hfirst. rewrite Hfirst, Hrest.
        reflexivity.
      * simpl in Hs. rewrite Hs in Hfirst. simpl in Hfirst.
        inversion Hpre as [|? ? H1 H2]; subst.
        rewrite Hfirst, H1.
        rewrite (IH l1 pre rest Hs H2 Hrest). reflexivity.
    + destruct (split LF s) as [|l ls] eqn:Es; [congruence|].
      injection Hs as <- Hs.
      unfold char_eqb in *. rewrite N.eqb_sym, E. cbn [andb].
      rewrite (IH l pre rest); [|now rewrite Hs | exact Hpre | exact Hrest].
      symmetry. apply join_cons_cons.
Qed.

Lemma splitHead_start (s : str) :
  isHeading s = false -> splitHead true s = splitHead false s.
Proof.
  intros H. destruct s as [|c s]; [reflexivity|].
  unfold isHeading in H. cbn [splitHead andb orb]. now rewrite H.
Qed.

Lemma lines_decompose (ls : list str) :
  exists pre rest,
    ls = pre ++ rest
    /\ Forall (fun l => isHeading l = false) pre
    /\ match rest with
       | [] => True
       | h :: _ => isHeading h = true
       end.
Proof.
  induction ls as [|l ls (pre & rest & -> & Hpre & Hrest)].
  - exists [], []. repeat split. constructor.
  - destruct (isHeading l) eqn:E.
    + exists [], (l :: pre ++ rest). repeat split; [constructor | exact E].
    + exists (l :: pre), rest. repeat split; [now constructor | exact Hrest].
Qed.

Lemma parseLoop_extends (ls : list str) (st : ParseState) :
  exists more, sections (fold_left parseLine ls st) = sections st ++ more.
Proof.
  revert st; induction ls as [|l ls IH]; intros st.
  - exists []. simpl. now rewrite app_nil_r.
  - simpl. destruct (IH (parseLine st l)) as [more ->].
    unfold parseLine. destruct (startsWith heading l); simpl.
    + destruct (_ || _); [|now exists more].
      eexists. rewrite <- app_assoc. reflexivity.
    + now exists more.
Qed.

Lemma parseFlush_extends (st : ParseState) :
  exists more, parseFlush st = sections st ++ more.
Proof.
  unfold parseFlush. destruct (0 <? _); [now eexists|].
  exists []. now rewrite app_nil_r.
Qed.

Lemma startsWith_prefix (p q s : str) :
  startsWith (p ++ q) s = true -> startsWith p s = true.
Proof.
  revert s; induction p as [|x p IH]; intros s H; [reflexivity|].
  destruct s as [|y s]; simpl in *; [discriminate|].
  apply andb_true_iff in H as [H1 H2]. rewrite H1. now apply IH.
Qed.

Lemma not_heading_without_marker (s : str) :
  startsWith (lit "###") s = false -> isHeading s = false.
Proof.
  intros H. destruct (isHeading s) eqn:E; [|reflexivity].
  unfold isHeading in E.
  change heading with (lit "###" ++ lit " ") in E.
  apply startsWith_prefix in E. congruence.
Qed.

(** X12: whenever the text before the first heading makes a section (it
    trims to a non-empty string and the input does not start with "###"),
    [parseSections] answers that "Overview" section twice: its first two
    sections are equal. *)
Theorem parseSections_intro_twice (markdown : str) :
  startsWith (lit "###") markdown = false ->
  trim (splitHead true markdown) <> [] ->
  exists rest,
    parseSections markdown
    = mkSection Overview (splitHead true markdown)
      :: mkSection Overview (splitHead true markdown) :: rest.
Proof.
  intros Hstart Htrim.
  pose proof (not_heading_without_marker markdown Hstart) as Hnh.
  destruct markdown as [|c md]; [now contradiction Htrim|].
  unfold parseSections. cbv zeta. rewrite Hstart. cbn [negb andb].
  set (p := splitHead true (c :: md)) in *.
  assert (match p with
          | [] => false
          | _ :: _ => (0 <? length (trim p)) && true
          end = true) as ->.
  { destruct p as [|x p']; [now contradiction Htrim|].
    destruct (trim (x :: p')); [congruence | reflexivity]. }
  pose proof (split_not_nil LF (c :: md)) as Hne.
  pose proof (isHeading_first_line (c :: md)) as Hfirst.
  destruct (split LF (c :: md)) as [|l0 ls] eqn:Hs; [congruence|].
  destruct (lines_decompose ls) as (pre & rest & -> & Hpre & Hrest).
  assert (p = join LF (l0 :: pre)) as Hp.
  { unfold p. rewrite (splitHead_start _ Hnh).
    now apply (splitHead_join (c :: md) l0 pre rest). }
  assert (Forall (fun l => isHeading l = false) (l0 :: pre)) as Hlines.
  { constructor; [|exact Hpre]. simpl in Hfirst. congruence. }
  change (l0 :: pre ++ rest) with ((l0 :: pre) ++ rest).
  rewrite fold_left_app, (parseLine_body _ _ Hlines).
  cbn [sections currentTitle currentContent app].
  destruct rest as [|h rest].
  - cbn [fold_left]. unfold parseFlush.
    cbn [sections currentTitle currentContent length Nat.ltb Nat.leb app].
    rewrite <- Hp. eexists. reflexivity.
  - cbn [fold_left].
    set (st := mkParse _ _ _).
    destruct (parseFlush_extends (fold_left parseLine rest (parseLine st h)))
      as [more1 ->].
    destruct (parseLoop_extends rest (parseLine st h)) as [more2 ->].
    assert (sections (parseLine st h)
            = [mkSection Overview p; mkSection Overview p]) as ->.
    { unfold parseLine. unfold isHeading in Hrest. rewrite Hrest.
      unfold st. cbn [sections currentTitle currentContent length Nat.ltb
                      Nat.leb orb app]. now rewrite <- Hp. }
    eexists. reflexivity.
Qed.

Lemma parseSections_intro_twice_witness :
  exists rest,
    parseSections (lit "Intro" ++ LF :: lit "### A" ++ LF :: lit "x")
    = mkSection Overview (lit "Intro") :: mkSection Overview (lit "Intro")
      :: rest.
Proof.
  apply (parseSections_intro_twice
           (lit "Intro" ++ LF :: lit "### A" ++ LF :: lit "x")).
  - reflexivity.
  - vm_compute. discriminate.
Defined.

Lemma join_plain (ls : list str) :
  Forall plainLine ls ->
  Forall (fun l => isHeading l = false) (split LF (join LF ls)).
Proof.
  intros H. destruct ls as [|l ls]; [repeat constructor|].
  rewrite split_join; [|discriminate|].
  - revert H. apply Forall_impl. now intros x [_ Hx].
  - revert H. apply Forall_impl. now intros x [Hx _].
Qed.

Lemma parseLine_heading_free (st : ParseState) (line : str) :
  without LF line ->
  Forall headingFree (sections st) /\ Forall plainLine (currentContent st) ->
  Forall headingFree (sections (parseLine st line))
  /\ Forall plainLine (currentContent (parseLine st line)).
Proof.
  intros Hl [Hs Hc]. unfold parseLine.
  destruct (startsWith heading line) eqn:E; simpl.
  - split; [|constructor].
    destruct (_ || _); [|exact Hs].
    apply Forall_app. split; [exact Hs|].
    constructor; [|constructor]. now apply join_plain.
  - split; [exact Hs|].
    apply Forall_app. split; [exact Hc|]. now repeat constructor.
Qed.

Lemma intro_heading_free (markdown : str) :
  isHeading markdown = false ->
  headingFree (mkSection Overview (splitHead true markdown)).
Proof.
  intros Hnh. unfold headingFree. cbn [content].
  pose proof (split_not_nil LF markdown) as Hne.
  pose proof (isHeading_first_line markdown) as Hfirst.
  pose proof (split_pieces LF markdown) as Hpieces.
  destruct (split LF markdown) as [|l0 ls] eqn:Hs; [congruence|].
  destruct (lines_decompose ls) as (pre & rest & -> & Hpre & Hrest).
  rewrite (splitHead_start _ Hnh).
  rewrite (splitHead_join markdown l0 pre rest Hs Hpre Hrest).
  apply join_plain.
  inversion Hpieces as [|? ? H0 Hls]; subst.
  apply Forall_app in Hls as [Hls _].
  constructor.
  - split; [exact H0 | simpl in Hfirst; congruence].
  - rewrite Forall_forall in *. intros l Hin. split; auto.
Qed.

(** X13: no section [parseSections] answers has a heading line in its
    content: each line of the content that starts with "### " would have
    opened a section of its own. *)
Theorem parseSections_contents_heading_free (markdown : str) (s : Section) :
  In s (parseSections markdown) -> headingFree s.
Proof.
  intros Hin. unfold parseSections in Hin.
  destruct markdown as [|c md]; [destruct Hin|].
  cbv zeta in Hin. revert s Hin. apply Forall_forall.
  set (st0 := mkParse _ _ _).
  assert (Forall headingFree (sections st0)
          /\ Forall plainLine (currentContent st0)) as H0.
  { split; [|constructor]. unfold st0. cbn [sections].
    destruct (splitHead true (c :: md)) as [|x p] eqn:Ep; [constructor|].
    destruct (0 <? _); [|constructor]. cbn [andb].
    destruct (startsWith (lit "###") (c :: md)) eqn:E; [constructor|].
    cbn [negb]. constructor; [|constructor].
    rewrite <- Ep. apply intro_heading_free.
    now apply not_heading_without_marker. }
  destruct (parseLoop_invariant (without LF)
              (fun st => Forall headingFree (sections st)
                         /\ Forall plainLine (currentContent st))
              parseLine_heading_free (split LF (c :: md)) st0
              (split_pieces LF (c :: md)) H0) as [Hs Hc].
  set (st1 := fold_left parseLine (split LF (c :: md)) st0) in *.
  unfold parseFlush.
  destruct (0 <? length (currentContent st1)); [|exact Hs].
  apply Forall_app. split; [exact Hs|].
  constructor; [|constructor]. now apply join_plain.
Qed.

Lemma parseSections_contents_heading_free_witness :
  headingFree (mkSection (lit "A") (lit "x" ++ LF :: lit " ### y")).
Proof.
  apply (parseSections_contents_heading_free
           (lit "### A" ++ LF :: lit "x" ++ LF :: lit " ### y")).
  now left.
Defined.

(** ** The plain-text conversion, further *)

Lemma trim_head (s : str) (c : char) (t : str) :
  trim s = c :: t -> isTrimmed c = false.
Proof.
  intros H. apply (dropWhile_fixed isTrimmed c t). rewrite <- H.
  unfold trim, trimStart. apply trimEnd_keeps_start, dropWhile_idem.
Qed.

Lemma trim_last (s : str) (t : str) (c : char) :
  trim s = t ++ [c] -> isTrimmed c = false.
Proof.
  intros H. apply (dropWhile_fixed isTrimmed c (rev t)).
  assert (rev (trim s) = c :: rev t) as Hr
    by (rewrite H, rev_app_distr; reflexivity).
  rewrite <- Hr. unfold trim, trimEnd. rewrite rev_involutive.
  apply dropWhile_idem.
Qed.

(** X14: the plain text neither starts nor ends with white space or a line
    terminator, so trimming it again changes nothing. *)
Theorem cleanMarkdown_trimmed (md : str) :
  (forall c t, cleanMarkdown md = c :: t -> isTrimmed c = false)
  /\ (forall t c, cleanMarkdown md = t ++ [c] -> isTrimmed c = false)
  /\ trim (cleanMarkdown md) = cleanMarkdown md.
Proof.
  unfold cleanMarkdown. split; [|split].
  - intros c t. apply trim_head.
  - intros t c. apply trim_last.
  - apply trim_trim.
Qed.

Lemma cleanMarkdown_trimmed_witness : isTrimmed 66%N = false.
Proof.
  destruct (cleanMarkdown_trimmed (lit "# Bold *text*  ")) as (H & _ & _).
  apply (H 66%N (lit "old text")). reflexivity.
Defined.

Lemma replaceAll_length (m : Matcher) :
  shrinking m ->
  forall s skip prev, length (replaceAll m skip prev s) <= length s - skip.
Proof.
  intros Hm s; induction s as [|c s IH]; intros skip prev; [simpl; lia|].
  cbn [replaceAll]. destruct skip as [|k].
  - destruct (m prev (c :: s)) as [[r n]|] eqn:E.
    + destruct (Hm _ _ _ _ E) as (H1 & H2 & H3). simpl in H2.
      rewrite length_app. specialize (IH (pred n) (Some c)). simpl. lia.
    + specialize (IH 0 (Some c)). simpl. lia.
  - specialize (IH k (Some c)). simpl. lia.
Qed.

Lemma startsWith_length (p s : str) :
  startsWith p s = true -> length p <= length s.
Proof.
  intros H. apply startsWith_spec in H as [t ->]. rewrite length_app. lia.
Qed.

Lemma lineStartMarker_shrinking (p : str) :
  p <> [] -> shrinking (lineStartMarker p).
Proof.
  intros Hp prev s r n. unfold lineStartMarker.
  destruct (atLineStart prev && startsWith p s) eqn:E; [|discriminate].
  intros H. injection H as <- <-.
  apply andb_true_iff in E as [_ E]. apply startsWith_length in E.
  destruct p; [congruence | simpl in *; lia].
Qed.

Lemma markupChar_shrinking : shrinking markupChar.
Proof.
  intros prev s r n. unfold markupChar. destruct s as [|c s]; [discriminate|].
  destruct (existsb _ _); [|discriminate].
  intros H. injection H as <- <-. simpl. lia.
Qed.

Lemma lazyDot_bounds (k : str -> option nat) :
  (forall s n, k s = Some n -> n <= length s) ->
  forall s run n, lazyDot k s = Some (run, n) ->
                  length run <= n /\ n <= length s.
Proof.
  intros Hk s; induction s as [|c s IH]; intros run n H; simpl in H.
  - destruct (k []) eqn:E; [|discriminate].
    injection H as <- <-. apply Hk in E. simpl in *. lia.
  - destruct (k (c :: s)) eqn:E.
    + injection H as <- <-. apply Hk in E. simpl in *. lia.
    + destruct (isLineTerminator c); [discriminate|].
      destruct (lazyDot k s) as [[run' n']|] eqn:El; [|discriminate].
      injection H as <- <-. destruct (IH _ _ eq_refl). simpl. lia.
Qed.

Lemma closeParen_bound (s : str) (n : nat) :
  closeParen s = Some n -> n <= length s.
Proof.
  destruct s as [|c s]; simpl; [discriminate|].
  destruct (char_eqb c RPAREN); [|discriminate].
  intros H. injection H as <-. lia.
Qed.

Lemma linkTail_bound (s : str) (n : nat) :
  linkTail s = Some n -> n <= length s.
Proof.
  destruct s as [|c1 [|c2 s]]; simpl; try discriminate.
  destruct (char_eqb c1 RBRACK && char_eqb c2 LPAREN); [|discriminate].
  destruct (lazyDot closeParen s) as [[run n']|] eqn:E; [|discriminate].
  intros H. injection H as <-.
  destruct (lazyDot_bounds closeParen closeParen_bound _ _ _ E). lia.
Qed.

Lemma link_shrinking : shrinking link.
Proof.
  intros prev s r n. unfold link. destruct s as [|c s]; [discriminate|].
  destruct (char_eqb c LBRACK); [|discriminate].
  destruct (lazyDot linkTail s) as [[label n']|] eqn:E; [|discriminate].
  intros H. injection H as <- <-.
  destruct (lazyDot_bounds linkTail linkTail_bound _ _ _ E). simpl. lia.
Qed.

Lemma newlineRun_shrinking : shrinking newlineRun.
Proof.
  intros prev s r n. unfold newlineRun. cbv zeta.
  destruct (2 <=? countLF s) eqn:E; [|discriminate].
  intros H. injection H as <- <-. apply Nat.leb_le in E.
  pose proof (countLF_length s). simpl. lia.
Qed.

Lemma replace_length (m : Matcher) (s : str) :
  shrinking m -> length (replace m s) <= length s.
Proof.
  intros H. unfold replace.
  pose proof (replaceAll_length m H s 0 None). lia.
Qed.

Lemma trim_length (s : str) : length (trim s) <= length s.
Proof.
  destruct (trim_infix s) as (a & b & E). rewrite E at 2.
  rewrite !length_app. lia.
Qed.

(** X15: the plain text is never longer than the Markdown text. *)
Theorem cleanMarkdown_length (md : str) :
  length (cleanMarkdown md) <= length md.
Proof.
  unfold cleanMarkdown.
  eapply Nat.le_trans; [apply trim_length|].
  eapply Nat.le_trans; [apply replace_length, newlineRun_shrinking|].
  eapply Nat.le_trans; [apply replace_length, link_shrinking|].
  eapply Nat.le_trans; [apply replace_length, markupChar_shrinking|].
  eapply Nat.le_trans;
    [apply replace_length, lineStartMarker_shrinking; discriminate|].
  eapply Nat.le_trans;
    [apply replace_length, lineStartMarker_shrinking; discriminate|].
  apply replace_length, lineStartMarker_shrinking. discriminate.
Qed.

Lemma lineStartMarker_without_hash (p : str) (b : str) (prev : option char) :
  startsWith [HASH] p = true -> without HASH b ->
  lineStartMarker p prev b = None.
Proof.
  intros Hp Hb. unfold lineStartMarker.
  destruct (startsWith p b) eqn:E; [|now rewrite andb_false_r].
  apply startsWith_spec in Hp as [p' ->].
  apply startsWith_spec in E as [t ->].
  inversion Hb; subst. congruence.
Qed.

(** X16: a text without '#', '*', '`', '>' and '[', without two line feeds
    in a row, and without white space at its ends, is its own plain text:
    [cleanMarkdown] leaves it unchanged. *)
Theorem cleanMarkdown_plain_fixed (md : str) :
  without HASH md ->
  Forall (fun c => isMarkup c = false) md ->
  without LBRACK md ->
  ~ contains [LF; LF] md ->
  trim md = md ->
  cleanMarkdown md = md.
Proof.
  intros Hhash Hmark Hbr Hlf Htrim. unfold cleanMarkdown.
  assert (forall p, startsWith [HASH] p = true ->
                    replace (lineStartMarker p) md = md) as Hstrip.
  { intros p Hp. apply replaceAll_no_match. intros a b prev ->.
    apply lineStartMarker_without_hash; [exact Hp|].
    now apply Forall_app in Hhash. }
  unfold stripH3, stripH2, stripH1. rewrite !Hstrip by reflexivity.
  assert (removeMarkup md = md) as ->.
  { rewrite removeMarkup_filter. apply forallb_filter_id.
    apply forallb_forall. intros c Hc.
    rewrite Forall_forall in Hmark. now rewrite (Hmark c Hc). }
  assert (replaceLinks md = md) as ->.
  { apply replaceAll_no_match. intros a b prev ->.
    apply Forall_app in Hbr as [_ Hb]. unfold link.
    destruct b as [|c b]; [reflexivity|]. inversion Hb; subst.
    destruct (char_eqb c LBRACK) eqn:E; [|reflexivity].
    apply char_eqb_eq in E. congruence. }
  assert (collapseNewlines md = md) as ->; [|exact Htrim].
  apply replaceAll_no_match. intros a b prev ->.
  apply newlineRun_none.
  destruct (Nat.le_gt_cases 2 (countLF b)) as [H|H]; [|exact H].
  apply countLF_two in H as [b' ->].
  exfalso. apply Hlf. now exists a, b'.
Qed.

Lemma cleanMarkdown_plain_fixed_witness :
  cleanMarkdown (lit "Click Sign Up" ++ LF :: lit "then wait.")
  = lit "Click Sign Up" ++ LF :: lit "then wait.".
Proof.
  apply cleanMarkdown_plain_fixed.
  - repeat constructor; discriminate.
  - repeat constructor.
  - repeat constructor; discriminate.
  - intros (a & b & E).
    assert (includes [LF; LF] (lit "Click Sign Up" ++ LF :: lit "then wait.")
            = true) as H by (apply includes_spec; now exists a, b).
    vm_compute in H. discriminate H.
  - reflexivity.
Defined.

(** ** The pagination loop, further *)

Lemma In_concat_onPage (img i : Placed) (n : nat) (ps : list (list Placed)) :
  In img (concat (onPage n (fun p => p ++ [i]) ps)) ->
  In img (concat ps) \/ img = i.
Proof.
  revert n; induction ps as [|p ps IH]; intros n H; destruct n; simpl in *;
    try (now left).
  - rewrite <- app_assoc in H. apply in_app_or in H as [H|H].
    + left. apply in_or_app. now left.
    + simpl in H. destruct H as [H|H]; [now right|].
      left. apply in_or_app. now right.
  - apply in_app_or in H as [H|H].
    + left. apply in_or_app. now left.
    + destruct (IH n H) as [H'|H']; [|now right].
      left. apply in_or_app. now right.
Qed.

Lemma allImages_addPage (pdf : Pdf) : allImages (addPage pdf) = allImages pdf.
Proof.
  unfold allImages, addPage. simpl. rewrite concat_app. simpl.
  now rewrite app_nil_r.
Qed.

Lemma fits_ends_on_page (y h : double) :
  fle margin y = true -> fle (Finite 0) h = true -> fits y h ->
  forall qy qh, y = Finite qy -> h = Finite qh ->
                (qy + qh <= 277 + 2 ^ (-45))%Q.
Proof.
  intros Hy Hh Hf qy qh -> ->.
  apply fle_margin in Hy as [Hy|(q & Hq & Hy)]; [discriminate|].
  injection Hq as <-.
  apply fle_zero in Hh as [Hh|(q & Hq & Hh)]; [discriminate|].
  injection Hq as <-.
  assert (0 <= qy)%Q as Hy0 by lra.
  pose proof (overflows_exact qy qh Hy0 Hh) as H.
  unfold fits in Hf. now rewrite Hf in H.
Qed.

Lemma placeBlock_placed (pdf : Pdf) (c h : double) :
  fle (Finite 0) h = true -> fle margin c = true ->
  fle margin (snd (placeBlock (pdf, c) h)) = true
  /\ forall img, In img (allImages (fst (placeBlock (pdf, c) h))) ->
                 In img (allImages pdf) \/ blockPlaced img.
Proof.
  intros Hh Hc. unfold placeBlock.
  destruct (overflows c h) eqn:E; cbn [fst snd].
  - split; [now apply cursor_stays_below_margin|].
    intros img Hin. apply In_concat_onPage in Hin as [Hin| ->].
    + left. fold (allImages (addPage pdf)) in Hin.
      now rewrite allImages_addPage in Hin.
    + right. repeat split; cbn; now left.
  - split; [now apply cursor_stays_below_margin|].
    intros img Hin. apply In_concat_onPage in Hin as [Hin| ->].
    + now left.
    + right. split; [reflexivity|]. split; [reflexivity|].
      split; [exact Hc|]. right. split; [exact E|].
      now apply fits_ends_on_page.
Qed.

(** X17: the pagination loop never splits a block and never puts one above
    the top margin: with heights that are not negative and a cursor at or
    below the top margin, every image the loop adds is at the left margin,
    170 wide, at or below the top margin, and either sits at the very top
    of its page (a block higher than the page among them) or passed the
    test of the loop where it stands, and then its exact lower edge is at
    most [2^-45] mm below the bottom margin. *)
Theorem paginate_blocks_placed (heights : list double) (pdf : Pdf)
    (cursorY : double) (img : Placed) :
  Forall (fun h => fle (Finite 0) h = true) heights ->
  fle margin cursorY = true ->
  In img (allImages (fst (paginate heights (pdf, cursorY)))) ->
  In img (allImages pdf) \/ blockPlaced img.
Proof.
  intros Hh; revert pdf cursorY; induction Hh as [|h hs H0 _ IH];
    intros pdf c Hc Hin; [now left|].
  rewrite paginate_cons in Hin.
  destruct (placeBlock_placed pdf c h H0 Hc) as [Hc' Hstep].
  destruct (placeBlock (pdf, c) h) as [pdf' c'].
  destruct (IH pdf' c' Hc' Hin) as [H|H]; [|now right].
  now apply Hstep.
Qed.

Lemma paginate_blocks_placed_witness :
  blockPlaced
    (mkPlaced margin margin (pageWidth - margin * Finite 2)%dbl (Finite 300)).
Proof.
  destruct (paginate_blocks_placed [Finite 300] jsPDF margin
              (mkPlaced margin margin (pageWidth - margin * Finite 2)%dbl
                 (Finite 300)))
    as [[]|H].
  - repeat constructor.
  - reflexivity.
  - vm_compute. now left.
  - exact H.
Defined.

Lemma concat_onPage_length (i : Placed) (n : nat) (ps : list (list Placed)) :
  n < length ps ->
  length (concat (onPage n (fun p => p ++ [i]) ps)) = S (length (concat ps)).
Proof.
  revert n; induction ps as [|p ps IH]; intros n H; simpl in H; [lia|].
  destruct n; simpl.
  - rewrite !length_app. simpl. lia.
  - rewrite !length_app, IH by lia. lia.
Qed.

Lemma placeBlock_count (pdf : Pdf) (c h : double) :
  validPage pdf ->
  validPage (fst (placeBlock (pdf, c) h))
  /\ length (allImages (fst (placeBlock (pdf, c) h)))
     = S (length (allImages pdf)).
Proof.
  intros [H1 H2]. unfold placeBlock, validPage, pageCount in *.
  destruct (overflows c h); cbn [fst]; unfold allImages, addImage;
    cbn [pages currentPage addPage]; rewrite onPage_length.
  - rewrite length_app. simpl. split; [lia|].
    rewrite concat_onPage_length by (rewrite length_app; simpl; lia).
    rewrite concat_app, length_app. simpl. lia.
  - split; [lia|]. apply concat_onPage_length. lia.
Qed.

Lemma paginate_valid (heights : list double) (pdf : Pdf) (cursorY : double) :
  validPage pdf -> validPage (fst (paginate heights (pdf, cursorY))).
Proof.
  revert pdf cursorY; induction heights as [|h hs IH]; intros pdf c Hv;
    [exact Hv|].
  rewrite paginate_cons.
  destruct (placeBlock_count pdf c h Hv) as [Hv' _].
  destruct (placeBlock (pdf, c) h) as [pdf' c']. now apply IH.
Qed.

(** X18: the pagination loop drops no block and places none twice: when
    the current page exists, the document gains exactly one image per
    block, and between zero and one page per block. *)
Theorem paginate_places_every_block (heights : list double) (pdf : Pdf)
    (cursorY : double) :
  validPage pdf ->
  let pdf' := fst (paginate heights (pdf, cursorY)) in
  length (allImages pdf') = length (allImages pdf) + length heights
  /\ pageCount pdf <= pageCount pdf'
  /\ pageCount pdf' <= pageCount pdf + length heights
  /\ validPage pdf'.
Proof.
  cbv zeta. revert pdf cursorY; induction heights as [|h hs IH];
    intros pdf c Hv.
  - simpl. repeat split; try lia; apply Hv.
  - rewrite paginate_cons.
    destruct (placeBlock_count pdf c h Hv) as [Hv' Hn].
    pose proof (placeBlock_pageCount pdf c h) as Hp.
    destruct (placeBlock (pdf, c) h) as [pdf' c']. cbn [fst] in *.
    destruct (IH pdf' c' Hv') as (I1 & I2 & I3 & I4).
    cbn [length]. destruct (overflows c h); repeat split; try lia; apply I4.
Qed.

Lemma paginate_places_every_block_witness :
  length (allImages (fst (paginate [Finite 100; Finite 200; Finite 100] (jsPDF, margin)))) = 3.
Proof.
  destruct (paginate_places_every_block [Finite 100; Finite 200; Finite 100] jsPDF margin)
    as [H _].
  - split; [apply le_n | apply le_n].
  - exact H.
Defined.

Lemma placeBlock_on_last_page (pdf : Pdf) (c h : double) :
  onLastPage pdf ->
  onLastPage (fst (placeBlock (pdf, c) h))
  /\ exists img,
       imgH img = h
       /\ allImages (fst (placeBlock (pdf, c) h)) = allImages pdf ++ [img].
Proof.
  intros [H1 H2]. unfold placeBlock.
  destruct (overflows c h); cbn [fst].
  - split.
    + unfold onLastPage, pageCount, addImage.
      cbn [pages currentPage addPage]. rewrite onPage_length.
      rewrite length_app. simpl. lia.
    + exists (mkPlaced margin margin (pageWidth - margin * Finite 2)%dbl h).
      split; [reflexivity|].
      unfold allImages. rewrite addImage_new_page, concat_app. reflexivity.
  - split.
    + unfold onLastPage, pageCount, addImage. cbn [pages currentPage].
      rewrite onPage_length. split; assumption.
    + exists (mkPlaced margin c (pageWidth - margin * Finite 2)%dbl h).
      split; [reflexivity|].
      unfold allImages, addImage. cbn [pages]. unfold pageCount in H2.
      destruct (exists_last (l := pages pdf)) as (ps & p & Hp).
      { intros E. rewrite E in H2. simpl in H2. lia. }
      rewrite H2, Hp, length_app. simpl.
      replace (pred (length ps + 1)) with (length ps) by lia.
      rewrite onPage_last, !concat_app. simpl.
      now rewrite !app_nil_r, app_assoc.
Qed.

(** X19: when the loop starts on the last page of the document, the images
    it adds stand in the document in the order of the blocks and with their
    heights, after the images that were there. *)
Theorem paginate_keeps_order (heights : list double) (pdf : Pdf) (cursorY : double) :
  onLastPage pdf ->
  exists placed,
    allImages (fst (paginate heights (pdf, cursorY)))
    = allImages pdf ++ placed
    /\ map imgH placed = heights.
Proof.
  revert pdf cursorY; induction heights as [|h hs IH]; intros pdf c Hl.
  - exists []. simpl. now rewrite app_nil_r.
  - rewrite paginate_cons.
    destruct (placeBlock_on_last_page pdf c h Hl) as (Hl' & img & Hh & Himg).
    destruct (placeBlock (pdf, c) h) as [pdf' c']. cbn [fst] in *.
    destruct (IH pdf' c' Hl') as (placed & -> & Hp).
    exists (img :: placed). rewrite Himg, <- app_assoc. split; [reflexivity|].
    simpl. now rewrite Hh, Hp.
Qed.

Lemma paginate_keeps_order_witness :
  exists placed,
    allImages (fst (paginate [Finite 100; Finite 200; Finite 100] (jsPDF, margin)))
    = allImages jsPDF ++ placed
    /\ map imgH placed = [Finite 100; Finite 200; Finite 100].
Proof.
  apply paginate_keeps_order. split; [apply le_n | reflexivity].
Defined.

Lemma nth_error_onPage_other (n k : nat) (f : list Placed -> list Placed)
    (ps : list (list Placed)) :
  n <> k -> nth_error (onPage n f ps) k = nth_error ps k.
Proof.
  revert n k; induction ps as [|p ps IH]; intros n k H; destruct n, k;
    simpl; try reflexivity; try congruence.
  apply IH. congruence.
Qed.

Lemma placeBlock_spares_second_page (shot : list Placed) (pdf : Pdf)
    (c h : double) :
  nth_error (pages pdf) 1 = Some shot -> currentPage pdf <> 2 ->
  nth_error (pages (fst (placeBlock (pdf, c) h))) 1 = Some shot
  /\ currentPage (fst (placeBlock (pdf, c) h)) <> 2.
Proof.
  intros Hs Hc. unfold placeBlock.
  assert (2 <= length (pages pdf)) as Hlen.
  { assert (nth_error (pages pdf) 1 <> None) as Hn by congruence.
    apply nth_error_Some in Hn. lia. }
  destruct (overflows c h); cbn [fst addImage addPage pages currentPage].
  - split; [|lia].
    rewrite nth_error_onPage_other by (simpl; lia).
    rewrite nth_error_app1 by lia. exact Hs.
  - split; [|exact Hc].
    rewrite nth_error_onPage_other by lia. exact Hs.
Qed.

(** X20: the screenshot page is never written by the pagination loop:
    after any blocks, the second page still holds the screenshot and
    nothing else, and the current page is the first page or a page after
    the second. *)
Theorem screenshot_page_untouched (props : ImageProps) (heights : list double) :
  let pdf' := fst (paginate heights (screenshotPage props jsPDF, margin)) in
  nth_error (pages pdf') 1 = Some [screenshotPlacement props]
  /\ (currentPage pdf' = 1 \/ 3 <= currentPage pdf').
Proof.
  cbv zeta.
  assert (forall hs pdf c,
            nth_error (pages pdf) 1 = Some [screenshotPlacement props] ->
            currentPage pdf <> 2 ->
            nth_error (pages (fst (paginate hs (pdf, c)))) 1
            = Some [screenshotPlacement props]
            /\ currentPage (fst (paginate hs (pdf, c))) <> 2) as H.
  { induction hs as [|h hs IH]; intros pdf c Hs Hc; [now split|].
    rewrite paginate_cons.
    destruct (placeBlock_spares_second_page _ pdf c h Hs Hc) as [Hs' Hc'].
    destruct (placeBlock (pdf, c) h) as [pdf' c']. now apply IH. }
  destruct (H heights (screenshotPage props jsPDF) margin) as [Hs Hc];
    [reflexivity | discriminate |].
  split; [exact Hs|].
  destruct (paginate_valid heights (screenshotPage props jsPDF) margin)
    as [Hv _]; [split; [apply le_n | apply le_S, le_n]|].
  lia.
Qed.

(** ** The export, further *)

(** X21: a block whose text is blank takes no part in the export: it is not
    rasterized, so it cannot make the export fail, and the result is the one
    for the blocks without it. *)
Theorem blank_blocks_skipped (bs : list Block) (st : Pdf * double) (w : Browser) :
  forOf captureBlock bs st w
  = forOf captureBlock (filter (fun b => negb (innerTextBlank b)) bs) st w.
Proof.
  revert st w; induction bs as [|b bs IH]; intros st w; [reflexivity|].
  cbn [forOf filter].
  destruct (innerTextBlank b) eqn:E; cbn [negb forOf].
  - unfold bind, captureBlock. rewrite E. unfold ret. apply IH.
  - unfold bind.
    destruct (captureBlock st b w) as [w' [st'|e]]; [apply IH | reflexivity].
Qed.

(** X22: [generatePdf] never throws.  Without a preview element it changes
    nothing; with one, it leaves the in-progress flag off, and it either
    saves exactly one file and shows no alert, or saves nothing and shows
    exactly one alert. *)
Theorem generatePdf_always_returns (x : Export) (w : Browser) :
  snd (generatePdf x w) = Returns tt
  /\ (printRef x = None -> fst (generatePdf x w) = w)
  /\ (printRef x <> None ->
      isGenerating (fst (generatePdf x w)) = false
      /\ ((exists file,
             downloads (fst (generatePdf x w)) = downloads w ++ [file]
             /\ alerts (fst (generatePdf x w)) = alerts w)
          \/ (downloads (fst (generatePdf x w)) = downloads w
              /\ alerts (fst (generatePdf x w))
                 = alerts w ++ [lit "PDF Generation failed"]))).
Proof.
  destruct (printRef x) as [snap|] eqn:Hp.
  2:{ unfold generatePdf. rewrite Hp.
      split; [reflexivity|]. split; [reflexivity | congruence]. }
  destruct (exportBody x snap (started w)) as [w' [[]|e]] eqn:Hb.
  - destruct (generatePdf_on_success x snap w w' Hp Hb) as [pdf ->].
    split; [reflexivity|]. split; [discriminate|].
    intros _. split; [reflexivity|].
    left. eexists. split; reflexivity.
  - pose proof (exportBody_throws x snap (started w) w' e Hb). subst w'.
    assert (generatePdf x w
            = (mkBrowser (body w ++ [temp x]) false (downloads w)
                 (alerts w ++ [lit "PDF Generation failed"])
                 (consoleErrors w ++ [e]), Returns tt)) as ->.
    { unfold generatePdf. rewrite Hp.
      unfold bind at 1, setIsGenerating, modify. fold (started w).
      unfold tryFinally, tryCatch. rewrite Hb. reflexivity. }
    split; [reflexivity|]. split; [discriminate|].
    intros _. split; [reflexivity|].
    right. split; reflexivity.
Qed.

Lemma generatePdf_always_returns_witness :
  generatePdf (mkExport None true None 7%N (lit "2026-11-02") (Returns tt))
              (mkBrowser [1%N] false [] [] [])
  = (mkBrowser [1%N] false [] [] [], Returns tt).
Proof.
  destruct (generatePdf_always_returns
              (mkExport None true None 7%N (lit "2026-11-02") (Returns tt))
              (mkBrowser [1%N] false [] [] [])) as (Hr & Hn & _).
  rewrite (surjective_pairing (generatePdf _ _)).
  rewrite Hr, (Hn eq_refl). reflexivity.
Defined.

(** ** The export filter, further *)

Section ExportFilterMore.

Variable toLowerCase : str -> str.

Lemma filter_andb {A} (f g : A -> bool) (l : list A) :
  filter (fun x => f x && g x) l = filter g (filter f l).
Proof.
  induction l as [|x l IH]; [reflexivity|]. simpl.
  destruct (f x); simpl; [destruct (g x)|]; now rewrite IH.
Qed.

Lemma keepSection_both (includeJson includeA11y : bool) (s : Section) :
  keepSection toLowerCase includeJson includeA11y s
  = keepSection toLowerCase includeJson true s
    && keepSection toLowerCase true includeA11y s.
Proof.
  unfold keepSection. destruct includeJson, includeA11y; cbn [negb andb];
    repeat match goal with
           | |- context [includes ?p ?t] => destruct (includes p t)
           end; reflexivity.
Qed.

(** X23: the two switches of the export filter act independently: with
    both on nothing is dropped, and filtering with any setting is filtering
    for the JSON switch alone and then for the accessibility switch alone,
    in either order. *)
Theorem filteredSections_independent (includeJson includeA11y : bool)
    (secs : list Section) :
  filteredSections toLowerCase true true secs = secs
  /\ filteredSections toLowerCase includeJson includeA11y secs
     = filteredSections toLowerCase true includeA11y
         (filteredSections toLowerCase includeJson true secs)
  /\ filteredSections toLowerCase includeJson includeA11y secs
     = filteredSections toLowerCase includeJson true
         (filteredSections toLowerCase true includeA11y secs).
Proof.
  unfold filteredSections. split; [|split].
  - apply forallb_filter_id. apply forallb_forall. reflexivity.
  - rewrite <- filter_andb. apply filter_ext. intros s.
    rewrite (keepSection_both includeJson includeA11y s). reflexivity.
  - rewrite <- filter_andb. apply filter_ext. intros s.
    rewrite (keepSection_both includeJson includeA11y s). apply andb_comm.
Qed.

End ExportFilterMore.

(** ** The tool component *)

Lemma service_error_has_message (sv : Service) (sent0 : list Model)
    (e : JsError) :
  snd (runUniversalInterface sv sent0) = Throws e ->
  exists m, message e = Some m /\ m <> [].
Proof.
  unfold runUniversalInterface, tryCatch, bind, lift, request, ret, throw.
  assert (forall v, exists m, Some (orDefault v unableToProcess) = Some m
                              /\ m <> []) as He.
  { intros v. eexists. split; [reflexivity|].
    apply orDefault_not_empty. discriminate. }
  destruct (fileToBase64 sv) as [b|e0]; simpl.
  2:{ intros H. injection H as <-. apply He. }
  destruct (generateContent sv gemini_3_pro_preview) as [t|e0]; simpl;
    [discriminate|].
  destruct (isNotFound e0); simpl.
  2:{ intros H. injection H as <-. apply He. }
  destruct (generateContent sv gemini_2_0_flash_exp) as [t|e']; simpl;
    [discriminate|].
  intros H. injection H as <-. apply He.
Qed.

Arguments cleanMarkdown : simpl never.

(** What the rest of a run does to the component. *)
Lemma resumeRun_state (p : Pending) (answer : Outcome str) (now1 now2 : N)
    (a : Ui) :
  fst (resumeRun p answer now1 now2 a)
  = match answer with
    | Returns response =>
        let newItem := mkItem (toString now1) now2 (run_task p) response in
        let updated := firstn 20 (newItem :: run_history p) in
        let a1 := if run_mounted p then setResult (Some response) a else a in
        let a2 :=
          if existsb (sameEntry (run_task p) response) (run_history p)
          then a1
          else setStore (mkStore (if run_mounted p then updated
                                  else history (ui_store a1))
                                 (Some updated)) a1 in
        if run_mounted p then setLoading false a2 else a2
    | Throws err =>
        if run_mounted p
        then setLoading false
               (setError (Some (orDefault (message err) analysisFailed)) a)
        else a
    end.
Proof.
  unfold resumeRun, tryFinally, tryCatch, bind, lift, setState, saveFromRun,
    modify.
  destruct answer as [response|err]; [|destruct (run_mounted p); reflexivity].
  cbv zeta. destruct (run_mounted p);
    destruct (existsb _ (run_history p)); reflexivity.
Qed.

(** The rest of a run leaves the speech, the outputs and the waiting runs
    as they are. *)
Lemma resumeRun_keeps (p : Pending) (answer : Outcome str) (now1 now2 : N)
    (a : Ui) :
  let a' := fst (resumeRun p answer now1 now2 a) in
  ui_speechState a' = ui_speechState a
  /\ ui_speechRef a' = ui_speechRef a
  /\ ui_synthesis a' = ui_synthesis a
  /\ ui_clipboard a' = ui_clipboard a
  /\ ui_textFiles a' = ui_textFiles a
  /\ ui_pending a' = ui_pending a.
Proof.
  cbv zeta. rewrite resumeRun_state.
  destruct answer as [response|err]; cbv zeta;
    destruct (run_mounted p); try destruct (existsb _ (run_history p));
    repeat split; reflexivity.
Qed.

(** The rest of a run of an unmounted component changes nothing that the
    mounted component shows. *)
Lemma resumeRun_orphan (p : Pending) (answer : Outcome str) (now1 now2 : N)
    (a : Ui) :
  run_mounted p = false ->
  let a' := fst (resumeRun p answer now1 now2 a) in
  ui_result a' = ui_result a /\ ui_error a' = ui_error a
  /\ ui_loading a' = ui_loading a
  /\ history (ui_store a') = history (ui_store a).
Proof.
  intros Hm. cbv zeta. rewrite resumeRun_state, Hm.
  destruct answer as [response|err]; cbv zeta;
    try destruct (existsb _ (run_history p)); repeat split; reflexivity.
Qed.

(** The store after the rest of a run: as it was, or with the new entry
    in front of the history the run had closed over. *)
Lemma resumeRun_store (p : Pending) (answer : Outcome str) (now1 now2 : N)
    (a : Ui) :
  let a' := fst (resumeRun p answer now1 now2 a) in
  ui_store a' = ui_store a
  \/ exists response,
       existsb (sameEntry (run_task p) response) (run_history p) = false
       /\ ui_store a'
          = let updated :=
              firstn 20 (mkItem (toString now1) now2 (run_task p) response
                         :: run_history p) in
            mkStore (if run_mounted p then updated else history (ui_store a))
                    (Some updated).
Proof.
  cbv zeta. rewrite resumeRun_state.
  destruct answer as [response|err]; cbv zeta.
  - destruct (existsb _ (run_history p)) eqn:E.
    + left. destruct (run_mounted p); reflexivity.
    + right. exists response. split; [exact E|].
      destruct (run_mounted p); reflexivity.
  - left. destruct (run_mounted p); reflexivity.
Qed.

Lemma dropNth_In {A} (k : nat) (l : list A) (x : A) :
  In x (dropNth k l) -> In x l.
Proof.
  unfold dropNth. intros H. apply in_app_or in H as [H|H].
  - rewrite <- (firstn_skipn k l). apply in_or_app. now left.
  - rewrite <- (firstn_skipn (S k) l). apply in_or_app. now right.
Qed.

Lemma filter_dropNth {A} (f : A -> bool) (k : nat) (l : list A) (x : A) :
  nth_error l k = Some x ->
  filter f l
  = filter f (firstn k l) ++ (if f x then [x] else [])
    ++ filter f (skipn (S k) l).
Proof.
  revert l; induction k as [|k IH]; intros [|y l] H; try discriminate.
  - injection H as ->. simpl. now destruct (f x).
  - simpl in H. cbn [firstn skipn filter].
    rewrite (IH l H). now destruct (f y).
Qed.

(** Taking a run of the list of waiting runs. *)
Lemma waiting_dropNth (k : nat) (runs : list Pending) (p : Pending) :
  nth_error runs k = Some p ->
  length (filter run_mounted runs)
  = length (filter run_mounted (dropNth k runs))
    + (if run_mounted p then 1 else 0).
Proof.
  intros H. rewrite (filter_dropNth run_mounted k runs p H).
  unfold dropNth. rewrite filter_app, !length_app.
  destruct (run_mounted p); simpl; lia.
Qed.

(** What the click on the button starts once the inputs are accepted. *)
Lemma handleRun_accepted (a : Ui) (image : File) :
  ui_image a = Some image -> trim (ui_task a) <> [] ->
  handleRun a
  = setPending
      (ui_pending a ++ [mkPending (ui_task a) (history (ui_store a)) true])
      (stopSpeech (setError None (setResult None (setLoading true a)))).
Proof.
  intros Hi Ht. unfold handleRun. rewrite Hi.
  destruct (trim (ui_task a)); [congruence | reflexivity].
Qed.

(** Without an image, or with a task that is blank after trimming, the
    click only sets the error text. *)
Lemma handleRun_refused (a : Ui) :
  ui_image a = None \/ trim (ui_task a) = [] ->
  handleRun a
  = setError (Some (match ui_image a with
                    | None => pleaseUpload
                    | Some _ => pleaseDescribe
                    end)) a.
Proof.
  intros H. unfold handleRun. destruct (ui_image a) as [image|];
    [|reflexivity].
  destruct H as [H|H]; [discriminate|]. now rewrite H.
Qed.

Lemma handleRun_cases (a : Ui) :
  (exists t, handleRun a = setError (Some t) a)
  \/ handleRun a
     = setPending
         (ui_pending a ++ [mkPending (ui_task a) (history (ui_store a)) true])
         (stopSpeech (setError None (setResult None (setLoading true a)))).
Proof.
  destruct (ui_image a) as [image|] eqn:Hi.
  - destruct (trim (ui_task a)) as [|c t] eqn:Ht.
    + left. eexists. apply handleRun_refused. now right.
    + right. apply (handleRun_accepted a image Hi). rewrite Ht. discriminate.
  - left. eexists. apply handleRun_refused. now left.
Qed.

Lemma nth_error_snoc {A} (l : list A) (x : A) :
  nth_error (l ++ [x]) (length l) = Some x.
Proof. rewrite nth_error_app2, Nat.sub_diag by lia. reflexivity. Qed.

Lemma dropNth_snoc {A} (l : list A) (x : A) :
  dropNth (length l) (l ++ [x]) = l.
Proof.
  unfold dropNth. rewrite firstn_app, firstn_all, Nat.sub_diag.
  cbn [firstn]. rewrite skipn_all2 by (rewrite length_app; simpl; lia).
  now rewrite !app_nil_r.
Qed.

(** X24: a run with an image and a non-blank task, started while no run is
    in progress and answered before anything else happens to the component,
    ends with the loading flag off, the speech stopped and no run left
    waiting that was not waiting before.  When the service answers, the
    answer is the result, there is no error text and the answer is saved to
    the history; when the service fails, there is no result, the error text
    is the message of the failure (the component's own fallback text is
    never needed) and the history is as before. *)
Theorem handleRun_outcome (sv : Service) (now1 now2 : N) (a : Ui)
    (image : File) :
  ui_image a = Some image -> trim (ui_task a) <> [] -> ui_loading a = false ->
  let a' :=
    uiStep (uiStep a Run) (Answer (length (ui_pending a)) sv now1 now2) in
  ui_loading a' = false
  /\ ui_speechState a' = idle
  /\ ui_pending a' = ui_pending a
  /\ match snd (runUniversalInterface sv []) with
     | Returns response =>
         ui_result a' = Some response
         /\ ui_error a' = None
         /\ ui_store a'
            = saveToHistory now1 now2 response (ui_task a) (ui_store a)
     | Throws err =>
         ui_result a' = None
         /\ ui_error a' = message err
         /\ ui_store a' = ui_store a
     end.
Proof.
  intros Hi Ht Hl. cbv zeta. cbn [uiStep]. rewrite Hl.
  rewrite (handleRun_accepted a image Hi Ht).
  cbn [ui_pending setPending stopSpeech setSpeech setError setResult
       setLoading].
  rewrite nth_error_snoc, dropNth_snoc, resumeRun_state.
  cbn [run_mounted run_task run_history].
  pose proof (service_error_has_message sv []) as Hm.
  destruct (snd (runUniversalInterface sv [])) as [response|err]; cbv zeta.
  - unfold saveToHistory.
    destruct (existsb (sameEntry (ui_task a) response)
                (history (ui_store a)));
      repeat split; reflexivity.
  - destruct (Hm err eq_refl) as (m & Hmsg & Hne).
    repeat split; try reflexivity.
    cbn. rewrite Hmsg. destruct m; [congruence | reflexivity].
Qed.

Lemma handleRun_outcome_witness :
  ui_result
    (uiStep
       (uiStep (setTask (lit "Find it")
                  (handleFileChange
                     (mkFile (lit "image/png") (Returns (lit "data:,")))
                     initialUi))
          Run)
       (Answer 0 proUnavailable 1 1))
  = Some (lit "### 1. Page Summary").
Proof.
  destruct (handleRun_outcome proUnavailable 1 1
              (setTask (lit "Find it") (handleFileChange
                 (mkFile (lit "image/png") (Returns (lit "data:,")))
                 initialUi))
              (mkFile (lit "image/png") (Returns (lit "data:,"))))
    as (_ & _ & _ & H).
  - reflexivity.
  - discriminate.
  - reflexivity.
  - exact (proj1 H).
Defined.

Lemma speech_idle_without_result (a : Ui) :
  speechConsistent a -> ui_result a = None ->
  ui_speechState a = idle /\ ui_speechRef a = None.
Proof.
  unfold speechConsistent. intros H Hr.
  destruct (ui_speechState a); [now split| |];
    destruct H as (c & r & H & _); congruence.
Qed.

Lemma toggleSpeech_speech (a : Ui) :
  speechConsistent a -> speechConsistent (toggleSpeech a).
Proof.
  intros H. unfold speechConsistent in *. unfold toggleSpeech.
  destruct (ui_result a) as [[|c r]|] eqn:Hr; try (rewrite Hr; exact H).
  destruct (ui_speechState a) eqn:Hs; cbn.
  - exists c, r. now split.
  - destruct H as (c' & r' & H1 & H2). rewrite Hr in *. exists c', r'.
    now split.
  - destruct H as (c' & r' & H1 & H2). rewrite Hr in *. exists c', r'.
    now split.
Qed.

Lemma toggleSpeech_keeps (a : Ui) :
  ui_loading (toggleSpeech a) = ui_loading a
  /\ ui_result (toggleSpeech a) = ui_result a
  /\ ui_pending (toggleSpeech a) = ui_pending a
  /\ ui_store (toggleSpeech a) = ui_store a.
Proof.
  unfold toggleSpeech. destruct (ui_result a) as [[|c r]|] eqn:Hr;
    try (repeat split; assumption || reflexivity).
  destruct (ui_speechState a); repeat split; assumption || reflexivity.
Qed.

Lemma copyToClipboard_keeps (a : Ui) :
  ui_loading (copyToClipboard a) = ui_loading a
  /\ ui_result (copyToClipboard a) = ui_result a
  /\ ui_pending (copyToClipboard a) = ui_pending a
  /\ ui_store (copyToClipboard a) = ui_store a
  /\ ui_speechState (copyToClipboard a) = ui_speechState a
  /\ ui_speechRef (copyToClipboard a) = ui_speechRef a
  /\ ui_synthesis (copyToClipboard a) = ui_synthesis a.
Proof.
  unfold copyToClipboard. destruct (ui_result a) as [[|c r]|] eqn:Hr;
    repeat split; assumption || reflexivity.
Qed.

Lemma downloadAsText_keeps (now : N) (a : Ui) :
  ui_loading (downloadAsText now a) = ui_loading a
  /\ ui_result (downloadAsText now a) = ui_result a
  /\ ui_pending (downloadAsText now a) = ui_pending a
  /\ ui_store (downloadAsText now a) = ui_store a
  /\ ui_speechState (downloadAsText now a) = ui_speechState a
  /\ ui_speechRef (downloadAsText now a) = ui_speechRef a
  /\ ui_synthesis (downloadAsText now a) = ui_synthesis a.
Proof.
  unfold downloadAsText. destruct (ui_result a) as [[|c r]|] eqn:Hr;
    repeat split; assumption || reflexivity.
Qed.

Lemma remount_waiting (a : Ui) : waiting (remount a) = [].
Proof.
  unfold waiting, remount. cbn [ui_pending].
  induction (ui_pending a) as [|p l IH]; [reflexivity | exact IH].
Qed.

Lemma uiStep_speech (a : Ui) (e : UiEvent) :
  match e with
  | LoadItem _ => ui_loading a = false
  | _ => True
  end ->
  speechConsistent a /\ settled a ->
  speechConsistent (uiStep a e) /\ settled (uiStep a e).
Proof.
  intros He [Hs Hw]. unfold settled, waiting in *.
  destruct e; cbn [uiStep].
  - split; [reflexivity|]. left. apply remount_waiting.
  - split; [exact Hs | exact Hw].
  - split; [exact Hs | exact Hw].
  - split; [exact Hs | exact Hw].
  - split; [exact Hs | exact Hw].
  - destruct (ui_loading a) eqn:Hl.
    { split; [exact Hs|].
      destruct Hw as [Hw|(_ & Hr & Hone)]; [now left | right; now repeat split]. }
    assert (filter run_mounted (ui_pending a) = []) as Hnone.
    { destruct Hw as [Hw|(Hw & _)]; [exact Hw | congruence]. }
    destruct (handleRun_cases a) as [[t ->]| ->].
    + split; [exact Hs | now left].
    + split; [reflexivity|]. right.
      cbn [ui_loading ui_result ui_pending setPending stopSpeech setSpeech
           setError setResult setLoading].
      rewrite filter_app, Hnone. now repeat split.
  - destruct (nth_error (ui_pending a) k) as [p|] eqn:Hk; [|now split].
    pose proof (resumeRun_keeps p (snd (runUniversalInterface sv [])) now1 now2
                  (setPending (dropNth k (ui_pending a)) a))
      as (K1 & K2 & _ & _ & _ & K6).
    pose proof (waiting_dropNth k (ui_pending a) p Hk) as Hlen.
    cbv zeta in *. unfold speechConsistent. rewrite K1, K2, K6.
    cbn [ui_pending ui_speechState ui_speechRef setPending] in *.
    destruct (run_mounted p) eqn:Hm.
    + destruct Hw as [Hw|(Hl & Hr & Hone)];
        [rewrite Hw in Hlen; simpl in Hlen; lia|].
      destruct (speech_idle_without_result a Hs Hr) as [-> ->].
      split; [reflexivity|]. left.
      apply length_zero_iff_nil. lia.
    + pose proof (resumeRun_orphan p (snd (runUniversalInterface sv []))
                    now1 now2
                    (setPending (dropNth k (ui_pending a)) a) Hm)
        as (O1 & O2 & O3 & _).
      cbv zeta in *. rewrite O1, O3.
      cbn [ui_result ui_loading setPending].
      split; [exact Hs|].
      replace (length (filter run_mounted (ui_pending a)))
        with (length (filter run_mounted (dropNth k (ui_pending a))))
        in Hw by lia.
      destruct Hw as [Hw|Hw]; [left | right; exact Hw].
      apply length_zero_iff_nil.
      rewrite Hw in Hlen. simpl in Hlen. lia.
  - assert (filter run_mounted (ui_pending a) = []) as Hnone.
    { destruct Hw as [Hw|(Hw & _)]; [exact Hw | congruence]. }
    split; [reflexivity | now left].
  - destruct (toggleSpeech_keeps a) as (-> & -> & -> & _).
    split; [now apply toggleSpeech_speech | exact Hw].
  - split; [reflexivity | exact Hw].
  - split; [reflexivity | exact Hw].
  - destruct (copyToClipboard_keeps a) as (-> & Hr & -> & _ & S1 & S2 & _).
    unfold speechConsistent. rewrite S1, S2, Hr. now split.
  - destruct (downloadAsText_keeps now a) as (-> & Hr & -> & _ & S1 & S2 & _).
    unfold speechConsistent. rewrite S1, S2, Hr. now split.
  - split; [exact Hs | exact Hw].
  - split; [exact Hs | exact Hw].
Qed.

Lemma uiFrom_speech (events : list UiEvent) (a : Ui) :
  loadsWhenIdle a events ->
  speechConsistent a /\ settled a ->
  speechConsistent (uiFrom a events) /\ settled (uiFrom a events).
Proof.
  revert a; induction events as [|e events IH]; intros a Hq Ha; [exact Ha|].
  destruct Hq as [He Hq]. apply (IH (uiStep a e) Hq).
  now apply uiStep_speech.
Qed.

(** X25: as long as no history entry is loaded while the component shows a
    run in progress, what the component holds as utterance is the plain
    text of the result it shows: while its speech state is playing or paused
    there is a non-empty result and the utterance is its [cleanMarkdown]
    text, and while it is idle there is no utterance.  (An entry loaded
    while a run waits can be spoken; the answer then replaces the result
    and the speech goes on with the old text.) *)
Theorem speech_follows_result (events : list UiEvent) :
  loadsWhenIdle initialUi events ->
  speechConsistent (uiRun events).
Proof.
  intros H. apply (uiFrom_speech events initialUi H).
  split; [reflexivity | now left].
Qed.

Lemma speech_follows_result_witness :
  speechConsistent
    (uiRun [ChooseFile (mkFile (lit "image/png") (Returns (lit "data:,")));
            TypeTask (lit "Find it"); Run; Answer 0 proUnavailable 1 1;
            ToggleSpeech;
            LoadItem (mkItem (lit "7") 7 (lit "Old task") (lit "Old result"));
            ToggleSpeech]).
Proof. apply speech_follows_result. vm_compute. repeat split. Defined.

(** Without that condition the utterance and the result can differ: an
    entry loaded and played while a run waits is still being spoken when
    the answer becomes the result. *)
Example speech_outlives_result :
  let a := uiRun [ChooseFile (mkFile (lit "image/png") (Returns (lit "data:,")));
                  TypeTask (lit "Find it"); Run;
                  LoadItem (mkItem (lit "7") 7 (lit "Old task")
                              (lit "Old result"));
                  ToggleSpeech; Answer 0 proUnavailable 1 1] in
  ui_result a = Some (lit "### 1. Page Summary")
  /\ ui_speechState a = playing
  /\ ui_speechRef a = Some (lit "Old result").
Proof. vm_compute. repeat split. Qed.

Lemma uiStep_outputs (a : Ui) (e : UiEvent) :
  plainOutputs a -> plainOutputs (uiStep a e).
Proof.
  intros (Hs & Hc & Hf). unfold plainOutputs.
  destruct e; cbn [uiStep]; try (now repeat split).
  - destruct (ui_loading a); [now repeat split|].
    destruct (handleRun_cases a) as [[t ->]| ->]; [now repeat split|].
    cbn. split; [|now split].
    apply Forall_app. split; [exact Hs | now repeat constructor].
  - destruct (nth_error (ui_pending a) k) as [p|]; [|now repeat split].
    pose proof (resumeRun_keeps p (snd (runUniversalInterface sv [])) now1 now2
                  (setPending (dropNth k (ui_pending a)) a))
      as (_ & _ & K3 & K4 & K5 & _).
    cbv zeta in *. rewrite K3, K4, K5. now repeat split.
  - cbn. split; [|now split].
    apply Forall_app. split; [exact Hs | now repeat constructor].
  - unfold toggleSpeech. destruct (ui_result a) as [[|c r]|];
      try (now repeat split).
    destruct (ui_speechState a); cbn; (split; [|now split]);
      (apply Forall_app; split; [exact Hs|]); repeat constructor.
    apply cleanMarkdown_no_markup.
  - cbn. split; [|now split].
    apply Forall_app. split; [exact Hs | now repeat constructor].
  - cbn. split; [|now split]. now rewrite app_nil_r.
  - unfold copyToClipboard. destruct (ui_result a) as [[|c r]|];
      try (now repeat split).
    cbn. split; [exact Hs|]. split; [|exact Hf].
    apply Forall_app. split; [exact Hc|]. repeat constructor.
    apply cleanMarkdown_no_markup.
  - unfold downloadAsText. destruct (ui_result a) as [[|c r]|];
      try (now repeat split).
    cbn. split; [exact Hs|]. split; [exact Hc|].
    apply Forall_app. split; [exact Hf|]. repeat constructor.
    apply cleanMarkdown_no_markup.
Qed.

(** X26: whatever the user does, no text that is spoken, copied to the
    clipboard or offered as a [.txt] download holds a '*', a '`' or a
    '>'. *)
Theorem outputs_are_plain (events : list UiEvent) :
  plainOutputs (uiRun events).
Proof.
  unfold uiRun.
  assert (forall a, plainOutputs a ->
                    plainOutputs (fold_left uiStep events a)) as H.
  { induction events as [|e events IH]; intros a Ha; [exact Ha|].
    simpl. apply IH. now apply uiStep_outputs. }
  apply H. repeat split; constructor.
Qed.

Lemma saved_withinBounds (now1 now2 : N) (response taskPrompt : str)
    (l : list HistoryItem) :
  withinBounds l ->
  existsb (sameEntry taskPrompt response) l = false ->
  withinBounds
    (firstn 20 (mkItem (toString now1) now2 taskPrompt response :: l)).
Proof.
  intros [_ Hd] Hn. split; [apply firstn_le_length|].
  pose proof (historyStep_no_duplicates (mkStore l None)
                (Save now1 now2 response taskPrompt) Hd) as H.
  cbn [historyStep] in H. unfold saveToHistory in H.
  cbn [history] in H. now rewrite Hn in H.
Qed.

Lemma filtered_withinBounds (f : HistoryItem -> bool) (l : list HistoryItem) :
  withinBounds l -> withinBounds (filter f l).
Proof.
  intros [Hl Hd]. split.
  - pose proof (filter_length_le f l). lia.
  - now apply filter_keeps_distinct_keys.
Qed.

Lemma empty_withinBounds : withinBounds [].
Proof. split; [simpl; lia | constructor]. Qed.

Lemma uiStep_bounds (a : Ui) (e : UiEvent) :
  listsWithinBounds a -> listsWithinBounds (uiStep a e).
Proof.
  intros (Hh & Hp & Hr). unfold listsWithinBounds.
  destruct e; cbn [uiStep];
    try (split; [exact Hh | split; [exact Hp | exact Hr]]).
  - unfold remount. cbn [ui_store ui_pending]. unfold loadHistory.
    cbn [uia_history]. split; [|split].
    + destruct (uia_history (ui_store a)) as [saved|] eqn:E; cbn [history];
        [now apply Hp | apply empty_withinBounds].
    + destruct (uia_history (ui_store a)) as [saved|] eqn:E;
        cbn [uia_history]; [|discriminate].
      intros saved' H. injection H as <-. now apply Hp.
    + apply Forall_map. exact Hr.
  - destruct (ui_loading a);
      [split; [exact Hh | split; [exact Hp | exact Hr]]|].
    destruct (handleRun_cases a) as [[t ->]| ->];
      [split; [exact Hh | split; [exact Hp | exact Hr]]|].
    split; [exact Hh|]. split; [exact Hp|].
    cbn [ui_pending setPending stopSpeech setSpeech setError setResult
         setLoading].
    apply Forall_app. split; [exact Hr|].
    constructor; [exact Hh | constructor].
  - destruct (nth_error (ui_pending a) k) as [p|] eqn:Hk;
      [|split; [exact Hh | split; [exact Hp | exact Hr]]].
    pose proof (resumeRun_keeps p (snd (runUniversalInterface sv [])) now1 now2
                  (setPending (dropNth k (ui_pending a)) a))
      as (_ & _ & _ & _ & _ & K6).
    assert (withinBounds (run_history p)) as Hpb.
    { rewrite Forall_forall in Hr. apply Hr.
      now apply nth_error_In with (n := k). }
    assert (Forall (fun p => withinBounds (run_history p))
              (dropNth k (ui_pending a))) as Hr'.
    { rewrite Forall_forall in *. intros q Hq. apply Hr.
      now apply dropNth_In in Hq. }
    cbv zeta in K6. rewrite K6. cbn [ui_pending setPending].
    destruct (resumeRun_store p (snd (runUniversalInterface sv [])) now1 now2
                (setPending (dropNth k (ui_pending a)) a))
      as [->|(response & Hn & ->)]; cbn [ui_store setPending];
      [split; [exact Hh | split; [exact Hp | exact Hr']]|].
    pose proof (saved_withinBounds now1 now2 response (run_task p)
                  (run_history p) Hpb Hn) as Hu.
    cbv zeta. cbn [history uia_history]. split; [|split].
    + destruct (run_mounted p); assumption.
    + intros saved H. injection H as <-. exact Hu.
    + exact Hr'.
  - destruct (toggleSpeech_keeps a) as (_ & _ & -> & ->).
    split; [exact Hh | split; [exact Hp | exact Hr]].
  - destruct (copyToClipboard_keeps a) as (_ & _ & -> & -> & _).
    split; [exact Hh | split; [exact Hp | exact Hr]].
  - destruct (downloadAsText_keeps now a) as (_ & _ & -> & -> & _).
    split; [exact Hh | split; [exact Hp | exact Hr]].
  - unfold clearHistory. destruct confirmed; cbn;
      [|split; [exact Hh | split; [exact Hp | exact Hr]]].
    split; [apply empty_withinBounds|]. split; [discriminate | exact Hr].
  - cbn. split; [now apply filtered_withinBounds|]. split; [|exact Hr].
    intros saved H. injection H as <-. now apply filtered_withinBounds.
Qed.

Lemma uiStep_inStep (a : Ui) (e : UiEvent) :
  match e with
  | NewChat => ui_pending a = []
  | _ => True
  end ->
  inStep a -> inStep (uiStep a e).
Proof.
  intros He [Hm Hs]. unfold inStep, persisted in *.
  destruct e; cbn [uiStep]; try (split; [exact Hm | exact Hs]).
  - unfold remount. cbn [ui_pending ui_store]. rewrite He. split; [constructor|].
    unfold loadHistory, restart. cbn [uia_history].
    destruct (uia_history (ui_store a)); reflexivity.
  - destruct (ui_loading a); [split; [exact Hm | exact Hs]|].
    destruct (handleRun_cases a) as [[t ->]| ->];
      [split; [exact Hm | exact Hs]|].
    split; [|exact Hs].
    cbn [ui_pending setPending stopSpeech setSpeech setError setResult
         setLoading].
    apply Forall_app. split; [exact Hm | now repeat constructor].
  - destruct (nth_error (ui_pending a) k) as [p|] eqn:Hk;
      [|split; [exact Hm | exact Hs]].
    pose proof (resumeRun_keeps p (snd (runUniversalInterface sv [])) now1 now2
                  (setPending (dropNth k (ui_pending a)) a))
      as (_ & _ & _ & _ & _ & K6).
    assert (run_mounted p = true) as Hp.
    { rewrite Forall_forall in Hm. apply Hm.
      now apply nth_error_In with (n := k). }
    cbv zeta in K6. rewrite K6. cbn [ui_pending setPending]. split.
    + rewrite Forall_forall in *. intros q Hq. apply Hm.
      now apply dropNth_In in Hq.
    + destruct (resumeRun_store p (snd (runUniversalInterface sv [])) now1
                  now2 (setPending (dropNth k (ui_pending a)) a))
        as [->|(response & Hn & ->)]; cbn [ui_store setPending];
        [exact Hs|].
      rewrite Hp. reflexivity.
  - destruct (toggleSpeech_keeps a) as (_ & _ & -> & ->).
    split; [exact Hm | exact Hs].
  - destruct (copyToClipboard_keeps a) as (_ & _ & -> & -> & _).
    split; [exact Hm | exact Hs].
  - destruct (downloadAsText_keeps now a) as (_ & _ & -> & -> & _).
    split; [exact Hm | exact Hs].
  - split; [exact Hm|].
    exact (historyStep_synced (ui_store a) (Clear confirmed) Hs).
  - split; [exact Hm|].
    exact (historyStep_synced (ui_store a) (Delete i) Hs).
Qed.

Lemma uiFrom_inStep (events : list UiEvent) (a : Ui) :
  remountsWhenSettled a events -> inStep a -> inStep (uiFrom a events).
Proof.
  revert a; induction events as [|e events IH]; intros a Hq Ha; [exact Ha|].
  destruct Hq as [He Hq]. apply (IH (uiStep a e) Hq).
  now apply uiStep_inStep.
Qed.

(** X27: whatever the user does in the component (choosing files, running
    analyses whose answers arrive at any later time, loading, deleting and
    clearing entries, starting a new chat), the history on display and the
    persisted copy each have at most 20 entries and no two entries with the
    same task and result.  If moreover every new chat is started when no
    run waits for its answer, the persisted copy is the history on display:
    a new session shows the same list.  (A run answered after its component
    was unmounted writes its entry to the persisted copy only.) *)
Theorem component_history_ok (events : list UiEvent) :
  let st := ui_store (uiRun events) in
  withinBounds (history st)
  /\ (forall saved, uia_history st = Some saved -> withinBounds saved)
  /\ (remountsWhenSettled initialUi events -> persisted st).
Proof.
  cbv zeta.
  assert (forall a, listsWithinBounds a ->
                    listsWithinBounds (fold_left uiStep events a)) as H.
  { induction events as [|e events IH]; intros a Ha; [exact Ha|].
    simpl. apply IH. now apply uiStep_bounds. }
  destruct (H initialUi) as (B1 & B2 & _).
  { split; [apply empty_withinBounds|]. split; [discriminate | constructor]. }
  split; [exact B1|]. split; [exact B2|].
  intros Hq. apply (uiFrom_inStep events initialUi Hq).
  split; [constructor | reflexivity].
Qed.

Lemma component_history_ok_witness :
  persisted
    (ui_store
       (uiRun [ChooseFile (mkFile (lit "image/png") (Returns (lit "data:,")));
               TypeTask (lit "Find it"); Run; Answer 0 proUnavailable 1 1;
               NewChat; DeleteItem (lit "1")])).
Proof.
  destruct (component_history_ok
              [ChooseFile (mkFile (lit "image/png") (Returns (lit "data:,")));
               TypeTask (lit "Find it"); Run; Answer 0 proUnavailable 1 1;
               NewChat; DeleteItem (lit "1")]) as (_ & _ & H).
  apply H. vm_compute. repeat split.
Defined.

(** A run answered after "New Chat" reaches the persisted copy and not the
    history on display. *)
Example orphan_run_is_persisted_only :
  let st := ui_store
              (uiRun [ChooseFile
                        (mkFile (lit "image/png") (Returns (lit "data:,")));
                      TypeTask (lit "Find it"); Run; NewChat;
                      Answer 0 proUnavailable 1 1]) in
  history st = []
  /\ uia_history st
     = Some [mkItem (lit "1") 1 (lit "Find it") (lit "### 1. Page Summary")].
Proof. vm_compute. split; reflexivity. Qed.

(** ** The export, end to end *)

Lemma exportBody_returns (x : Export) (snap : Snapshot) (w : Browser)
    (pdf0 : Pdf) :
  handleScreenshot x snap jsPDF (withTemp x w) = (withTemp x w, Returns pdf0) ->
  Forall rasterizes (blocks snap) ->
  save x = Returns tt ->
  exportBody x snap w
  = (mkBrowser (removeNode (temp x) (body w ++ [temp x])) (isGenerating w)
       (downloads w
        ++ [(exportName x,
             fst (paginate (rasterizedHeights (blocks snap))
                    (pdf0, margin)))])
       (alerts w) (consoleErrors w),
     Returns tt).
Proof.
  intros Hshot Hb Hsave.
  unfold exportBody, bind at 1, appendChild, modify.
  fold (withTemp x w). unfold bind at 1. rewrite Hshot.
  unfold bind at 1. rewrite (forOf_captureBlock_paginate _ _ _ Hb).
  unfold bind, pdfSave, lift, modify, removeChild, bind. rewrite Hsave.
  reflexivity.
Qed.

(** X28: when every stage succeeds, [generatePdf] saves one file, named
    after the date, whose pages are the pagination of the heights of the
    non-blank blocks: started on the one page of a new document when no
    screenshot page is made, and on the first page of the document with the
    screenshot on its second page when one is made. *)
Theorem generatePdf_saves_pagination (x : Export) (snap : Snapshot)
    (w : Browser) :
  printRef x = Some snap ->
  Forall rasterizes (blocks snap) ->
  save x = Returns tt ->
  (hasScreenshot snap && includeScreenshot x = false \/ imgPreview x = None ->
   downloads (fst (generatePdf x w))
   = downloads w
     ++ [(exportName x,
          fst (paginate (rasterizedHeights (blocks snap)) (jsPDF, margin)))])
  /\ (forall props,
        hasScreenshot snap && includeScreenshot x = true ->
        imgPreview x = Some (Returns props) ->
        downloads (fst (generatePdf x w))
        = downloads w
          ++ [(exportName x,
               fst (paginate (rasterizedHeights (blocks snap))
                      (screenshotPage props jsPDF, margin)))]).
Proof.
  intros Hp Hb Hsave.
  assert (forall pdf0,
            handleScreenshot x snap jsPDF (withTemp x (started w))
            = (withTemp x (started w), Returns pdf0) ->
            downloads (fst (generatePdf x w))
            = downloads w
              ++ [(exportName x,
                   fst (paginate (rasterizedHeights (blocks snap))
                          (pdf0, margin)))]) as H.
  { intros pdf0 Hshot.
    pose proof (exportBody_returns x snap (started w) pdf0 Hshot Hb Hsave)
      as He.
    unfold generatePdf. rewrite Hp.
    unfold bind at 1, setIsGenerating, modify. fold (started w).
    unfold tryFinally, tryCatch. rewrite He. reflexivity. }
  split.
  - intros Hno. apply H. unfold handleScreenshot.
    destruct Hno as [-> | ->]; [reflexivity|].
    destruct (hasScreenshot snap && includeScreenshot x); reflexivity.
  - intros props Hyes Himg. apply H. unfold handleScreenshot.
    rewrite Hyes, Himg. reflexivity.
Qed.

Lemma generatePdf_saves_pagination_witness :
  let block := mkBlock false (Returns tt) (Returns (mkProps 794 200)) in
  let x := mkExport (Some (mkSnapshot true [block])) true
                    (Some (Returns (mkProps 1280 720))) 7%N
                    (lit "2026-11-02") (Returns tt) in
  downloads (fst (generatePdf x (mkBrowser [1%N] false [] [] [])))
  = [(lit "UIA_Summary_2026-11-02.pdf",
      fst (paginate [scaledHeight (mkProps 794 200)]
             (screenshotPage (mkProps 1280 720) jsPDF, margin)))].
Proof.
  intros block x.
  destruct (generatePdf_saves_pagination x (mkSnapshot true [block])
              (mkBrowser [1%N] false [] [] [])) as [_ H].
  - reflexivity.
  - constructor; [|constructor].
    right. exists tt, (mkProps 794 200). now split.
  - reflexivity.
  - apply (H (mkProps 1280 720)); reflexivity.
Defined.

